(** * The WebAssembly/V8 execution backend: host callbacks and engine driver

    A shallow embedding of the host side of the V8 backend
    (backend/V8Engine.cpp): the result-set reader [read_result_set], the
    index callbacks [index_seek], the literal mapping of [create_env] and
    the driver [V8Engine::execute], followed by the properties established
    about them.  The command-line parser (util/ArgParser.cpp), through which
    the options of the backend are set, is embedded as well.

    The embedding follows the debug build: [M_insist] is checked, and a
    failed check aborts the process.  Collaborators whose code lives in
    other translation units (schemas, the interpreter's stack machine, the
    context registry, the index structures) are modelled next to their
    first use and marked as such. *)

From Stdlib Require Import ZArith NArith String Ascii DecimalString.
From stdpp Require Import base tactics option list gmap strings.

Open Scope string_scope.
Open Scope list_scope.

(** ** Outcomes of host code

    A host function returns normally, aborts the process (a failed
    [M_insist], [M_unreachable], [abort()]), or raises a C++ exception that
    unwinds to its caller. *)

Inductive result (A : Type) : Type :=
| Ok (a : A)
| Fatal (msg : string)
| Raise (what : string).

Arguments Ok {A} a.
Arguments Fatal {A} msg.
Arguments Raise {A} what.

#[global] Instance result_ret : MRet result := fun A a => Ok a.

#[global] Instance result_bind : MBind result := fun A B k r =>
  match r with
  | Ok a => k a
  | Fatal m => Fatal m
  | Raise w => Raise w
  end.

(** [M_insist(cond, msg)]: aborts with the diagnostic when the condition is
    false. *)
Definition M_insist (cond : bool) (msg : string) : result unit :=
  if cond then Ok tt else Fatal msg.

(** ** Types and values *)

Inductive NumericKind : Set := N_Int | N_Decimal | N_Float.

(** The type hierarchy visited by the reader.  [Numeric] carries its kind and
    its size in bits. *)
Inductive Ty : Set :=
| ErrorType
| NoneType
| Boolean
| CharacterSequence
| Date
| DateTime
| Numeric (kind : NumericKind) (size : N)
| FnType.

Definition is_none (t : Ty) : bool :=
  match t with NoneType => true | _ => false end.

#[global] Instance NumericKind_eq_dec : EqDecision NumericKind.
Proof. solve_decision. Defined.

#[global] Instance Ty_eq_dec : EqDecision Ty.
Proof. solve_decision. Defined.

(** [m::Value]: a tagged union; floating-point members are kept as their bit
    patterns, and [Vnone] is the default-constructed value. *)
Inductive Value : Set :=
| Vb (b : bool)
| Vi (i : Z)
| Vf (bits : Z)
| Vd (bits : Z)
| Vp (s : string)
| Vnone.

#[global] Instance Value_eq_dec : EqDecision Value.
Proof. solve_decision. Defined.

Definition as_b (v : Value) : result bool :=
  match v with Vb b => Ok b | _ => Fatal "value is not a bool" end.
Definition as_i (v : Value) : result Z :=
  match v with Vi i => Ok i | _ => Fatal "value is not an integer" end.
Definition as_f (v : Value) : result Z :=
  match v with Vf b => Ok b | _ => Fatal "value is not a float" end.
Definition as_d (v : Value) : result Z :=
  match v with Vd b => Ok b | _ => Fatal "value is not a double" end.
Definition as_p (v : Value) : result string :=
  match v with Vp s => Ok s | _ => Fatal "value is not a pointer" end.

(** ** Text output

    What [std::ostream] formatting the reader relies on: decimal integers
    with a field width, a fill character and the [internal] adjustment. *)

Definition digits (n : N) : string := NilZero.string_of_uint (N.to_uint n).

Fixpoint fill_string (c : ascii) (k : nat) : string :=
  match k with
  | O => EmptyString
  | S k' => String c (fill_string c k')
  end.

(** [out << setw(w) << z] with fill character [fill]; [internal] selects
    [std::internal] (padding between sign and digits), otherwise the default
    right adjustment applies. *)
Definition put_int (fill : ascii) (internal : bool) (w : nat) (z : Z) : string :=
  let ds := digits (Z.abs_N z) in
  let sign := if (z <? 0)%Z then "-" else "" in
  let padding := fill_string fill (w - (String.length sign + String.length ds)) in
  if internal then sign ++ padding ++ ds else padding ++ sign ++ ds.

(** [out << z] with the stream's defaults. *)
Definition show_int (z : Z) : string := put_int " " false 0 z.

(** Narrowing to [int32_t]. *)
Definition to_int32 (z : Z) : Z := ((z + 2 ^ 31) mod 2 ^ 32 - 2 ^ 31)%Z.

(** The [Date] branch of [print_constant]. *)
Definition print_date (i : Z) : string :=
  let date := to_int32 i in
  put_int "0" true (if (Z.shiftr date 9 >? 0)%Z then 4 else 5) (Z.shiftr date 9)
  ++ "-" ++ put_int "0" true 2 (Z.land (Z.shiftr date 5) 15)
  ++ "-" ++ put_int "0" true 2 (Z.land date 31).

(** What the C++ runtime does and is not reproduced here: printing floating
    point at a given precision, [gmtime_r] followed by [put_tm], narrowing
    a double to a float and comparing floating-point numbers (all on bit
    patterns), and the order in which a [std::unordered_set] is iterated,
    which is left to the implementation: some arrangement of the elements
    inserted, given here from their order of insertion. *)
Class HostRuntime : Type := {
  out_float : nat -> Z -> string;
  out_double : nat -> Z -> string;
  put_tm_gmtime : Z -> string;
  double_to_float : Z -> Z;
  float_less : Z -> Z -> bool;
  double_less : Z -> Z -> bool;
  iteration_order : forall A : Type, list A -> list A;
  iteration_order_perm : forall (A : Type) (l : list A), iteration_order A l ≡ₚ l
}.

(** The bit-packed date [year << 9 | month << 5 | day]. *)
Definition pack_date (year month day : Z) : Z :=
  Z.lor (Z.lor (Z.shiftl year 9) (Z.shiftl month 5)) day.


(** ** Schemas

    Modelled from the spec: [Schema] (mutable/catalog/Schema.hpp is not part
    of this unit).  A schema is an ordered sequence of entries, each
    carrying an identifier, a type and a constant marker; the marker is
    queried through the identifier ([e.id.is_constant()]). *)

Record Identifier : Set := mkId {
  id_prefix : option string;
  id_name : string;
  id_constant : bool
}.

#[global] Instance Identifier_eq_dec : EqDecision Identifier.
Proof. solve_decision. Defined.

Definition is_constant (i : Identifier) : bool := id_constant i.

Record Entry : Set := mkEntry { e_id : Identifier; e_type : Ty }.

#[global] Instance Entry_eq_dec : EqDecision Entry.
Proof. solve_decision. Defined.

Abbreviation Schema := (list Entry).

Definition num_entries (s : Schema) : nat := length s.

Definition has (s : Schema) (i : Identifier) : bool :=
  existsb (fun e => bool_decide (e_id e = i)) s.

(** Modelled from the spec: [Schema::deduplicate], duplicate identifiers
    collapsed, first occurrence wins. *)
Definition deduplicate (s : Schema) : Schema :=
  fold_left (fun res e => if has res (e_id e) then res else res ++ [e]) s [].

(** Modelled from the spec: [Schema::drop_constants], constant entries
    removed. *)
Definition drop_constants (s : Schema) : Schema :=
  fold_left (fun res e => if is_constant (e_id e) then res else res ++ [e]) s [].

Fixpoint find_from (s : Schema) (i : Identifier) (pos : nat) : option (nat * Entry) :=
  match s with
  | [] => None
  | e :: s' => if bool_decide (e_id e = i) then Some (pos, e) else find_from s' i (S pos)
  end.

(** Modelled from the spec: [Schema::operator[](Identifier)], the position
    and entry of an identifier; a missing or ambiguous identifier throws. *)
Definition Schema_at (s : Schema) (i : Identifier) : result (nat * Entry) :=
  match find_from s i 0 with
  | None => Raise "identifier not found"
  | Some (pos, e) =>
      if has (drop (S pos) s) i then Raise "duplicate identifier, lookup ambiguous"
      else Ok (pos, e)
  end.

(** ** Expressions and operators *)

Inductive Constant : Set :=
| CNull
| CBool (b : bool)
| CInt (i : Z)
| CFloat (bits : Z)
| CDouble (bits : Z)
| CString (s : string)
| CDate (d : Z)
| CDateTime (t : Z).

Definition is_string (c : Constant) : bool :=
  match c with CString _ => true | _ => false end.

(** Modelled from the spec: [Interpreter::eval] on a constant yields the
    value the literal denotes (backend/Interpreter.hpp is not part of this
    unit). *)
Definition Interpreter_eval (c : Constant) : Value :=
  match c with
  | CNull => Vnone
  | CBool b => Vb b
  | CInt i => Vi i
  | CFloat x => Vf x
  | CDouble x => Vd x
  | CString s => Vp s
  | CDate d => Vi d
  | CDateTime t => Vi t
  end.

#[warnings="-register-all"]
Inductive Expr : Set :=
| ErrorExpr
| Designator (table attr : string)
| ConstantExpr (c : Constant)
| FnApplicationExpr (fn : Expr) (args : list Expr)
| UnaryExpr (op : string) (expr : Expr)
| BinaryExpr (op : string) (lhs rhs : Expr)
| QueryExpr (alias : string).

(** [as<const ast::Constant>(e)]: a checked cast. *)
Definition as_Constant (e : Expr) : result Constant :=
  match e with
  | ConstantExpr c => Ok c
  | _ => Fatal "as<ast::Constant>: bad cast"
  end.

(** A CNF is a conjunction of clauses, each a disjunction of possibly negated
    predicates. *)
Abbreviation CNF := (list (list (bool * Expr))).

(** Output streams are identified by number. *)
Abbreviation ostream := nat.

Definition cout : ostream := 1%nat.
Definition cerr : ostream := 2%nat.

(** A base table as the driver sees it: its name, its row count and the
    memory image of its store. *)
Record Table : Set := { t_name : string; t_num_rows : N; t_image : string }.

Inductive OperatorKind : Set :=
| ScanOperator (table : Table)
| CallbackOperator (callback : nat)
| PrintOperator (out : ostream)
| NoOpOperator (out : ostream)
| FilterOperator (filter : CNF)
| DisjunctiveFilterOperator (filter : CNF)
| JoinOperator (predicate : CNF)
| ProjectionOperator (projections : list (Expr * option string))
| LimitOperator
| GroupingOperator (group_by : list (Expr * option string))
| AggregationOperator
| SortingOperator.

(** An operator: its dynamic kind, its schema and its children.  Every kind
    but [ScanOperator] is a [Consumer]. *)
#[warnings="-register-all"]
Inductive Operator : Set :=
| Op (kind : OperatorKind) (schema : Schema) (children : list Operator).

Definition kind (op : Operator) : OperatorKind := let 'Op k _ _ := op in k.
Definition schema (op : Operator) : Schema := let 'Op _ s _ := op in s.
Definition children (op : Operator) : list Operator := let 'Op _ _ c := op in c.

Definition is_Consumer (op : Operator) : bool :=
  match kind op with ScanOperator _ => false | _ => true end.

Record MatchBase : Set := { get_matched_root : Operator }.

(** ** Tuples *)

(** A tuple holds one slot per schema entry; an unset slot is NULL. *)
Abbreviation Tuple := (list (option Value)).

Definition Tuple_new (s : Schema) : Tuple := replicate (num_entries s) None.
Definition Tuple_set (t : Tuple) (i : nat) (v : Value) : Tuple := <[i := Some v]> t.
Definition Tuple_null (t : Tuple) (i : nat) : Tuple := <[i := None]> t.
Definition Tuple_clear (t : Tuple) : Tuple := replicate (length t) None.

(** The double-quote character. *)
Definition dquote : ascii := "034"%char.

(** ** Print-mode formatting

    [print_value] is the type dispatch of [print_constant] on an evaluated
    value. *)

Section Formatting.
Context {RT : HostRuntime}.

Definition print_value (type : Ty) (value : Value) : result string :=
  match type with
  | Boolean => b ← as_b value; Ok (if (b : bool) then "TRUE" else "FALSE")
  | Numeric N_Int _ | Numeric N_Decimal _ => i ← as_i value; Ok (show_int i)
  | Numeric N_Float size =>
      if (size <=? 32)%N then x ← as_f value; Ok (out_float 8 x)
      else x ← as_d value; Ok (out_double 16 x)
  | CharacterSequence => s ← as_p value; Ok (String dquote (s ++ String dquote ""))
  | Date => i ← as_i value; Ok (print_date i)
  | DateTime => i ← as_i value; Ok (put_tm_gmtime i)
  | NoneType => Fatal "should've been handled earlier"
  | _ => Fatal "invalid type"
  end.

(** The helper [print_constant] of [read_result_set]. *)
Definition print_constant (c : Constant) (type : Ty) : result string :=
  if is_none type then Ok "NULL"
  else print_value type (Interpreter_eval c).

End Formatting.

(** ** Memory, contexts and the registry *)

(** The arena [vm]: a fixed-size region of bytes. *)
Record Memory : Type := { mem_size : N; mem_byte : N -> ascii }.

(** Modelled from the spec: a data layout, as produced by
    [result_set_factory.make(schema)], decodes the row with a given number
    from the buffer at a given offset of the arena into a tuple shaped like
    the schema. *)
Record DataLayout : Type := { decode_row : Memory -> N -> nat -> Tuple }.

Abbreviation DataLayoutFactory := (Schema -> DataLayout).

Inductive IndexKind : Set := Array | RecursiveModel.

Inductive KeyType : Set := K_b | K_i1 | K_i2 | K_i4 | K_i8 | K_f | K_d | K_p.

#[global] Instance IndexKind_eq_dec : EqDecision IndexKind.
Proof. solve_decision. Defined.

#[global] Instance KeyType_eq_dec : EqDecision KeyType.
Proof. solve_decision. Defined.

(** Keys of all key types in one representation: integers by value,
    floating-point numbers by bit pattern. *)
Inductive Key : Set :=
| Key_b (b : bool)
| Key_i (i : Z)
| Key_f (bits : Z)
| Key_d (bits : Z)
| Key_p (s : string).

(** Modelled from the spec: an index handle is a pair (key type, index kind)
    plus a backing sequence of (key, tuple-id) entries sorted by key. *)
Record IndexBase : Set := {
  ib_kind : IndexKind;
  ib_key_type : KeyType;
  ib_entries : list (Key * N)
}.

Record WasmContext : Type := {
  id : N;
  plan : MatchBase;
  config : N;
  vm : Memory;
  heap : N;
  indexes : list IndexBase;
  result_set_factory : option DataLayoutFactory
}.

(** The message table of the module: file name, line and message. *)
Record Module : Set := {
  module_id : N;
  messages : list (string * N * option string)
}.

(** The process-wide state the callbacks and the driver work on: the context
    registry of [WasmEngine], the [Module] and [CodeGenContext] singletons
    (absent when disposed; of the latter only the literal-to-offset map is
    kept), the id the next module gets, and the engine's members: whether it
    has an isolate, how often the isolate has been entered, and whether an
    inspector is attached. *)
Record World : Type := {
  contexts : gmap N WasmContext;
  the_module : option Module;
  next_module_id : N;
  the_codegen : option (gmap string N);
  isolate_ : bool;
  isolate_depth : nat;
  inspector_ : bool
}.

(** Modelled from the spec: [Module::Get] and [Module::ID]; the singleton must
    be initialised. *)
Definition Module_Get (W : World) : result Module :=
  match the_module W with
  | Some M => Ok M
  | None => Fatal "module not initialised"
  end.

Definition Module_ID (W : World) : result N :=
  M ← Module_Get W; Ok (module_id M).

(** Modelled from the spec: [WasmEngine::Get_Wasm_Context_By_ID]; an unknown
    id is fatal. *)
Definition Get_Wasm_Context_By_ID (W : World) (i : N) : result WasmContext :=
  match contexts W !! i with
  | Some ctx => Ok ctx
  | None => Fatal "unknown Wasm context"
  end.

(** ** Callback arguments *)

Inductive V8Value : Set :=
| V8Boolean (b : bool)
| V8Int32 (i : Z)
| V8Uint32 (n : N)
| V8BigInt (i : Z)
| V8Number (bits : Z).

Abbreviation FunctionCallbackInfo := (list V8Value).

(** [info[i].As<v8::Uint32>()->Value()] *)
Definition arg_Uint32 (info : FunctionCallbackInfo) (i : nat) : result N :=
  match info !! i with
  | Some (V8Uint32 n) => Ok n
  | _ => Fatal "not a Uint32"
  end.

(** ** What the reader emits *)

Inductive event : Type :=
| EvRead (offset : N) (row : nat)
| EvCallback (callback : nat) (s : Schema) (t : Tuple)
| EvWrite (os : ostream) (text : string)
| EvReturn (num_rows : N).

(** [EvRead]: the loader decodes a row of the buffer at an offset;
    [EvCallback]: a callback sink receives a tuple; [EvWrite]: one [<<] on a
    stream; [EvReturn]: the exported [main] returns to the driver. *)

(** The text written to stream [os] over a run. *)
Fixpoint written (os : ostream) (tr : list event) : string :=
  match tr with
  | [] => ""
  | EvWrite os' text :: tr' =>
      if bool_decide (os' = os) then (text ++ written os tr')%string else written os tr'
  | _ :: tr' => written os tr'
  end.

Definition is_read (ev : event) : bool :=
  match ev with EvRead _ _ => true | _ => false end.

Definition is_return (ev : event) : bool :=
  match ev with EvReturn _ => true | _ => false end.

(** A trace in which [main] does not return to the driver. *)
Definition no_return (evs : list event) : Prop :=
  Forall (fun ev => is_return ev = false) evs.

(** The tuples delivered to callback sinks over a run. *)
Fixpoint delivered (tr : list event) : list Tuple :=
  match tr with
  | [] => []
  | EvCallback _ _ t :: tr' => t :: delivered tr'
  | _ :: tr' => delivered tr'
  end.

(** ** The interpreter's stack machine

    Modelled from the spec: the [StackMachine] that [Interpreter::compile_load]
    returns and the reader extends (backend/Interpreter.hpp is not part of
    this unit).  [Load_Row] stands for the code [compile_load] emits: it
    decodes the next row of the buffer into tuple 0.  [Ld_Tup] pushes a tuple
    slot, [St_Tup] writes the top of the stack to a tuple slot and leaves it
    on the stack, [Print] prints the top of the stack and leaves it there,
    and printing a NULL-typed column first pushes NULL. *)

Inductive Instr : Set :=
| Load_Row
| Ld_Tup (tuple_id index : nat)
| St_Tup (tuple_id index : nat) (type : Ty)
| Pop
| Push_Null
| Ld_Ctx (v : Value)
| Putc (index : nat) (c : ascii)
| Print (index : nat) (type : Ty).

Record StackMachine : Type := {
  sm_layout : DataLayout;
  sm_memory : Memory;
  sm_address : N;
  sm_width : nat;
  ops : list Instr;
  context : list ostream
}.

Definition compile_load (s : Schema) (memory : Memory) (address : N)
    (layout : DataLayout) : StackMachine :=
  {| sm_layout := layout; sm_memory := memory; sm_address := address;
     sm_width := num_entries s; ops := [Load_Row]; context := [] |}.

Definition emit (M : StackMachine) (code : list Instr) : StackMachine :=
  {| sm_layout := sm_layout M; sm_memory := sm_memory M;
     sm_address := sm_address M; sm_width := sm_width M;
     ops := ops M ++ code; context := context M |}.

(** [add(&out)]: registers a stream in the machine's context and returns its
    index. *)
Definition add (M : StackMachine) (os : ostream) : nat * StackMachine :=
  (length (context M),
   {| sm_layout := sm_layout M; sm_memory := sm_memory M;
      sm_address := sm_address M; sm_width := sm_width M;
      ops := ops M; context := context M ++ [os] |}).

Definition emit_Print (index : nat) (type : Ty) : list Instr :=
  if is_none type then [Push_Null; Print index type] else [Print index type].

Record MachineState : Type := {
  stack : list (option Value);
  tuples : list Tuple;
  trace : list event
}.

(** The first [width] slots of [dst] overwritten with the slots of [src]. *)
Definition store_row (width : nat) (src dst : Tuple) : Tuple :=
  foldl (fun t i => <[i := default None (src !! i)]> t) dst (seq 0 width).

Section Machine.
Context {RT : HostRuntime}.

Definition exec (M : StackMachine) (row : nat) (op : Instr) (st : MachineState)
    : result MachineState :=
  match op with
  | Load_Row =>
      match tuples st !! 0%nat with
      | Some t =>
          let src := decode_row (sm_layout M) (sm_memory M) (sm_address M) row in
          Ok {| stack := stack st;
                tuples := <[0%nat := store_row (sm_width M) src t]> (tuples st);
                trace := trace st ++ [EvRead (sm_address M) row] |}
      | None => Fatal "no such tuple"
      end
  | Ld_Tup tuple_id index =>
      match tuples st !! tuple_id ≫= (.!! index) with
      | Some v => Ok {| stack := v :: stack st; tuples := tuples st; trace := trace st |}
      | None => Fatal "no such tuple slot"
      end
  | St_Tup tuple_id index type =>
      match tuples st !! tuple_id with
      | Some t =>
          if is_none type then
            Ok {| stack := stack st;
                  tuples := <[tuple_id := Tuple_null t index]> (tuples st);
                  trace := trace st |}
          else
            match stack st with
            | top :: _ =>
                Ok {| stack := stack st;
                      tuples := <[tuple_id := <[index := top]> t]> (tuples st);
                      trace := trace st |}
            | [] => Fatal "stack underflow"
            end
      | None => Fatal "no such tuple"
      end
  | Pop =>
      match stack st with
      | _ :: rest => Ok {| stack := rest; tuples := tuples st; trace := trace st |}
      | [] => Fatal "stack underflow"
      end
  | Push_Null => Ok {| stack := None :: stack st; tuples := tuples st; trace := trace st |}
  | Ld_Ctx v => Ok {| stack := Some v :: stack st; tuples := tuples st; trace := trace st |}
  | Putc index c =>
      match context M !! index with
      | Some os =>
          Ok {| stack := stack st; tuples := tuples st;
                trace := trace st ++ [EvWrite os (String c "")] |}
      | None => Fatal "no such stream"
      end
  | Print index type =>
      match context M !! index, stack st with
      | Some os, top :: _ =>
          text ← match top with
                 | None => Ok "NULL"
                 | Some v => print_value type v
                 end;
          Ok {| stack := stack st; tuples := tuples st;
                trace := trace st ++ [EvWrite os text] |}
      | None, _ => Fatal "no such stream"
      | _, [] => Fatal "stack underflow"
      end
  end.

Fixpoint exec_all (M : StackMachine) (row : nat) (code : list Instr)
    (st : MachineState) : result MachineState :=
  match code with
  | [] => Ok st
  | op :: code' => st' ← exec M row op st; exec_all M row code' st'
  end.

(** One invocation [M(args)] for the row with number [row]: the tuples as
    left by the program, and what it read and wrote. *)
Definition invoke (M : StackMachine) (row : nat) (args : list Tuple)
    : result (list Tuple * list event) :=
  st ← exec_all M row (ops M) {| stack := []; tuples := args; trace := [] |};
  Ok (tuples st, trace st).

End Machine.

(** ** The result-set reader *)

Abbreviation Projections := (list (Expr * option string)).

(** The lambda [find_projection]: the projection nearest to the root along
    the single-child chain, if any. *)
Fixpoint find_projection (op : Operator) : result (option Projections) :=
  match op with
  | Op (ProjectionOperator projections) _ _ => Ok (Some projections)
  | Op (ScanOperator _) _ _ => Ok None
  | Op _ s cs =>
      match cs with
      | [c] =>
          M_insist (num_entries s =? num_entries (schema c))%nat
            "at least one projection with the same schema as the plan's root must be contained";;
          M_insist (forallb (fun p => bool_decide (e_id p.1 = e_id p.2)) (zip s (schema c)))
            "at least one projection with the same schema as the plan's root must be contained";;
          find_projection c
      | _ =>
          Fatal "at least one projection without siblings in the operator tree must be contained"
      end
  end.

(** [projections[i]] *)
Definition projection_at (projections : Projections) (i : nat)
    : result (Expr * option string) :=
  match projections !! i with
  | Some p => Ok p
  | None => Fatal "projections: index out of range"
  end.

(** [projection->projections()[i]] behind [M_insist(bool(projection))]. *)
Definition constant_at (projection : option Projections) (i : nat) : result Constant :=
  match projection with
  | Some projections => p ← projection_at projections i; as_Constant p.1
  | None => Fatal "projection must be found"
  end.

(** The loop filling the template tuple of a constants-only result. *)
Fixpoint constant_tuple (projections : Projections) (s : Schema) (i : nat)
    (tup : Tuple) : result Tuple :=
  match s with
  | [] => Ok tup
  | e :: s' =>
      if is_none (e_type e) then constant_tuple projections s' (S i) tup
      else
        M_insist (is_constant (e_id e)) "e.id.is_constant()";;
        p ← projection_at projections i;
        c ← as_Constant p.1;
        constant_tuple projections s' (S i) (Tuple_set tup i (Interpreter_eval c))
  end.

(** The loop planting the constants of a result with payload. *)
Fixpoint plant_constants (projection : option Projections) (s : Schema) (i : nat)
    (tup : Tuple) : result Tuple :=
  match s with
  | [] => Ok tup
  | e :: s' =>
      if is_none (e_type e) then plant_constants projection s' (S i) tup
      else if is_constant (e_id e) then
        c ← constant_at projection i;
        plant_constants projection s' (S i) (Tuple_set tup i (Interpreter_eval c))
      else plant_constants projection s' (S i) tup
  end.

(** The inner loop of the copy program: one store per output position with
    the identifier of [entry]. *)
Fixpoint emit_stores (s : Schema) (j : nat) (entry : Entry) : result (list Instr) :=
  match s with
  | [] => Ok []
  | e :: s' =>
      if bool_decide (e_id e = e_id entry) then
        M_insist (bool_decide (e_type e = e_type entry)) "e.type == entry.type";;
        rest ← emit_stores s' (S j) entry;
        Ok (St_Tup 1 j (e_type e) :: rest)
      else emit_stores s' (S j) entry
  end.

(** The copy program: for each payload entry a load, its stores and a pop. *)
Fixpoint emit_copy (s payload : Schema) (i : nat) : result (list Instr) :=
  match payload with
  | [] => Ok []
  | entry :: payload' =>
      stores ← emit_stores s 0 entry;
      rest ← emit_copy s payload' (S i);
      Ok ((if is_none (e_type entry) then [] else [Ld_Tup 0 i])
          ++ stores
          ++ (if is_none (e_type entry) then [] else [Pop])
          ++ rest)
  end.

(** The row loop: [body] runs once per row on the tuples the previous row
    left behind. *)
Fixpoint for_rows (n : nat) (i : nat) (args : list Tuple)
    (body : nat -> list Tuple -> result (list Tuple * list event))
    : result (list event) :=
  match n with
  | O => Ok []
  | S n' =>
      '(args', evs) ← body i args;
      rest ← for_rows n' (S i) args' body;
      Ok (evs ++ rest)
  end.

Section Reader.
Context {RT : HostRuntime}.

(** The loop composing the line of a constants-only result. *)
Fixpoint constant_line (projections : Projections) (s : Schema) (i : nat)
    (tup : string) : result string :=
  match s with
  | [] => Ok tup
  | e :: s' =>
      let tup := if (i =? 0)%nat then tup else (tup ++ ",")%string in
      M_insist (is_constant (e_id e)) "e.id.is_constant()";;
      p ← projection_at projections i;
      c ← as_Constant p.1;
      text ← print_constant c (e_type e);
      constant_line projections s' (S i) (tup ++ text)%string
  end.

(** [if (old_idx != -1UL) printer.emit_Pop()], with [None] for [-1UL]. *)
Definition pop_loaded (old_idx : option nat) : list Instr :=
  match old_idx with Some _ => [Pop] | None => [] end.

(** The loop emitting the print program. *)
Fixpoint emit_printer (projection : option Projections) (payload : Schema)
    (ostream_index : nat) (s : Schema) (i : nat)
    (constant_emitted : bool) (old_idx : option nat) : result (list Instr) :=
  match s with
  | [] => Ok (pop_loaded old_idx)
  | e :: s' =>
      let sep := if (i =? 0)%nat then [] else [Putc ostream_index ","] in
      '(load, constant_emitted, old_idx) ←
        (if is_none (e_type e) then Ok ([], constant_emitted, old_idx)
         else if is_constant (e_id e) then
           c ← constant_at projection i;
           Ok ([Ld_Ctx (Interpreter_eval c)], true, old_idx)
         else
           '(idx, _) ← Schema_at payload (e_id e);
           if bool_decide (Some idx = old_idx) then Ok ([], constant_emitted, old_idx)
           else Ok (pop_loaded old_idx ++ [Ld_Tup 0 idx],
                    constant_emitted, Some idx));
      let print := emit_Print ostream_index (e_type e) in
      let pop := if is_none (e_type e) || constant_emitted then [Pop] else [] in
      let constant_emitted :=
        if is_none (e_type e) || constant_emitted then false else constant_emitted in
      rest ← emit_printer projection payload ostream_index s' (S i)
               constant_emitted old_idx;
      Ok (sep ++ load ++ print ++ pop ++ rest)
  end.

(** The host callback [read_result_set(offset, count)]. *)
Definition read_result_set (W : World) (info : FunctionCallbackInfo)
    : result (list event) :=
  module_ID ← Module_ID W;
  context ← Get_Wasm_Context_By_ID W module_ID;
  let root_op := get_matched_root (plan context) in
  let schema := schema root_op in
  let deduplicated_schema := deduplicate schema in
  let deduplicated_schema_without_constants := drop_constants deduplicated_schema in
  (* Get number of result tuples. *)
  num_tuples ← arg_Uint32 info 1;
  if (num_tuples =? 0)%N then Ok [] else
  (* Compute address of result set. *)
  M_insist (length info =? 2)%nat "info.Length() == 2";;
  result_set_offset ← arg_Uint32 info 0;
  M_insist (eqb (result_set_offset =? 0)%N
                (num_entries deduplicated_schema_without_constants =? 0)%nat)
    "result set offset equals 0 (i.e. nullptr) iff schema contains only constants";;
  projection ← find_projection root_op;
  if (num_entries deduplicated_schema_without_constants =? 0)%nat then
    (* Schema contains only constants. *)
    match projection with
    | None => Fatal "projection must be found"
    | Some projections =>
        match kind root_op with
        | CallbackOperator callback =>
            tup ← constant_tuple projections schema 0 (Tuple_new schema);
            for_rows (N.to_nat num_tuples) 0 []
              (fun _ args => Ok (args, [EvCallback callback schema tup]))
        | PrintOperator out =>
            tup ← constant_line projections schema 0 "";
            for_rows (N.to_nat num_tuples) 0 []
              (fun _ args => Ok (args, [EvWrite out tup; EvWrite out (String "010" "")]))
        | _ => Ok []
        end
    end
  else
    (* Create data layout (without constants and duplicates). *)
    match result_set_factory context with
    | None => Fatal "result set factory must be set"
    | Some factory =>
        let layout := factory deduplicated_schema_without_constants in
        (* Extract results. *)
        match kind root_op with
        | CallbackOperator callback =>
            let loader := compile_load deduplicated_schema_without_constants
                            (vm context) result_set_offset layout in
            if (num_entries schema =? num_entries deduplicated_schema)%nat then
              (* No deduplication was performed. *)
              M_insist (bool_decide (schema = deduplicated_schema))
                "schema == deduplicated_schema";;
              tup ← plant_constants projection schema 0 (Tuple_new schema);
              for_rows (N.to_nat num_tuples) 0 [tup]
                (fun i args =>
                   '(args', evs) ← invoke loader i args;
                   match args' with
                   | tup :: _ =>
                       Ok ([Tuple_clear tup], evs ++ [EvCallback callback schema tup])
                   | [] => Fatal "no such tuple"
                   end)
            else
              (* Deduplication was performed. *)
              let tup_dedupl := Tuple_new deduplicated_schema_without_constants in
              tup_dupl ← plant_constants projection schema 0 (Tuple_new schema);
              code ← emit_copy schema deduplicated_schema_without_constants 0;
              let loader := emit loader code in
              for_rows (N.to_nat num_tuples) 0 [tup_dedupl; tup_dupl]
                (fun i args =>
                   '(args', evs) ← invoke loader i args;
                   match args' !! 1%nat with
                   | Some tup_dupl => Ok (args', evs ++ [EvCallback callback schema tup_dupl])
                   | None => Fatal "no such tuple"
                   end)
        | PrintOperator out =>
            let tup := Tuple_new deduplicated_schema_without_constants in
            let printer := compile_load deduplicated_schema_without_constants
                             (vm context) result_set_offset layout in
            let '(ostream_index, printer) := add printer out in
            code ← emit_printer projection deduplicated_schema_without_constants
                     ostream_index schema 0 false None;
            let printer := emit printer code in
            for_rows (N.to_nat num_tuples) 0 [tup]
              (fun i args =>
                 '(args', evs) ← invoke printer i args;
                 Ok (args', evs ++ [EvWrite out (String "010" "")]))
        | _ => Ok []
        end
    end.

End Reader.

(** ** Index callbacks *)

(** Narrowing an integer to a signed integer of [bits] bits. *)
Definition to_signed (bits : Z) (z : Z) : Z :=
  ((z + 2 ^ (bits - 1)) mod 2 ^ bits - 2 ^ (bits - 1))%Z.

Definition key_bits (kt : KeyType) : Z :=
  match kt with
  | K_i1 => 8 | K_i2 => 16 | K_i4 => 32 | _ => 64
  end.

(** The template parameter [V8ValueT] of [index_seek]. *)
Inductive V8ValueT : Set := T_Boolean | T_Int32 | T_BigInt | T_Number | T_String.

(** The NUL-terminated string at an address of the arena; running off the
    arena is a fault. *)
Fixpoint read_cstring_from (fuel : nat) (bytes : N -> ascii) (addr : N) : option string :=
  match fuel with
  | O => None
  | S fuel' =>
      if bool_decide (bytes addr = "000"%char) then Some ""
      else String (bytes addr) <$> read_cstring_from fuel' bytes (addr + 1)
  end.

Definition read_cstring (m : Memory) (addr : N) : result string :=
  match read_cstring_from (N.to_nat (mem_size m - addr)) (mem_byte m) addr with
  | Some s => Ok s
  | None => Fatal "segmentation fault"
  end.

Section Indexes.
Context {RT : HostRuntime}.

(** The comparison [cmp] of an index on its keys. *)
Definition key_less (a b : Key) : bool :=
  match a, b with
  | Key_b x, Key_b y => negb x && y
  | Key_i x, Key_i y => (x <? y)%Z
  | Key_f x, Key_f y => float_less x y
  | Key_d x, Key_d y => double_less x y
  | Key_p x, Key_p y => String.ltb x y
  | _, _ => false
  end.

(** Modelled from the spec: [ArrayIndex::lower_bound], a binary search
    ([std::lower_bound]) over the sorted entries; iterators are positions,
    [begin()] is position 0. *)
Fixpoint lower_bound_loop (fuel : nat) (v : list (Key * N)) (key : Key)
    (first count : nat) : nat :=
  match fuel with
  | O => first
  | S fuel' =>
      if (count =? 0)%nat then first
      else
        let step := (count / 2)%nat in
        let it := (first + step)%nat in
        match v !! it with
        | Some (k, _) =>
            if key_less k key
            then lower_bound_loop fuel' v key (S it) (count - (step + 1))
            else lower_bound_loop fuel' v key first step
        | None => first
        end
  end.

(** Modelled from the spec: [ArrayIndex::upper_bound] ([std::upper_bound]). *)
Fixpoint upper_bound_loop (fuel : nat) (v : list (Key * N)) (key : Key)
    (first count : nat) : nat :=
  match fuel with
  | O => first
  | S fuel' =>
      if (count =? 0)%nat then first
      else
        let step := (count / 2)%nat in
        let it := (first + step)%nat in
        match v !! it with
        | Some (k, _) =>
            if negb (key_less key k)
            then upper_bound_loop fuel' v key (S it) (count - (step + 1))
            else upper_bound_loop fuel' v key first step
        | None => first
        end
  end.

(** Modelled from the spec: the model-based search of a recursive model
    index ends at the first entry whose key is not less than (for the upper
    bound: greater than) the key. *)
Fixpoint partition_point (p : Key -> bool) (v : list (Key * N)) : nat :=
  match v with
  | [] => 0
  | e :: v' => if p e.1 then S (partition_point p v') else 0
  end.

Definition first_not_less (v : list (Key * N)) (key : Key) : nat :=
  partition_point (fun k => key_less k key) v.

Definition first_greater (v : list (Key * N)) (key : Key) : nat :=
  partition_point (fun k => negb (key_less key k)) v.

Definition begin (index : IndexBase) : nat := 0.

Definition lower_bound (index : IndexBase) (key : Key) : nat :=
  let v := ib_entries index in
  match ib_kind index with
  | Array => lower_bound_loop (S (length v)) v key 0 (length v)
  | RecursiveModel => first_not_less v key
  end.

Definition upper_bound (index : IndexBase) (key : Key) : nat :=
  let v := ib_entries index in
  match ib_kind index with
  | Array => upper_bound_loop (S (length v)) v key 0 (length v)
  | RecursiveModel => first_greater v key
  end.

(** [std::distance] on positions. *)
Definition distance (first last : nat) : N := N.of_nat (last - first).

(** [as<const Index>(context.indexes[index_id])] for the class
    [IDXTYPE<KEYTYPE>]. *)
Definition as_Index (idx_kind : IndexKind) (kt : KeyType) (ctx : WasmContext)
    (index_id : N) : result IndexBase :=
  match indexes ctx !! N.to_nat index_id with
  | Some index =>
      if bool_decide (ib_kind index = idx_kind) && bool_decide (ib_key_type index = kt)
      then Ok index else Fatal "as<Index>: bad cast"
  | None => Fatal "indexes: index out of range"
  end.

(** Unpacking [info[1]] into a key of the index's key type. *)
Definition unpack_key (W : World) (kt : KeyType) (T : V8ValueT)
    (info : FunctionCallbackInfo) : result Key :=
  match T, info !! 1%nat with
  | T_BigInt, Some (V8BigInt i) => Ok (Key_i (to_signed (key_bits kt) (to_signed 64 i)))
  | T_String, _ =>
      offset ← arg_Uint32 info 1;
      module_ID ← Module_ID W;
      context ← Get_Wasm_Context_By_ID W module_ID;
      s ← read_cstring (vm context) offset;
      Ok (Key_p s)
  | T_Int32, Some (V8Int32 i) => Ok (Key_i (to_signed (key_bits kt) i))
  | T_Number, Some (V8Number x) =>
      Ok (if bool_decide (kt = K_f) then Key_f (double_to_float x) else Key_d x)
  | T_Boolean, Some (V8Boolean b) => Ok (Key_b b)
  | _, _ => Fatal "info[1]: bad cast"
  end.

(** The host callback template [index_seek<Index, V8ValueT, IsLower>]. *)
Definition index_seek (idx_kind : IndexKind) (kt : KeyType) (T : V8ValueT)
    (IsLower : bool) (W : World) (info : FunctionCallbackInfo) : result N :=
  (* Unpack function parameters *)
  index_id ← match info !! 0%nat with
             | Some (V8BigInt i) => Ok (Z.to_N (i mod 2 ^ 64))
             | _ => Fatal "info[0]: bad cast"
             end;
  key ← unpack_key W kt T info;
  (* Obtain index and cast to correct type. *)
  module_ID ← Module_ID W;
  context ← Get_Wasm_Context_By_ID W module_ID;
  index ← as_Index idx_kind kt context index_id;
  (* Seek index and return offset. *)
  let offset :=
    distance (begin index)
             (if IsLower then lower_bound index key else upper_bound index key) in
  M_insist (offset <? 2 ^ 32)%N "should fit in uint32_t";;
  Ok (offset mod 2 ^ 32)%N.



End Indexes.

(** ** Collecting string literals and tables *)

(** Insertion into an [unordered_set]. *)
Definition emplace {A : Type} `{EqDecision A} (x : A) (set : list A) : list A :=
  if bool_decide (x ∈ set) then set else set ++ [x].

(** The expression visitor of [CollectStringLiterals]. *)
Fixpoint collect_expr (e : Expr) (literals_ : list string) : result (list string) :=
  match e with
  | ErrorExpr => Fatal "no errors at this stage"
  | Designator _ _ => Ok literals_
  | ConstantExpr c =>
      if is_string c then s ← as_p (Interpreter_eval c); Ok (emplace s literals_)
      else Ok literals_
  | FnApplicationExpr _ _ => Ok literals_
  | UnaryExpr _ expr => collect_expr expr literals_
  | BinaryExpr _ lhs rhs =>
      literals_ ← collect_expr lhs literals_; collect_expr rhs literals_
  | QueryExpr _ => Ok literals_
  end.

Fixpoint collect_exprs (es : list Expr) (literals_ : list string) : result (list string) :=
  match es with
  | [] => Ok literals_
  | e :: es' => literals_ ← collect_expr e literals_; collect_exprs es' literals_
  end.

(** The CNF visitor: every predicate of every clause. *)
Definition collect_cnf (cnf : CNF) (literals_ : list string) : result (list string) :=
  collect_exprs (map snd (concat cnf)) literals_.

(** The operator visitor of [CollectStringLiterals]. *)
Fixpoint collect_operator (op : Operator) (literals_ : list string)
    : result (list string) :=
  let 'Op k _ cs := op in
  let recurse := fix recurse (cs : list Operator) (literals_ : list string) :=
    match cs with
    | [] => Ok literals_
    | c :: cs' => literals_ ← collect_operator c literals_; recurse cs' literals_
    end in
  match k with
  | ScanOperator _ => Ok literals_
  | FilterOperator filter | DisjunctiveFilterOperator filter =>
      literals_ ← collect_cnf filter literals_; recurse cs literals_
  | JoinOperator predicate =>
      literals_ ← collect_cnf predicate literals_; recurse cs literals_
  | ProjectionOperator projections =>
      literals_ ← collect_exprs (map fst projections) literals_; recurse cs literals_
  | GroupingOperator group_by =>
      literals_ ← collect_exprs (map fst group_by) literals_; recurse cs literals_
  | _ => recurse cs literals_
  end.

(** [CollectStringLiterals::Collect]; the order of the returned vector is
    that of the set's iteration. *)
Definition CollectStringLiterals {RT : HostRuntime} (plan : Operator)
    : result (list string) :=
  literals_ ← collect_operator plan [];
  Ok (iteration_order string literals_).

(** [CollectTables::Collect]: the tables of the scans, one per name. *)
Fixpoint collect_tables (op : Operator) (tables_ : list Table) : list Table :=
  let 'Op k _ cs := op in
  let recurse := fix recurse (cs : list Operator) (tables_ : list Table) :=
    match cs with
    | [] => tables_
    | c :: cs' => recurse cs' (collect_tables c tables_)
    end in
  match k with
  | ScanOperator table =>
      if bool_decide (t_name table ∈ map t_name tables_) then tables_
      else tables_ ++ [table]
  | _ => recurse cs tables_
  end.

Definition CollectTables {RT : HostRuntime} (plan : Operator) : list Table :=
  iteration_order Table (collect_tables plan []).

(** ** Mapping tables and literals into the arena *)

Definition NUL : ascii := "000"%char.

Definition pagesize : N := 4096.

(** Modelled from the spec: [Is_Page_Aligned] and [Ceil_To_Next_Page], page
    granularity of the arena. *)
Definition Is_Page_Aligned (n : N) : bool := (n mod pagesize =? 0)%N.

Definition Ceil_To_Next_Page (n : N) : N := ((n + pagesize - 1) / pagesize * pagesize)%N.

Definition TRAP_GUARD_PAGES : N := 1.

Definition store (m : Memory) (addr : N) (c : ascii) : Memory :=
  {| mem_size := mem_size m;
     mem_byte := fun a => if bool_decide (a = addr) then c else mem_byte m a |}.

(** [mmap(addr, len, ..., MAP_FIXED|MAP_ANON|MAP_PRIVATE, -1, 0)]: a fresh,
    zero-filled mapping of the range. *)
Definition mmap_anon (m : Memory) (addr len : N) : Memory :=
  {| mem_size := mem_size m;
     mem_byte := fun a =>
       if bool_decide (addr ≤ a)%N && bool_decide (a < addr + len)%N then NUL
       else mem_byte m a |}.

Fixpoint store_bytes (m : Memory) (addr : N) (s : string) : Memory :=
  match s with
  | EmptyString => m
  | String c s' => store_bytes (store m addr c) (addr + 1) s'
  end.

(** The [n] bytes at [addr]. *)
Fixpoint load_bytes (m : Memory) (addr : N) (n : nat) : string :=
  match n with
  | O => EmptyString
  | S n' => String (mem_byte m addr) (load_bytes m (addr + 1) n')
  end.

(** [strlen]: the number of characters before the terminating NUL. *)
Fixpoint strlen (s : string) : N :=
  match s with
  | EmptyString => 0
  | String c s' => if bool_decide (c = NUL) then 0 else 1 + strlen s'
  end.

(** [stpcpy(dst, src)]: copies the string with its terminating NUL and
    returns the address of the NUL written. *)
Fixpoint stpcpy (m : Memory) (dst : N) (src : string) : Memory * N :=
  match src with
  | EmptyString => (store m dst NUL, dst)
  | String c src' =>
      if bool_decide (c = NUL) then (store m dst NUL, dst)
      else stpcpy (store m dst c) (dst + 1) src'
  end.

Definition with_memory (ctx : WasmContext) (m : Memory) (h : N) : WasmContext :=
  {| id := id ctx; plan := plan ctx; config := config ctx; vm := m; heap := h;
     indexes := indexes ctx; result_set_factory := result_set_factory ctx |}.

(** Modelled from the spec: [WasmContext::install_guard_page]; with
    [TRAP_GUARD_PAGES] the page after the appended region stays unmapped and
    the heap moves past it. *)
Definition install_guard_page (ctx : WasmContext) : WasmContext :=
  if N.testbit (config ctx) 0 then with_memory ctx (vm ctx) (heap ctx + pagesize)
  else ctx.

(** Modelled from the spec: [WasmContext::map_table], the table's image
    appended at the heap, which is then rounded up to page granularity. *)
Definition map_table (ctx : WasmContext) (table : Table) : WasmContext * N :=
  let off := heap ctx in
  let bytes := N.of_nat (String.length (t_image table)) in
  let m := store_bytes (mmap_anon (vm ctx) off (Ceil_To_Next_Page bytes)) off (t_image table) in
  (install_guard_page (with_memory ctx m (off + Ceil_To_Next_Page bytes)), off).

(** Modelled from the spec: [CodeGenContext::add_literal] records the offset
    of a literal in the literal-to-offset map. *)
Definition add_literal (literals : gmap string N) (literal : string) (ptr : N)
    : gmap string N :=
  <[literal := ptr]> literals.

(** The copy loop of [create_env]: each literal is recorded at the offset of
    [dst] and copied to [dst] with its NUL. *)
Fixpoint copy_literals (literals : list string) (heap start_addr : N)
    (m : Memory) (dst : N) (cg : gmap string N) : Memory * N * gmap string N :=
  match literals with
  | [] => (m, dst, cg)
  | literal :: literals' =>
      let cg := add_literal cg literal (heap + (dst - start_addr)) in
      let '(m, nul) := stpcpy m dst literal in
      copy_literals literals' heap start_addr m (nul + 1) cg
  end.

(** The part of [create_env] that maps a vector of literals into the
    arena. *)
Definition map_literals (literals : list string) (context : WasmContext)
    (cg : gmap string N) : result (WasmContext * gmap string N) :=
  M_insist (Is_Page_Aligned (heap context)) "Is_Page_Aligned(context.heap)";;
  let bytes := fold_left (fun bytes literal => bytes + (strlen literal + 1))%N literals 0%N in
  let aligned_bytes := Ceil_To_Next_Page bytes in
  let '(context, cg) :=
    if (aligned_bytes =? 0)%N then (context, cg)
    else
      let base_addr := heap context in
      let m := mmap_anon (vm context) base_addr aligned_bytes in
      let start_addr := base_addr in
      let '(m, _, cg) := copy_literals literals (heap context) start_addr m start_addr cg in
      (install_guard_page (with_memory context m (heap context + aligned_bytes)), cg) in
  M_insist (Is_Page_Aligned (heap context)) "Is_Page_Aligned(context.heap)";;
  Ok (context, cg).

(** ** The engine driver *)

(** Host code that works on the process-wide state: it leaves a state behind
    and a trace of what it emitted, also when it raises. *)
Definition Host (A : Type) : Type := World -> World * list event * result A.

#[global] Instance Host_ret : MRet Host := fun A a W => (W, [], Ok a).

#[global] Instance Host_bind : MBind Host := fun A B k m W =>
  match m W with
  | (W1, evs1, Ok a) => let '(W2, evs2, r) := k a W1 in (W2, evs1 ++ evs2, r)
  | (W1, evs1, Fatal msg) => (W1, evs1, Fatal msg)
  | (W1, evs1, Raise what) => (W1, evs1, Raise what)
  end.

Definition lift {A : Type} (f : World -> result A) : Host A := fun W => (W, [], f W).

Definition modify (f : World -> World) : Host unit := fun W => (f W, [], Ok tt).

Definition emit_events (evs : list event) : Host unit := fun W => (W, evs, Ok tt).

(** A block whose scoped object is constructed on entry and destroyed on
    every exit, also when an exception unwinds through it. *)
Definition scoped {A : Type} (construct destroy : World -> World) (body : Host A)
    : Host A := fun W =>
  match body (construct W) with
  | (W1, evs, Fatal msg) => (W1, evs, Fatal msg)
  | (W1, evs, r) => (destroy W1, evs, r)
  end.

Definition set_contexts (c : gmap N WasmContext) (W : World) : World :=
  {| contexts := c; the_module := the_module W; next_module_id := next_module_id W;
     the_codegen := the_codegen W; isolate_ := isolate_ W;
     isolate_depth := isolate_depth W; inspector_ := inspector_ W |}.

Definition set_module (M : option Module) (next : N) (W : World) : World :=
  {| contexts := contexts W; the_module := M; next_module_id := next;
     the_codegen := the_codegen W; isolate_ := isolate_ W;
     isolate_depth := isolate_depth W; inspector_ := inspector_ W |}.

Definition set_codegen (cg : option (gmap string N)) (W : World) : World :=
  {| contexts := contexts W; the_module := the_module W;
     next_module_id := next_module_id W; the_codegen := cg; isolate_ := isolate_ W;
     isolate_depth := isolate_depth W; inspector_ := inspector_ W |}.

Definition set_isolate_depth (d : nat) (W : World) : World :=
  {| contexts := contexts W; the_module := the_module W;
     next_module_id := next_module_id W; the_codegen := the_codegen W;
     isolate_ := isolate_ W; isolate_depth := d; inspector_ := inspector_ W |}.

Definition set_inspector (b : bool) (W : World) : World :=
  {| contexts := contexts W; the_module := the_module W;
     next_module_id := next_module_id W; the_codegen := the_codegen W;
     isolate_ := isolate_ W; isolate_depth := isolate_depth W; inspector_ := b |}.

(** Modelled from the spec: [Module::Init] and [Module::Dispose]; the
    singleton is created for a query with the next id and destroyed after
    it. *)
Definition Module_Init : Host unit := fun W =>
  match the_module W with
  | Some _ => (W, [], Fatal "must not have a module yet")
  | None =>
      (set_module (Some {| module_id := next_module_id W; messages := [] |})
         (next_module_id W + 1) W, [], Ok tt)
  end.

Definition Module_Dispose : Host unit := fun W =>
  match the_module W with
  | Some _ => (set_module None (next_module_id W) W, [], Ok tt)
  | None => (W, [], Fatal "must have a module")
  end.

(** Modelled from the spec: [CodeGenContext::Init] and
    [CodeGenContext::Dispose]. *)
Definition CodeGenContext_Init : Host unit := fun W =>
  match the_codegen W with
  | Some _ => (W, [], Fatal "must not have a context yet")
  | None => (set_codegen (Some ∅) W, [], Ok tt)
  end.

Definition CodeGenContext_Dispose : Host unit := fun W =>
  match the_codegen W with
  | Some _ => (set_codegen None W, [], Ok tt)
  | None => (W, [], Fatal "must have a context")
  end.

(** [isolate_->Enter()] and [isolate_->Exit()]. *)
Definition Isolate_Enter (W : World) : World := set_isolate_depth (S (isolate_depth W)) W.
Definition Isolate_Exit (W : World) : World := set_isolate_depth (pred (isolate_depth W)) W.

Definition WASM_MAX_MEMORY : N := 2 ^ 32.

(** Modelled from the spec: [WasmEngine::Create_Wasm_Context_For_ID]; the
    registry gets a fresh context with an empty arena under the id, which must
    not be live. *)
Definition Create_Wasm_Context_For_ID (i : N) (p : MatchBase) (configuration : N)
    : Host N := fun W =>
  match contexts W !! i with
  | Some _ => (W, [], Fatal "WasmContext with that ID already exists")
  | None =>
      let ctx := {| id := i; plan := p; config := configuration;
                    vm := {| mem_size := WASM_MAX_MEMORY; mem_byte := fun _ => NUL |};
                    heap := 0; indexes := []; result_set_factory := None |} in
      (set_contexts (<[i := ctx]> (contexts W)) W, [], Ok i)
  end.

(** Modelled from the spec: [WasmEngine::Dispose_Wasm_Context]; the context
    is removed from the registry. *)
Definition Dispose_Wasm_Context (i : N) : Host unit := fun W =>
  match contexts W !! i with
  | Some _ => (set_contexts (delete i (contexts W)) W, [], Ok tt)
  | None => (W, [], Fatal "There is no context with the given ID to erase")
  end.

(** The numeric entries of the environment object. *)
Abbreviation Env := (gmap string Z).

(** The loop of [create_env] over the collected tables. *)
Fixpoint map_tables (tables : list Table) (context : WasmContext) (env : Env)
    : WasmContext * Env :=
  match tables with
  | [] => (context, env)
  | table :: tables' =>
      let '(context, off) := map_table context table in
      let env := <[(t_name table ++ "_mem")%string := to_signed 32 (Z.of_N off)]> env in
      let env :=
        <[(t_name table ++ "_num_rows")%string := to_signed 32 (Z.of_N (t_num_rows table))]> env in
      map_tables tables' context env
  end.

(** [create_env]: tables and string literals are mapped into the arena of the
    module's context; the callbacks are added to the environment. *)
Definition create_env {RT : HostRuntime} (p : MatchBase) : Host Env := fun W =>
  let r :=
    module_ID ← Module_ID W;
    context ← Get_Wasm_Context_By_ID W module_ID;
    (* Map accessed tables into the Wasm module. *)
    let tables := CollectTables (get_matched_root p) in
    let '(context, env) := map_tables tables context ∅ in
    (* Map all string literals into the Wasm module. *)
    literals ← CollectStringLiterals (get_matched_root p);
    cg ← match the_codegen W with
         | Some cg => Ok cg
         | None => Fatal "must have a context"
         end;
    '(context, cg) ← map_literals literals context cg;
    Ok (set_codegen (Some cg) (set_contexts (<[module_ID := context]> (contexts W)) W), env) in
  match r with
  | Ok (W', env) => (W', [], Ok env)
  | Fatal msg => (W, [], Fatal msg)
  | Raise what => (W, [], Raise what)
  end.

(** [info[i].As<v8::BigInt>()->Uint64Value()] *)
Definition arg_Uint64 (info : FunctionCallbackInfo) (i : nat) : result N :=
  match info !! i with
  | Some (V8BigInt z) => Ok (Z.to_N (z mod 2 ^ 64))
  | _ => Fatal "not a BigInt"
  end.

(** Modelled from the spec: [Module::get_message], the message table indexed
    by id. *)
Definition get_message (M : Module) (idx : N) : result (string * N * option string) :=
  match messages M !! N.to_nat idx with
  | Some m => Ok m
  | None => Fatal "messages: index out of range"
  end.

(** Modelled from the spec: the names of the typed exceptions
    ([m::wasm::exception::names_]). *)
Definition names_ : list string := ["invalid_escape_sequence"; "failed_unittest_check"].

(** The host callback [insist]: the diagnostic goes to [cerr] and the
    process aborts. *)
Definition insist (W : World) (info : FunctionCallbackInfo) : result unit :=
  M_insist (length info =? 1)%nat "info.Length() == 1";;
  idx ← arg_Uint64 info 0;
  M ← Module_Get W;
  '(filename, line, msg) ← get_message M idx;
  Fatal (filename ++ ":" ++ digits line ++ ": Wasm_insist failed."
         ++ match msg with Some msg => "  " ++ msg ++ "." | None => "" end).

(** The host callback [_throw]: raises the typed exception. *)
Definition _throw (W : World) (info : FunctionCallbackInfo) : result unit :=
  M_insist (length info =? 2)%nat "info.Length() == 2";;
  type ← arg_Uint64 info 0;
  idx ← arg_Uint64 info 1;
  M ← Module_Get W;
  '(filename, line, msg) ← get_message M idx;
  name ← match names_ !! N.to_nat type with
         | Some name => Ok name
         | None => Fatal "names_: index out of range"
         end;
  msg ← match msg with
        | Some msg => Ok msg
        | None => Fatal "segmentation fault"
        end;
  Raise (filename ++ ":" ++ digits line ++ ": Exception `" ++ name ++ "` thrown."
         ++ (if bool_decide (msg = "") then "" else "  " ++ msg ++ ".")
         ++ String "010" "").

(** Modelled from the spec: the guest.  The module that [compile] emits comes
    from the code generator, a collaborator; what the host sees of it is the
    message table and the indexes and result-set layout it registers, whether
    it validates and instantiates, the host callbacks its [main] invokes in
    order, and the row count [main] returns. *)
Inductive GuestCall : Set :=
| call_read_result_set (info : FunctionCallbackInfo)
| call_throw (info : FunctionCallbackInfo)
| call_insist (info : FunctionCallbackInfo)
| call_index_seek (idx_kind : IndexKind) (kt : KeyType) (T : V8ValueT) (IsLower : bool)
    (info : FunctionCallbackInfo).

Record Guest : Type := {
  g_messages : list (string * N * option string);
  g_indexes : list IndexBase;
  g_result_set_factory : option DataLayoutFactory;
  g_valid : bool;
  g_instantiates : bool;
  g_calls : list GuestCall;
  g_main : N
}.

(** The options the driver reads. *)
Record Options : Set := { quiet : bool; cdt_port : N }.

(** [std::terminate] on an exception that no handler can be found for. *)
Definition terminate {A : Type} (what : string) : result A := Fatal what.

(** How a call ends that was made from WebAssembly code. *)
Definition below_wasm {A : Type} (r : result A) : result A :=
  match r with
  | Raise what => terminate what
  | r => r
  end.

Section Driver.
Context {RT : HostRuntime}.

(** One host callback invoked by the guest.  The callback runs below the
    frames of the WebAssembly code that called it, and an exception cannot
    unwind through those: an exception that leaves a callback ends the
    process ([std::terminate]). *)
Definition host_call (c : GuestCall) : Host unit := fun W =>
  match c with
  | call_read_result_set info =>
      match read_result_set W info with
      | Ok evs => (W, evs, Ok tt)
      | Fatal msg => (W, [], Fatal msg)
      | Raise what => (W, [], terminate what)
      end
  | call_throw info => (W, [], below_wasm (_throw W info))
  | call_insist info => (W, [], below_wasm (insist W info))
  | call_index_seek idx_kind kt T IsLower info =>
      (W, [], below_wasm (index_seek idx_kind kt T IsLower W info ;; Ok tt))
  end.

Fixpoint host_calls (calls : list GuestCall) : Host unit :=
  match calls with
  | [] => mret tt
  | c :: calls' => host_call c ;; host_calls calls'
  end.

(** [main->Call(...)]: the guest runs, calling back into the host, and
    returns its row count. *)
Definition call_main (G : Guest) : Host N :=
  host_calls (g_calls G) ;;
  emit_events [EvReturn (g_main G)] ;;
  mret (g_main G).

(** What the driver observes of [V8Engine::compile]: the generated code
    fills the message table and registers indexes and the result-set layout
    with the context; in the debug build an invalid module throws. *)
Definition compile (G : Guest) : Host unit := fun W =>
  match the_module W with
  | None => (W, [], Fatal "module not initialised")
  | Some M =>
      match contexts W !! module_id M with
      | None => (W, [], Fatal "unknown Wasm context")
      | Some ctx =>
          let ctx := {| id := id ctx; plan := plan ctx; config := config ctx;
                        vm := vm ctx; heap := heap ctx; indexes := g_indexes G;
                        result_set_factory := g_result_set_factory G |} in
          let W := set_contexts (<[module_id M := ctx]> (contexts W))
                     (set_module (Some {| module_id := module_id M;
                                          messages := g_messages G |})
                                 (next_module_id W) W) in
          if g_valid G then (W, [], Ok tt)
          else (W, [], Raise "invalid module")
      end
  end.

(** [instantiate]: a module that fails to compile or link makes
    [ToLocalChecked] abort. *)
Definition instantiate (G : Guest) : Host unit :=
  lift (fun _ => M_insist (g_instantiates G) "v8::ToLocalChecked: Empty MaybeLocal").

(** What the driver observes of [run_inspector]: the debug script
    instantiates the module and calls [main] itself, with [insist], [print]
    and [throw] bound to functions of the script, so that of the guest's calls
    only [read_result_set] reaches the host; [main] returns to the script,
    which logs the row count to the console. *)
Definition run_inspector (G : Guest) : Host unit :=
  host_calls (List.filter (fun c => match c with
                                    | call_read_result_set _ => true
                                    | _ => false
                                    end) (g_calls G)).

(** [V8Engine::execute].  The [v8::Locker] and the handle and context scopes
    are balanced on every path and leave no trace in the state; the
    [v8::Isolate::Scope] of the block enters the isolate and exits it when the
    block is left. *)
Definition execute (O : Options) (G : Guest) (p : MatchBase) : Host unit :=
  Module_Init ;;
  CodeGenContext_Init ;; (* fresh context *)
  lift (fun W => M_insist (isolate_ W) "must have an isolate") ;;
  modify Isolate_Enter ;;
  returned ← scoped Isolate_Enter Isolate_Exit (
    (* Create the import object for instantiating the WebAssembly module. *)
    let wasm_config :=
      if (cdt_port O <? 1024)%N then N.lor 0 TRAP_GUARD_PAGES else 0%N in
    module_ID ← lift Module_ID;
    wasm_context ← Create_Wasm_Context_For_ID module_ID p wasm_config;
    env ← create_env p;
    (* Map the remaining address space to the output buffer. *)
    lift (fun W => context ← Get_Wasm_Context_By_ID W wasm_context;
                   M_insist (Is_Page_Aligned (heap context))
                     "Is_Page_Aligned(wasm_context.heap)") ;;
    (* Compile the plan and thereby build the Wasm module. *)
    compile G ;;
    (* Create a WebAssembly instance object. *)
    instantiate G ;;
    (* If a debugging port is specified, set up the inspector and start it. *)
    modify (fun W => if (1024 <=? cdt_port O)%N && negb (inspector_ W)
                     then set_inspector true W else W) ;;
    inspector ← lift (fun W => Ok (inspector_ W));
    if (inspector : bool) then
      run_inspector G ;;
      mret true
    else
      (* Invoke the exported function `main` of the module. *)
      num_rows ← call_main G;
      (* Print total number of result tuples. *)
      let root_op := get_matched_root p in
      match kind root_op with
      | PrintOperator out =>
          if negb (quiet O)
          then emit_events [EvWrite out (digits num_rows); EvWrite out (" rows" ++ String "010" "")]
          else mret tt
      | NoOpOperator out =>
          if negb (quiet O)
          then emit_events [EvWrite out (digits num_rows); EvWrite out (" rows" ++ String "010" "")]
          else mret tt
      | _ => mret tt
      end ;;
      Dispose_Wasm_Context wasm_context ;;
      mret false);
  if (returned : bool) then mret tt
  else
    modify Isolate_Exit ;;
    CodeGenContext_Dispose ;;
    Module_Dispose.

End Driver.

(** ** Reference descriptions

    What the properties below are stated against: the payload schema, the
    rows of a constants-only result, rendered dates, the layout of string
    literals and the trailer of the driver. *)

(** The payload schema of a root schema. *)
Definition payload_of (s : Schema) : Schema := drop_constants (deduplicate s).

Definition nonconstant (e : Entry) : Prop := is_constant (e_id e) = false.

#[global] Instance nonconstant_dec e : Decision (nonconstant e).
Proof. unfold nonconstant. apply _. Defined.

(** The diagnostic of the reader's assertion on the offset. *)
Definition offset_assertion : string :=
  "result set offset equals 0 (i.e. nullptr) iff schema contains only constants".

(** The constant the projection gives for output position [i], if its
    expression there is a constant. *)
Definition constant_of (projections : Projections) (i : nat) : option Constant :=
  match projections !! i with
  | Some (ConstantExpr c, _) => Some c
  | _ => None
  end.

(** The template tuple of a constants-only result: NULL-typed entries unset,
    every other entry the value of the projection's constant. *)
Fixpoint slots_from (projections : Projections) (s : Schema) (i : nat) : Tuple :=
  match s with
  | [] => []
  | e :: s' =>
      (if is_none (e_type e) then None else Interpreter_eval <$> constant_of projections i)
      :: slots_from projections s' (S i)
  end.

Definition template_tuple (projections : Projections) (s : Schema) : Tuple :=
  slots_from projections s 0.

(** The text of a field, empty where it cannot be printed. *)
Definition text_of (r : result string) : string :=
  match r with Ok t => t | _ => "" end.

Section Templates.
Context {RT : HostRuntime}.

Definition constant_field (projections : Projections) (i : nat) (e : Entry) : result string :=
  match constant_of projections i with
  | Some c => print_constant c (e_type e)
  | None => Fatal "as<ast::Constant>: bad cast"
  end.

Fixpoint fields_from (projections : Projections) (s : Schema) (i : nat) : list string :=
  match s with
  | [] => []
  | e :: s' => text_of (constant_field projections i e) :: fields_from projections s' (S i)
  end.

(** The template line of a constants-only result. *)
Definition template_line (projections : Projections) (s : Schema) : string :=
  String.concat "," (fields_from projections s 0).

(** What one row of a constants-only result emits, by kind of the root. *)
Definition constant_row (k : OperatorKind) (s : Schema) (projections : Projections)
    : list event :=
  match k with
  | CallbackOperator callback => [EvCallback callback s (template_tuple projections s)]
  | PrintOperator out =>
      [EvWrite out (template_line projections s); EvWrite out (String "010" "")]
  | _ => []
  end.

End Templates.

(** A number in decimal, zero-padded to a width. *)
Definition zero_padded (w : nat) (n : N) : string :=
  fill_string "0" (w - String.length (digits n)) ++ digits n.

(** The year of a rendered date. *)
Definition year_field (year : Z) : string :=
  if (0 <? year)%Z then zero_padded 4 (Z.to_N year)
  else if (year <? 0)%Z then "-" ++ zero_padded 4 (Z.to_N (- year))
  else zero_padded 5 0.

(** A literal as a C string: no NUL before its end. *)
Fixpoint no_nul (s : string) : Prop :=
  match s with
  | EmptyString => True
  | String c s' => c ≠ NUL ∧ no_nul s'
  end.

(** The literals of a vector laid out back to back, each with its NUL. *)
Fixpoint terminated (literals : list string) : string :=
  match literals with
  | [] => EmptyString
  | s :: literals' => (s ++ String NUL (terminated literals'))%string
  end.

Definition terminated_length (literals : list string) : N :=
  N.of_nat (String.length (terminated literals)).

(** The offset of each literal of a vector laid out from [base]. *)
Fixpoint offsets_from (base : N) (literals : list string) : list (string * N) :=
  match literals with
  | [] => []
  | s :: literals' =>
      (s, base) :: offsets_from (base + N.of_nat (String.length s) + 1) literals'
  end.

Definition keeps_NoDup (f : list string -> result (list string)) : Prop :=
  forall acc acc', f acc = Ok acc' -> NoDup acc -> NoDup acc'.

(** What the driver writes after [main] has returned [num_rows]. *)
Definition trailer (O : Options) (root_op : Operator) (num_rows : N) : list event :=
  match kind root_op with
  | PrintOperator out | NoOpOperator out =>
      if quiet O then []
      else [EvWrite out (digits num_rows); EvWrite out (" rows" ++ String "010" "")]
  | _ => []
  end.

(** ** Example queries

    A runtime for evaluating examples (they exercise no floating point), a
    table [t] with the single row [(7)], and plans over it. *)

Definition reference_runtime : HostRuntime :=
  {| out_float := fun _ _ => ""; out_double := fun _ _ => "";
     put_tm_gmtime := fun _ => ""; double_to_float := fun x => x;
     float_less := Z.ltb; double_less := Z.ltb;
     iteration_order := fun _ l => reverse l;
     iteration_order_perm := fun _ l => reverse_Permutation l |}.

Definition id_column : Entry := mkEntry (mkId (Some "t") "id" false) (Numeric N_Int 32).

Definition scan_t : Operator :=
  Op (ScanOperator {| t_name := "t"; t_num_rows := 1; t_image := "7" |}) [id_column] [].

(** [SELECT id, id FROM t] *)
Definition select_id_id : Operator :=
  Op (ProjectionOperator [(Designator "t" "id", None); (Designator "t" "id", None)])
     [id_column; id_column] [scan_t].

Definition print_id_id : MatchBase :=
  {| get_matched_root := Op (PrintOperator cout) [id_column; id_column] [select_id_id] |}.

Definition callback_id_id : MatchBase :=
  {| get_matched_root := Op (CallbackOperator 0) [id_column; id_column] [select_id_id] |}.

Definition noop_id_id : MatchBase :=
  {| get_matched_root := Op (NoOpOperator cout) [id_column; id_column] [select_id_id] |}.

(** A result set holding the row [(7)]. *)
Definition one_row_layout : DataLayoutFactory :=
  fun _ => {| decode_row := fun _ _ _ => [Some (Vi 7)] |}.

(** An array index over the [i32] keys 1, 3, 3, 5. *)
Definition example_index : IndexBase :=
  {| ib_kind := Array; ib_key_type := K_i4;
     ib_entries := [(Key_i 1, 0%N); (Key_i 3, 1%N); (Key_i 3, 2%N); (Key_i 5, 3%N)] |}.

Definition example_module : Module := {| module_id := 0; messages := [] |}.

Definition example_context (p : MatchBase) : WasmContext :=
  {| id := 0; plan := p; config := 0;
     vm := {| mem_size := WASM_MAX_MEMORY; mem_byte := fun _ => NUL |}; heap := 0;
     indexes := [example_index]; result_set_factory := Some one_row_layout |}.

(** The state during a query on plan [p], as a callback finds it. *)
Definition example_world (p : MatchBase) : World :=
  {| contexts := {[ 0%N := example_context p ]};
     the_module := Some example_module;
     next_module_id := 1; the_codegen := Some ∅; isolate_ := true;
     isolate_depth := 2; inspector_ := false |}.

(** The state between queries. *)
Definition idle_world : World :=
  {| contexts := ∅; the_module := None; next_module_id := 0; the_codegen := None;
     isolate_ := true; isolate_depth := 0; inspector_ := false |}.

Definition guest_of (calls : list GuestCall) (num_rows : N) : Guest :=
  {| g_messages := [("query.sql", 1%N, Some "check failed")]; g_indexes := [];
     g_result_set_factory := Some one_row_layout; g_valid := true;
     g_instantiates := true; g_calls := calls; g_main := num_rows |}.

Definition one_row_guest : Guest :=
  guest_of [call_read_result_set [V8Uint32 8192; V8Uint32 1]] 1.

Definition throwing_guest : Guest := guest_of [call_throw [V8BigInt 1; V8BigInt 0]] 0.

(** A guest whose module does not validate. *)
Definition invalid_guest : Guest :=
  {| g_messages := []; g_indexes := []; g_result_set_factory := Some one_row_layout;
     g_valid := false; g_instantiates := true; g_calls := []; g_main := 0 |}.

Definition default_options : Options := {| quiet := false; cdt_port := 0 |}.

Definition debug_options : Options := {| quiet := false; cdt_port := 9229 |}.

(** [SELECT 1, 'x', NULL FROM t] *)
Definition constant_schema : Schema :=
  [mkEntry (mkId None "$const0" true) (Numeric N_Int 32);
   mkEntry (mkId None "$const1" true) CharacterSequence;
   mkEntry (mkId None "$const2" true) NoneType].

Definition select_constants : Operator :=
  Op (ProjectionOperator [(ConstantExpr (CInt 1), None); (ConstantExpr (CString "x"), None);
                          (ConstantExpr CNull, None)])
     constant_schema [scan_t].

Definition print_constants : MatchBase :=
  {| get_matched_root := Op (PrintOperator cout) constant_schema [select_constants] |}.

(** A plan with string literals in a filter. *)
Definition literal_plan : MatchBase :=
  {| get_matched_root :=
       Op (PrintOperator cout) [id_column]
         [Op (FilterOperator
                [[(false, BinaryExpr "=" (Designator "t" "name") (ConstantExpr (CString "abc")))];
                 [(false, BinaryExpr "<>" (Designator "t" "name") (ConstantExpr (CString "xy")));
                  (true, BinaryExpr "=" (Designator "t" "name") (ConstantExpr (CString "abc")))]])
             [id_column] [scan_t]] |}.

(** ** Reference description of the copy program *)


(** The row with number [r] as the loader leaves it in the payload-shaped
    tuple. *)
Definition loaded_row (layout : DataLayout) (memory : Memory) (offset : N)
    (width : nat) (r : nat) : Tuple :=
  (fun i => default None (decode_row layout memory offset r !! i)) <$> seq 0 width.











Section Printed.
Context {RT : HostRuntime}.







End Printed.

(** Runs of the driver on the example queries: a completed query with a
    print sink and with a no-op sink, a query whose guest throws, a query
    whose module [compile] rejects, and queries under the inspector. *)
Definition completed_run : World * list event * result unit :=
  @execute reference_runtime default_options one_row_guest print_id_id idle_world.

Definition noop_run : World * list event * result unit :=
  @execute reference_runtime default_options one_row_guest noop_id_id idle_world.

Definition failed_run : World * list event * result unit :=
  @execute reference_runtime default_options throwing_guest print_id_id idle_world.

Definition invalid_run : World * list event * result unit :=
  @execute reference_runtime default_options invalid_guest print_id_id idle_world.

Definition debugged_run : World * list event * result unit :=
  @execute reference_runtime debug_options one_row_guest print_id_id idle_world.

Definition debugged_noop_run : World * list event * result unit :=
  @execute reference_runtime debug_options one_row_guest noop_id_id idle_world.

(** The body of the loop of [Schema::deduplicate]. *)
Definition dedup_step (res : list Entry) (e : Entry) : list Entry :=
  if has res (e_id e) then res else res ++ [e].

(** ** Further definitions

    What the properties beyond the reader, the index callbacks and the
    driver are stated with, and the command-line parser
    (util/ArgParser.cpp) together with the options the backend registers. *)

(** The one instruction that reads the result set. *)
Definition is_load (op : Instr) : bool :=
  match op with Load_Row => true | _ => false end.

(** What a machine writes: only to streams of its context. *)
Definition machine_writes (streams : list ostream) (evs : list event) : Prop :=
  Forall (fun ev => ∃ os text, ev = EvWrite os text ∧ os ∈ streams) evs.

(** The events of one row of a result: the read of the row, where the
    result has a payload, followed by what the sink receives. *)
Definition row_shape (k : OperatorKind) (s : Schema) (offset : N) (has_payload : bool)
    (r : nat) (row : list event) : Prop :=
  ∃ body,
    row = (if has_payload then [EvRead offset r] else []) ++ body
    ∧ match k with
      | CallbackOperator callback => ∃ t, body = [EvCallback callback s t] ∧ length t = length s
      | PrintOperator out =>
          ∃ texts fields,
            body = (EvWrite out <$> texts) ++ [EvWrite out (String "010" "")]
            ∧ length fields = length s
            ∧ String.concat "" texts = String.concat "," fields
      | _ => False
      end.

(** What an instruction writes when it runs: its character ([Putc]), the
    text of a value ([Print]), or nothing. *)
Definition written_by (op : Instr) : list (option ascii) :=
  match op with
  | Putc _ c => [Some c]
  | Print _ _ => [None]
  | _ => []
  end.

(** A text that an instruction may have written. *)
Definition fits (w : option ascii) (text : string) : Prop :=
  match w with
  | Some c => text = String c ""
  | None => True
  end.

(** What the print program writes for the columns from [i] on: a field, or
    for any column but the first a comma and a field. *)
Definition column_writes (i : nat) : list (option ascii) :=
  (if (i =? 0)%nat then [] else [Some ","%char]) ++ [None].

(** Fields from column [i] on, each but that of column 0 preceded by a
    comma. *)
Fixpoint separated (i : nat) (fields : list string) : string :=
  match fields with
  | [] => ""
  | field :: fields' =>
      ((if (i =? 0)%nat then "" else ",") ++ field ++ separated (S i) fields')%string
  end.


(** The roots that receive rows. *)
Definition is_sink (k : OperatorKind) : bool :=
  match k with CallbackOperator _ | PrintOperator _ => true | _ => false end.

(** Whether an operator is a projection. *)
Definition is_projection (op : Operator) : bool :=
  match kind op with ProjectionOperator _ => true | _ => false end.

(** [way P op op']: [op'] is reached from [op] by descending through only
    children, and every operator passed on the way, [op'] excluded, satisfies
    [P]. *)
Inductive way : (Operator → Prop) → Operator → Operator → Prop :=
| way_here (P : Operator → Prop) (op : Operator) : way P op op
| way_child (P : Operator → Prop) (k : OperatorKind) (s : Schema) (c op' : Operator) :
    P (Op k s [c]) → way P c op' → way P (Op k s [c]) op'.

(** A [uint32_t] in the arena: four bytes, least significant first (the
    linear memory of WebAssembly is little-endian). *)
Definition store_u32 (m : Memory) (addr v : N) : Memory :=
  store (store (store (store m addr (ascii_of_N (v mod 256)))
                 (addr + 1) (ascii_of_N (v / 256 mod 256)))
          (addr + 2) (ascii_of_N (v / 65536 mod 256)))
    (addr + 3) (ascii_of_N (v / 16777216 mod 256)).

(** Reading the four bytes back. *)
Definition load_u32 (m : Memory) (addr : N) : N :=
  (N_of_ascii (mem_byte m addr)
   + 256 * N_of_ascii (mem_byte m (addr + 1))
   + 65536 * N_of_ascii (mem_byte m (addr + 2))
   + 16777216 * N_of_ascii (mem_byte m (addr + 3)))%N.

(** The loop of [index_sequential_scan]: [buffer_address[i] = it->second].
    Dereferencing an iterator past the end of the index, or writing past the
    end of the arena, is a fault. *)
Fixpoint scan_loop (entries : list (Key * N)) (it : nat) (m : Memory)
    (buffer_address i : N) (batch_size : nat) : result Memory :=
  match batch_size with
  | O => Ok m
  | S batch_size' =>
      match entries !! it with
      | Some (_, tuple_id) =>
          let addr := (buffer_address + 4 * i)%N in
          if (addr + 4 <=? mem_size m)%N
          then scan_loop entries (S it) (store_u32 m addr (tuple_id mod 2 ^ 32)%N)
                 buffer_address (i + 1) batch_size'
          else Fatal "segmentation fault"
      | None => Fatal "segmentation fault"
      end
  end.

(** The host callback template [index_sequential_scan<Index>]. *)
Definition index_sequential_scan (idx_kind : IndexKind) (kt : KeyType)
    (W : World) (info : FunctionCallbackInfo) : result World :=
  (* Unpack function parameters *)
  index_id ← arg_Uint64 info 0;
  entry_offset ← arg_Uint32 info 1;
  address_offset ← arg_Uint32 info 2;
  batch_size ← arg_Uint32 info 3;
  (* Compute adress to write results to. *)
  module_ID ← Module_ID W;
  context ← Get_Wasm_Context_By_ID W module_ID;
  let buffer_address := address_offset in
  (* Obtain index and cast to correct type. *)
  index ← as_Index idx_kind kt context index_id;
  (* Scan index and write result tuple ids to buffer *)
  m ← scan_loop (ib_entries index) (begin index + N.to_nat entry_offset) (vm context)
        buffer_address 0 (N.to_nat batch_size);
  Ok (set_contexts (<[module_ID := with_memory context m (heap context)]> (contexts W)) W).

(** The string constants of an expression that sit under unary and binary
    operators only. *)
Fixpoint expr_strings (e : Expr) : list string :=
  match e with
  | ConstantExpr (CString s) => [s]
  | UnaryExpr _ expr => expr_strings expr
  | BinaryExpr _ lhs rhs => expr_strings lhs ++ expr_strings rhs
  | _ => []
  end.

(** The expressions an operator carries that the literal collector visits. *)
Definition visited_exprs (k : OperatorKind) : list Expr :=
  match k with
  | FilterOperator filter | DisjunctiveFilterOperator filter => map snd (concat filter)
  | JoinOperator predicate => map snd (concat predicate)
  | ProjectionOperator projections => map fst projections
  | GroupingOperator group_by => map fst group_by
  | _ => []
  end.

(** The string constants of a plan: those of the visited expressions of its
    consumers. *)
Fixpoint plan_strings (op : Operator) : list string :=
  match op with
  | Op (ScanOperator _) _ _ => []
  | Op k _ cs => flat_map expr_strings (visited_exprs k) ++ flat_map plan_strings cs
  end.

(** The tables of the scans of a plan, in visiting order. *)
Fixpoint scans (op : Operator) : list Table :=
  match op with
  | Op (ScanOperator table) _ _ => [table]
  | Op _ _ cs => flat_map scans cs
  end.

(** A collector that adds exactly the elements of [L] to its set. *)
Definition collects (f : list string → result (list string)) (L : list string) : Prop :=
  ∀ acc acc', f acc = Ok acc' → ∀ s, s ∈ acc' ↔ s ∈ acc ∨ s ∈ L.

(** A table collector that adds the tables of [L], one per name, first
    come first kept. *)
Definition collects_tables (f : list Table → list Table) (L : list Table) : Prop :=
  ∀ acc,
    (NoDup (t_name <$> acc) → NoDup (t_name <$> f acc))
    ∧ (∀ t, t ∈ f acc → t ∈ acc ∨ t ∈ L)
    ∧ (∀ t, t ∈ acc ∨ t ∈ L → t_name t ∈ t_name <$> f acc)
    ∧ (∀ t, t ∈ acc → t ∈ f acc).

(** The last character of a string. *)
Fixpoint last_char (s : string) : option ascii :=
  match s with
  | EmptyString => None
  | String c EmptyString => Some c
  | String _ s' => last_char s'
  end.

(** The fields of a context that mapping memory leaves alone. *)
Definition same_query (ctx ctx' : WasmContext) : Prop :=
  id ctx' = id ctx ∧ plan ctx' = plan ctx ∧ config ctx' = config ctx
  ∧ indexes ctx' = indexes ctx ∧ result_set_factory ctx' = result_set_factory ctx.

(** The options of the backend (namespace [options]). *)
Module options.

Record t : Set := {
  wasm_optimization_level : Z;
  wasm_adaptive : bool;
  wasm_compilation_cache : bool;
  wasm_dump : bool;
  asm_dump : bool;
  cdt_port : N
}.

(** The initial values. *)
Definition initial : t :=
  {| wasm_optimization_level := 0; wasm_adaptive := false; wasm_compilation_cache := true;
     wasm_dump := false; asm_dump := false; cdt_port := 0 |}.

End options.

(** The flags [V8Engine::initialize] composes and hands to
    [v8::V8::SetFlagsFromString]. *)
Definition initialize_flags (o : options.t) : string :=
  "--stack_size 1000000 "
  ++ (if options.wasm_adaptive o then
        "--opt " ++ "--liftoff " ++ "--wasm-tier-up " ++ "--wasm-dynamic-tiering "
        ++ "--wasm-lazy-compilation "
      else "--no-liftoff " ++ "--no-wasm-lazy-compilation ")
  ++ (if negb (options.wasm_compilation_cache o) then
        "--no-compilation-cache " ++ "--no-wasm-native-module-cache-enabled "
      else "")
  ++ (if options.asm_dump o then "--code-comments " ++ "--print-code " else "")
  ++ (if (1024 <=? options.cdt_port o)%N then
        "--wasm-bounds-checks " ++ "--wasm-stack-checks " ++ "--log " ++ "--log-all "
        ++ "--expose-wasm " ++ "--trace-wasm " ++ "--trace-wasm-instances " ++ "--prof "
      else
        "--no-wasm-bounds-checks " ++ "--no-wasm-stack-checks "
        ++ "--wasm-simd-ssse3-codegen ").

(** Whether a flag occurs in a flag string. *)
Definition mentions (flag flags : string) : bool :=
  match String.index 0 flag flags with Some _ => true | None => false end.

(** ** Command-line arguments (util/ArgParser.cpp) *)

(** [sv.find(c, pos)]: the position of the first [c] at or after [pos];
    [None] stands for [npos]. *)
Fixpoint sv_find (c : ascii) (sv : string) (pos : nat) : option nat :=
  match sv with
  | EmptyString => None
  | String x sv' =>
      match pos with
      | O => if bool_decide (x = c) then Some O else S <$> sv_find c sv' O
      | S pos' => S <$> sv_find c sv' pos'
      end
  end.

(** [sv.substr(pos, end - pos)]; with [end = npos] the count reaches past the
    end of the view and is clipped there. *)
Definition sv_substr (sv : string) (pos : nat) (end_ : option nat) : string :=
  match end_ with
  | Some e => String.substring pos (e - pos) sv
  | None => String.substring pos (String.length sv) sv
  end.

(** The loop of [OptionImpl<std::vector<std::string_view>>::parse].  Every
    round moves [begin] past one more comma, so one round more than the view
    has characters is never needed. *)
Fixpoint split_loop (fuel : nat) (sv : string) (begin : nat) (args : list string)
    : list string :=
  match fuel with
  | O => args
  | S fuel' =>
      let end_ := sv_find "," sv begin in
      let args := args ++ [sv_substr sv begin end_] in
      match end_ with
      | None => args
      | Some e => split_loop fuel' sv (e + 1) args (* skip comma ',' *)
      end
  end.

(** The vector a list option hands to its callback. *)
Definition split_list (sv : string) : list string :=
  if bool_decide (sv = "") then [] else split_loop (S (String.length sv)) sv 0 [].

Fixpoint string_drop (n : nat) (s : string) : string :=
  match n, s with
  | O, _ => s
  | S n', String _ s' => string_drop n' s'
  | S _, EmptyString => EmptyString
  end.

Fixpoint has_char (c : ascii) (s : string) : bool :=
  match s with
  | EmptyString => false
  | String x s' => bool_decide (x = c) || has_char c s'
  end.

Fixpoint count_char (c : ascii) (s : string) : nat :=
  match s with
  | EmptyString => 0
  | String x s' => (if bool_decide (x = c) then 1 else 0) + count_char c s'
  end.

(** What a conversion of [<string>] ([std::stoi] and the like) comes to: the
    value, or one of the two exceptions. *)
Inductive conversion (A : Type) : Type :=
| converted (a : A)
| invalid_argument
| out_of_range.
Arguments converted {A} a.
Arguments invalid_argument {A}.
Arguments out_of_range {A}.

(** The conversions of the C++ library that [help_parse] calls and that are
    not reproduced here; floating-point values are bit patterns. *)
Class StdString : Type := {
  stoi : string → conversion Z;
  stol : string → conversion Z;
  stoll : string → conversion Z;
  stoul : string → conversion Z;
  stoull : string → conversion Z;
  stof : string → conversion Z;
  stod : string → conversion Z;
  stold : string → conversion Z
}.

Module ArgParser.

Inductive integral : Set :=
| t_int | t_long | t_long_long | t_unsigned | t_unsigned_long | t_unsigned_long_long.

Inductive floating_point : Set := t_float | t_double | t_long_double.

(** [std::numeric_limits<unsigned>::max()]. *)
Definition UINT_MAX : Z := 2 ^ 32 - 1.

Definition EXIT_FAILURE : Z := 1.

(** How a call ends: it returns, or [std::exit] ends the process with a
    status, the lines of [std::cerr] being what they are by then. *)
Inductive run (A : Type) : Type :=
| Returns (a : A)
| Exits (status : Z) (cerr : list string).
Arguments Returns {A} a.
Arguments Exits {A} status cerr.

Section Parser.
Context {SS : StdString}.
(** What the callbacks of the options act on. *)
Context {G : Type}.

(** [OptionImpl<T>], by the type of the value. *)
Inductive OptionImpl : Type :=
| Option_bool (callback : bool → G → G)
| Option_integral (T : integral) (callback : Z → G → G)
| Option_floating_point (T : floating_point) (callback : Z → G → G)
| Option_string (callback : string → G → G)
| Option_list (callback : list string → G → G).

(** The parser ([key_map_], [args_]) together with the lines written to
    [std::cerr] and what the callbacks act on. *)
Record State : Type := {
  key_map_ : gmap string OptionImpl;
  args_ : list string;
  cerr : list string;
  globals : G
}.

Definition call (f : G → G) (st : State) : State :=
  {| key_map_ := key_map_ st; args_ := args_ st; cerr := cerr st;
     globals := f (globals st) |}.

Definition emplace_back (arg : string) (st : State) : State :=
  {| key_map_ := key_map_ st; args_ := args_ st ++ [arg]; cerr := cerr st;
     globals := globals st |}.

Definition warn (line : string) (st : State) : State :=
  {| key_map_ := key_map_ st; args_ := args_ st; cerr := cerr st ++ [line];
     globals := globals st |}.

Definition exit (line : string) (st : State) : run State :=
  Exits EXIT_FAILURE (cerr st ++ [line]).

(** The [try] block of [help_parse] for integral types. *)
Definition convert_integral (T : integral) (arg : string) : conversion Z :=
  match T with
  | t_int => stoi arg
  | t_long => stol arg
  | t_long_long => stoll arg
  | t_unsigned =>
      match stoul arg with
      | converted v => if (UINT_MAX <? v)%Z then out_of_range else converted v
      | e => e
      end
  | t_unsigned_long => stoul arg
  | t_unsigned_long_long => stoull arg
  end.

Definition convert_floating_point (T : floating_point) (arg : string) : conversion Z :=
  match T with
  | t_float => stof arg
  | t_double => stod arg
  | t_long_double => stold arg
  end.

(** [help_parse] past [check_next_arg]: [c] is what the conversion in the
    [try] block comes to, [number] the kind of number the diagnostic names. *)
Definition help_parse (number : string) (c : conversion Z) (callback : Z → G → G)
    (st : State) : run State :=
  match c with
  | converted i => Returns (call (callback i) st)
  | invalid_argument => exit ("not a valid " ++ number) st
  | out_of_range => exit "value out of range" st
  end.

(** [OptionImpl<T>::parse] past [check_next_arg], [arg] being the argument
    that follows the option (a Boolean option looks at none). *)
Definition parse (opt : OptionImpl) (arg : string) (st : State) : run State :=
  match opt with
  | Option_bool callback => Returns (call (callback true) st)
  | Option_integral T callback =>
      help_parse "integer" (convert_integral T arg) callback st
  | Option_floating_point T callback =>
      help_parse "floating-point number" (convert_floating_point T arg) callback st
  | Option_string callback => Returns (call (callback arg) st)
  | Option_list callback => Returns (call (callback (split_list arg)) st)
  end.

(** The loop at the label [positional]. *)
Definition positional (argv : list string) (st : State) : State :=
  foldl (λ st arg, emplace_back arg st) st argv.

(** The first loop of [parse_args], [argv] being the arguments from the
    current one on.  A Boolean option leaves the argument pointer alone; any
    other starts with [check_next_arg], which steps to the next argument and
    exits when there is none. *)
Fixpoint options_loop (argv : list string) (st : State) : run State :=
  match argv with
  | [] => Returns st
  | arg :: argv' =>
      if bool_decide (arg = "--") then Returns (positional argv' st)
      else
        match key_map_ st !! arg with
        | Some (Option_bool callback) => options_loop argv' (call (callback true) st)
        | Some opt =>
            match argv' with
            | [] => exit "missing argument" st
            | value :: argv'' =>
                match parse opt value st with
                | Returns st' => options_loop argv'' st'
                | Exits status e => Exits status e
                end
            end
        | None =>
            if String.prefix "--" arg
            then options_loop argv' (warn ("warning: ignore unknown option " ++ arg) st)
            else options_loop argv' (emplace_back arg st) (* positional argument *)
        end
  end.

(** [ArgParser::parse_args]; the argument count is not looked at, the first
    argument is skipped. *)
Definition parse_args (argv : list string) (st : State) : run State :=
  options_loop (tail argv) st.

End Parser.
Arguments OptionImpl : clear implicits.
Arguments State : clear implicits.

End ArgParser.

(** The options [register_WasmV8] adds to the parser, by their long names
    (none has a short one); assigning an [int] to the [uint16_t] port
    reduces it modulo 2^16. *)
Definition register_WasmV8 : list (string * ArgParser.OptionImpl options.t) :=
  [ ("--wasm-opt", ArgParser.Option_integral ArgParser.t_int (λ i o,
       {| options.wasm_optimization_level := i;
          options.wasm_adaptive := options.wasm_adaptive o;
          options.wasm_compilation_cache := options.wasm_compilation_cache o;
          options.wasm_dump := options.wasm_dump o;
          options.asm_dump := options.asm_dump o;
          options.cdt_port := options.cdt_port o |}));
    ("--wasm-adaptive", ArgParser.Option_bool (λ b o,
       {| options.wasm_optimization_level := options.wasm_optimization_level o;
          options.wasm_adaptive := b;
          options.wasm_compilation_cache := options.wasm_compilation_cache o;
          options.wasm_dump := options.wasm_dump o;
          options.asm_dump := options.asm_dump o;
          options.cdt_port := options.cdt_port o |}));
    ("--no-wasm-compilation-cache", ArgParser.Option_bool (λ _ o,
       {| options.wasm_optimization_level := options.wasm_optimization_level o;
          options.wasm_adaptive := options.wasm_adaptive o;
          options.wasm_compilation_cache := false;
          options.wasm_dump := options.wasm_dump o;
          options.asm_dump := options.asm_dump o;
          options.cdt_port := options.cdt_port o |}));
    ("--wasm-dump", ArgParser.Option_bool (λ b o,
       {| options.wasm_optimization_level := options.wasm_optimization_level o;
          options.wasm_adaptive := options.wasm_adaptive o;
          options.wasm_compilation_cache := options.wasm_compilation_cache o;
          options.wasm_dump := b;
          options.asm_dump := options.asm_dump o;
          options.cdt_port := options.cdt_port o |}));
    ("--asm-dump", ArgParser.Option_bool (λ b o,
       {| options.wasm_optimization_level := options.wasm_optimization_level o;
          options.wasm_adaptive := options.wasm_adaptive o;
          options.wasm_compilation_cache := options.wasm_compilation_cache o;
          options.wasm_dump := options.wasm_dump o;
          options.asm_dump := b;
          options.cdt_port := options.cdt_port o |}));
    ("--CDT", ArgParser.Option_integral ArgParser.t_int (λ i o,
       {| options.wasm_optimization_level := options.wasm_optimization_level o;
          options.wasm_adaptive := options.wasm_adaptive o;
          options.wasm_compilation_cache := options.wasm_compilation_cache o;
          options.wasm_dump := options.wasm_dump o;
          options.asm_dump := options.asm_dump o;
          options.cdt_port := Z.to_N (i mod 2 ^ 16) |})) ].

(** The parser knows the options of a registration under their names (the
    effect of [ArgParser::add], which is not part of the sources at hand). *)
Definition added {G : Type} (options : list (string * ArgParser.OptionImpl G))
    (st : ArgParser.State G) : Prop :=
  ∀ name opt, (name, opt) ∈ options → ArgParser.key_map_ st !! name = Some opt.

(** Whether [parse] starts with [check_next_arg]. *)
Definition takes_argument {G : Type} (opt : ArgParser.OptionImpl G) : bool :=
  match opt with ArgParser.Option_bool _ => false | _ => true end.

(** A decimal, optionally signed, or [std::invalid_argument]. *)
Definition decimal (s : string) : conversion Z :=
  match NilEmpty.int_of_string s with
  | Some d => converted (Z.of_int d)
  | None => invalid_argument
  end.

(** A library for the examples: every conversion reads a decimal. *)
Definition example_strings : StdString :=
  {| stoi := decimal; stol := decimal; stoll := decimal; stoul := decimal;
     stoull := decimal; stof := decimal; stod := decimal; stold := decimal |}.

(** The parser once the backend has registered its options, nothing parsed
    yet. *)
Definition example_parser : ArgParser.State options.t :=
  {| ArgParser.key_map_ := list_to_map register_WasmV8;
     ArgParser.args_ := [];
     ArgParser.cerr := [];
     ArgParser.globals := options.initial |}.

(** [SELECT id FROM t], handed to a callback. *)
Definition callback_id : MatchBase :=
  {| get_matched_root := Op (CallbackOperator 0) [id_column] [scan_t] |}.

(** * Properties *)

(** ** Schemas and the payload schema *)

Lemma has_spec (s : list Entry) (i : Identifier) :
  has s i = true ↔ ∃ e, e ∈ s ∧ e_id e = i.
Proof.
  unfold has. rewrite existsb_exists. split.
  - intros (e & Hin & He). exists e. split; [by apply list_elem_of_In|].
    by apply bool_decide_eq_true in He.
  - intros (e & Hin & He). exists e. split; [by apply list_elem_of_In|].
    by apply bool_decide_eq_true.
Qed.

Lemma has_app (s1 s2 : list Entry) i : has (s1 ++ s2) i = has s1 i || has s2 i.
Proof. unfold has. apply existsb_app. Qed.

Lemma deduplicate_fold (s : list Entry) : deduplicate s = fold_left dedup_step s [].
Proof. reflexivity. Qed.

Lemma dedup_fold_spec (s acc : list Entry) :
  NoDup (e_id <$> acc) →
  let r := fold_left dedup_step s acc in
  NoDup (e_id <$> r)
  ∧ (∀ e, e ∈ r → e ∈ acc ∨ e ∈ s)
  ∧ (∀ e, e ∈ acc ∨ e ∈ s → has r (e_id e) = true).
Proof.
  revert acc. induction s as [|x s IH]; intros acc Hnd; simpl.
  - split; [done|]. split; [by left|].
    intros e [He|He]; [|by apply elem_of_nil in He].
    apply has_spec. eauto.
  - unfold dedup_step at 2 4 6. destruct (has acc (e_id x)) eqn:Hx.
    + destruct (IH acc Hnd) as (H1 & H2 & H3). split; [done|]. split.
      * intros e He. destruct (H2 e He); [by left|right; by right].
      * intros e [He|He]; [apply H3; by left|].
        apply elem_of_cons in He as [->|He]; [|apply H3; by right].
        apply has_spec in Hx as (e' & He' & Hid). rewrite <- Hid. apply H3. by left.
    + assert (Hnd' : NoDup (e_id <$> acc ++ [x])).
      { rewrite fmap_app. apply NoDup_app. split; [done|]. split.
        - intros i Hi Hi'. simpl in Hi'. apply list_elem_of_singleton in Hi'. subst i.
          apply list_elem_of_fmap in Hi as (e' & Hid & He').
          assert (has acc (e_id x) = true) by (apply has_spec; eauto). congruence.
        - simpl. apply NoDup_singleton. }
      destruct (IH _ Hnd') as (H1 & H2 & H3). split; [done|]. split.
      * intros e He. destruct (H2 e He) as [Ha|Ha]; [|right; by right].
        apply elem_of_app in Ha as [Ha|Ha]; [by left|].
        apply list_elem_of_singleton in Ha. subst. right. by left.
      * intros e [He|He].
        -- apply H3. left. apply elem_of_app. by left.
        -- apply elem_of_cons in He as [->|He].
           ++ apply H3. left. apply elem_of_app. right. by apply list_elem_of_singleton.
           ++ apply H3. by right.
Qed.



Lemma deduplicate_has (s : list Entry) e : e ∈ s → has (deduplicate s) (e_id e) = true.
Proof.
  intros He. destruct (dedup_fold_spec s [] NoDup_nil_2) as (_ & _ & H).
  apply H. by right.
Qed.

Lemma drop_constants_fold (s acc : list Entry) :
  fold_left (fun res e => if is_constant (e_id e) then res else res ++ [e]) s acc
  = acc ++ filter nonconstant s.
Proof.
  revert acc. induction s as [|x s IH]; intros acc; simpl.
  - by rewrite app_nil_r.
  - rewrite IH. destruct (is_constant (e_id x)) eqn:Hx.
    + rewrite filter_cons_False; [done|]. unfold nonconstant. congruence.
    + rewrite filter_cons_True by done. by rewrite <- app_assoc.
Qed.

Lemma drop_constants_filter (s : list Entry) : drop_constants s = filter nonconstant s.
Proof. unfold drop_constants. by rewrite drop_constants_fold. Qed.



Lemma payload_covers (s : list Entry) e :
  e ∈ s → is_constant (e_id e) = false →
  ∃ entry, entry ∈ payload_of s ∧ e_id entry = e_id e.
Proof.
  intros He Hc. apply deduplicate_has in He. apply has_spec in He as (e' & He' & Hid).
  exists e'. split; [|done]. unfold payload_of. rewrite drop_constants_filter.
  apply list_elem_of_filter. split; [|done]. unfold nonconstant. by rewrite Hid.
Qed.

Lemma payload_empty_all_constant (s : list Entry) e :
  payload_of s = [] → e ∈ s → is_constant (e_id e) = true.
Proof.
  intros Hp He. destruct (is_constant (e_id e)) eqn:Hc; [done|].
  destruct (payload_covers s e He Hc) as (entry & Hin & _).
  rewrite Hp in Hin. by apply elem_of_nil in Hin.
Qed.

Section ReaderFacts.
Context {RT : HostRuntime}.

(** C9. An invocation of [read_result_set] whose count is 0 returns at once:
    whatever the offset argument is, no row is emitted to any sink, nothing
    is read from the result buffer, and the assertion relating the offset to
    the payload schema is not evaluated. *)
Theorem read_result_set_no_tuples (W : World) (M : Module) (ctx : WasmContext)
    (info : FunctionCallbackInfo) :
  the_module W = Some M →
  contexts W !! module_id M = Some ctx →
  info !! 1%nat = Some (V8Uint32 0) →
  read_result_set W info = Ok [].
Proof.
  intros HM Hctx Hinfo.
  unfold read_result_set, Module_ID, Module_Get, Get_Wasm_Context_By_ID, arg_Uint32.
  rewrite HM. simpl. rewrite Hctx. simpl. rewrite Hinfo. reflexivity.
Qed.

(** C1, as amended. For every invocation [read_result_set(offset, count)]
    with a count other than 0, the reader asserts that the offset is 0 if and
    only if the payload schema (the root schema deduplicated, constants
    dropped) has no entries: where that fails, as for offset 0 with a
    non-empty payload schema, the callback aborts with the diagnostic of the
    assertion. *)
Theorem read_result_set_offset_assertion (W : World) (M : Module) (ctx : WasmContext)
    (offset count : N) :
  the_module W = Some M →
  contexts W !! module_id M = Some ctx →
  count ≠ 0%N →
  ¬ (offset = 0%N ↔ payload_of (schema (get_matched_root (plan ctx))) = []) →
  read_result_set W [V8Uint32 offset; V8Uint32 count] = Fatal offset_assertion.
Proof.
  intros HM Hctx Hcount Hviol.
  unfold read_result_set, Module_ID, Module_Get, Get_Wasm_Context_By_ID, arg_Uint32.
  rewrite HM. simpl. rewrite Hctx. simpl.
  destruct (N.eqb_spec count 0) as [|_]; [done|]. simpl.
  fold (payload_of (schema (get_matched_root (plan ctx)))).
  set (payload := payload_of _) in *.
  destruct (N.eqb_spec offset 0) as [Ho|Ho], payload as [|e p] eqn:Hp; simpl; try reflexivity.
  - exfalso. apply Hviol. done.
  - exfalso. apply Hviol. split; [done|]. intros; discriminate.
Qed.

End ReaderFacts.


Lemma lor_shiftl_add (a b n : Z) :
  (0 ≤ n)%Z → (0 ≤ b < 2 ^ n)%Z → Z.lor (Z.shiftl a n) b = (a * 2 ^ n + b)%Z.
Proof.
  intros Hn Hb.
  assert (Hland : Z.land (Z.shiftl a n) b = 0%Z).
  { apply Z.bits_inj'. intros i Hi. rewrite Z.land_spec, Z.bits_0.
    destruct (Z.lt_ge_cases i n) as [Hlt|Hge].
    - rewrite Z.shiftl_spec_low by done. reflexivity.
    - replace b with (b mod 2 ^ n)%Z by (apply Z.mod_small; lia).
      rewrite Z.mod_pow2_bits_high by lia. apply andb_false_r. }
  rewrite <- Z.lxor_lor by done. rewrite <- Z.add_nocarry_lxor by done.
  by rewrite Z.shiftl_mul_pow2.
Qed.

Lemma pack_date_value (year month day : Z) :
  (0 ≤ month < 16)%Z → (0 ≤ day < 32)%Z →
  pack_date year month day = (year * 512 + month * 32 + day)%Z.
Proof.
  intros Hm Hd. unfold pack_date.
  rewrite <- Z.lor_assoc.
  rewrite (lor_shiftl_add month day 5) by lia.
  rewrite (lor_shiftl_add year _ 9) by lia. lia.
Qed.

Lemma to_int32_small (z : Z) : (- 2 ^ 31 ≤ z < 2 ^ 31)%Z → to_int32 z = z.
Proof. intros H. unfold to_int32. rewrite Z.mod_small by lia. lia. Qed.

Lemma date_fields (year month day : Z) :
  (- 2 ^ 22 ≤ year < 2 ^ 22)%Z → (0 ≤ month < 16)%Z → (0 ≤ day < 32)%Z →
  let date := to_int32 (pack_date year month day) in
  Z.shiftr date 9 = year
  ∧ Z.land (Z.shiftr date 5) 15 = month
  ∧ Z.land date 31 = day.
Proof.
  intros Hy Hm Hd date. subst date. rewrite pack_date_value by done.
  rewrite to_int32_small by lia.
  rewrite !Z.shiftr_div_pow2 by lia.
  change 15%Z with (Z.ones 4). change 31%Z with (Z.ones 5).
  rewrite !Z.land_ones by lia.
  change (2 ^ 9)%Z with 512%Z. change (2 ^ 5)%Z with 32%Z. change (2 ^ 4)%Z with 16%Z.
  repeat split; Z.to_euclidean_division_equations; lia.
Qed.

Lemma length_fill_string c k : String.length (fill_string c k) = k.
Proof. induction k as [|k IH]; simpl; [done|]. by rewrite IH. Qed.

Lemma length_append (s t : string) :
  String.length (s ++ t) = (String.length s + String.length t)%nat.
Proof. induction s as [|c s IH]; simpl; [done|]. by rewrite IH. Qed.

Lemma length_zero_padded w n :
  String.length (zero_padded w n) = Nat.max w (String.length (digits n)).
Proof. unfold zero_padded. rewrite length_append, length_fill_string. lia. Qed.

Lemma put_int_nonneg (w : nat) (z : Z) :
  (0 ≤ z)%Z → put_int "0" true w z = zero_padded w (Z.to_N z).
Proof.
  intros Hz. unfold put_int, zero_padded.
  destruct (Z.ltb_spec z 0) as [|_]; [lia|].
  replace (Z.abs_N z) with (Z.to_N z) by (destruct z; simpl; try reflexivity; lia).
  reflexivity.
Qed.

Lemma put_int_neg (w : nat) (z : Z) :
  (z < 0)%Z → put_int "0" true (S w) z = ("-" ++ zero_padded w (Z.to_N (- z)))%string.
Proof.
  intros Hz. unfold put_int, zero_padded.
  destruct (Z.ltb_spec z 0) as [_|]; [|lia].
  replace (Z.abs_N z) with (Z.to_N (- z)) by (destruct z; simpl; try reflexivity; lia).
  reflexivity.
Qed.

Lemma two_digits (n : Z) :
  (0 ≤ n < 32)%Z → String.length (zero_padded 2 (Z.to_N n)) = 2%nat.
Proof.
  intros Hn. replace n with (Z.of_nat (Z.to_nat n)) by lia.
  assert (Hk : (Z.to_nat n < 32)%nat) by lia. revert Hk. generalize (Z.to_nat n) as k.
  intros k Hk. do 32 (destruct k as [|k]; [reflexivity|]). lia.
Qed.

Section DateFacts.
Context {RT : HostRuntime}.

(** C8. In print mode a date constant packed as
    [year << 9 | month << 5 | day] is rendered as year, month and day joined
    by dashes, month and day zero-padded to two digits, the year zero-padded
    to at least four digits; a negative year is rendered with its sign in
    front of the padded digits, a field of width at least five.  The date
    2024-01-31 is the instance given with the property. *)
Theorem print_constant_date (year month day : Z) :
  (- 2 ^ 22 ≤ year < 2 ^ 22)%Z → (0 ≤ month < 16)%Z → (0 ≤ day < 32)%Z →
  print_constant (CDate (pack_date year month day)) Date
    = Ok (year_field year ++ "-" ++ zero_padded 2 (Z.to_N month)
            ++ "-" ++ zero_padded 2 (Z.to_N day))%string
  ∧ String.length (zero_padded 2 (Z.to_N month)) = 2%nat
  ∧ String.length (zero_padded 2 (Z.to_N day)) = 2%nat
  ∧ (year < 0 → (5 ≤ String.length (year_field year))%nat)%Z
  ∧ (0 < year → (4 ≤ String.length (year_field year))%nat)%Z.
Proof.
  intros Hy Hm Hd. split; [|split; [|split; [|split]]].
  - unfold print_constant. simpl. unfold print_date.
    destruct (date_fields year month day Hy Hm Hd) as (-> & -> & ->).
    rewrite (put_int_nonneg 2 month), (put_int_nonneg 2 day) by lia.
    f_equal. f_equal. unfold year_field.
    destruct (Z.gtb_spec year 0) as [Hpos|Hnp].
    + destruct (Z.ltb_spec 0 year); [|lia]. by apply put_int_nonneg; lia.
    + destruct (Z.ltb_spec 0 year); [lia|].
      destruct (Z.ltb_spec year 0).
      * by apply put_int_neg.
      * replace year with 0%Z by lia. reflexivity.
  - apply two_digits. lia.
  - apply two_digits. lia.
  - intros Hneg. unfold year_field.
    destruct (Z.ltb_spec 0 year); [lia|]. destruct (Z.ltb_spec year 0); [|lia].
    rewrite length_append, length_zero_padded. simpl. lia.
  - intros Hpos. unfold year_field.
    destruct (Z.ltb_spec 0 year); [|lia]. rewrite length_zero_padded. lia.
Qed.

End DateFacts.

Lemma print_constant_date_witness :
  @print_constant reference_runtime (CDate (pack_date 2024 1 31)) Date = Ok "2024-01-31".
Proof.
  refine (proj1 (@print_constant_date reference_runtime 2024 1 31 _ _ _)); lia.
Defined.


Section IndexFacts.
Context {RT : HostRuntime}.

Lemma lower_bound_loop_le fuel v key first count :
  (lower_bound_loop fuel v key first count ≤ first + count)%nat.
Proof.
  revert first count. induction fuel as [|fuel IH]; intros first count;
    cbn [lower_bound_loop]; [lia|].
  destruct (Nat.eqb_spec count 0); [lia|].
  assert (count / 2 < count)%nat by (apply Nat.div_lt; lia).
  destruct (v !! (first + count / 2)%nat) as [[k t]|]; [|lia].
  destruct (key_less k key).
  - etrans; [apply IH|]. lia.
  - etrans; [apply IH|]. lia.
Qed.

Lemma upper_bound_loop_le fuel v key first count :
  (upper_bound_loop fuel v key first count ≤ first + count)%nat.
Proof.
  revert first count. induction fuel as [|fuel IH]; intros first count;
    cbn [upper_bound_loop]; [lia|].
  destruct (Nat.eqb_spec count 0); [lia|].
  assert (count / 2 < count)%nat by (apply Nat.div_lt; lia).
  destruct (v !! (first + count / 2)%nat) as [[k t]|]; [|lia].
  destruct (negb (key_less key k)).
  - etrans; [apply IH|]. lia.
  - etrans; [apply IH|]. lia.
Qed.

Lemma partition_point_le p v : (partition_point p v ≤ length v)%nat.
Proof. induction v as [|e v IH]; simpl; [lia|]. destruct (p e.1); lia. Qed.

Lemma lower_bound_le index key : (lower_bound index key ≤ length (ib_entries index))%nat.
Proof.
  unfold lower_bound. destruct (ib_kind index).
  - etrans; [apply lower_bound_loop_le|]. lia.
  - apply partition_point_le.
Qed.

Lemma upper_bound_le index key : (upper_bound index key ≤ length (ib_entries index))%nat.
Proof.
  unfold upper_bound. destruct (ib_kind index).
  - etrans; [apply upper_bound_loop_le|]. lia.
  - apply partition_point_le.
Qed.





End IndexFacts.



Lemma strlen_no_nul s : no_nul s → strlen s = N.of_nat (String.length s).
Proof.
  induction s as [|c s IH]; simpl; [done|]. intros [Hc Hs].
  rewrite bool_decide_eq_false_2 by done. rewrite IH by done. lia.
Qed.

Lemma load_bytes_ext (m m' : Memory) addr n :
  (∀ a, (addr ≤ a < addr + N.of_nat n)%N → mem_byte m a = mem_byte m' a) →
  load_bytes m addr n = load_bytes m' addr n.
Proof.
  revert addr. induction n as [|n IH]; intros addr H; cbn [load_bytes]; [done|].
  f_equal; [apply H; lia|]. apply IH. intros a Ha. apply H. lia.
Qed.

Lemma load_bytes_app (m : Memory) addr n1 n2 :
  load_bytes m addr (n1 + n2)
  = (load_bytes m addr n1 ++ load_bytes m (addr + N.of_nat n1) n2)%string.
Proof.
  revert addr. induction n1 as [|n1 IH]; intros addr; cbn [load_bytes Nat.add append].
  - by rewrite N.add_0_r.
  - rewrite IH. replace (addr + N.of_nat (S n1))%N with (addr + 1 + N.of_nat n1)%N by lia.
    reflexivity.
Qed.

Lemma stpcpy_spec (m : Memory) (dst : N) (s : string) :
  no_nul s →
  let '(m', nul) := stpcpy m dst s in
  nul = (dst + N.of_nat (String.length s))%N
  ∧ load_bytes m' dst (S (String.length s)) = (s ++ String NUL "")%string
  ∧ mem_size m' = mem_size m
  ∧ ∀ a, (a < dst ∨ nul < a)%N → mem_byte m' a = mem_byte m a.
Proof.
  revert m dst. induction s as [|c s IH]; intros m dst Hs.
  - cbn -[N.of_nat]. split; [lia|]. split.
    + by rewrite bool_decide_eq_true_2.
    + split; [done|]. intros a Ha. rewrite bool_decide_eq_false_2; [done|lia].
  - destruct Hs as [Hc Hs]. cbn [stpcpy]. rewrite bool_decide_eq_false_2 by done.
    specialize (IH (store m dst c) (dst + 1)%N Hs).
    destruct (stpcpy (store m dst c) (dst + 1) s) as [m' nul].
    destruct IH as (Hnul & Hload & Hsize & Hout).
    cbn [String.length]. split; [lia|]. split.
    + change (load_bytes m' dst (S (S (String.length s))))
        with (String (mem_byte m' dst) (load_bytes m' (dst + 1) (S (String.length s)))).
      rewrite Hload, Hout by lia. cbn [store mem_byte].
      by rewrite bool_decide_eq_true_2.
    + split; [done|]. intros a Ha. rewrite Hout by lia. cbn [store mem_byte].
      rewrite bool_decide_eq_false_2; [done|lia].
Qed.

Lemma append_terminator (s t : string) :
  ((s ++ String NUL "") ++ t)%string = (s ++ String NUL t)%string.
Proof.
  induction s as [|c s IH]; [done|].
  change (String c (((s ++ String NUL "") ++ t)%string) = String c (s ++ String NUL t)%string).
  by rewrite IH.
Qed.

Lemma copy_literals_spec (literals : list string) (heap start : N) (m : Memory)
    (dst : N) (cg : gmap string N) :
  Forall no_nul literals →
  NoDup literals →
  (start ≤ dst)%N →
  heap = start →
  let '(m', dst', cg') := copy_literals literals heap start m dst cg in
  dst' = (dst + terminated_length literals)%N
  ∧ load_bytes m' dst (String.length (terminated literals)) = terminated literals
  ∧ (∀ a, (a < dst ∨ dst' ≤ a)%N → mem_byte m' a = mem_byte m a)
  ∧ (∀ s off, (s, off) ∈ offsets_from dst literals → cg' !! s = Some off)
  ∧ (∀ s, s ∉ literals → cg' !! s = cg !! s).
Proof.
  intros Hnn Hnd Hle ->. revert m dst cg Hle.
  induction literals as [|s literals IH]; intros m dst cg Hle;
    cbn [copy_literals terminated offsets_from].
  - unfold terminated_length. cbn [terminated String.length]. split; [lia|]. split; [done|]. split; [done|].
    split; [|done]. intros s off H. by apply elem_of_nil in H.
  - apply Forall_cons in Hnn as [Hs Hnn]. apply NoDup_cons in Hnd as [Hnotin Hnd].
    pose proof (stpcpy_spec m dst s Hs) as Hcpy.
    destruct (stpcpy m dst s) as [m1 nul]. destruct Hcpy as (Hnul & Hload1 & _ & Hout1).
    specialize (IH Hnn Hnd m1 (nul + 1)%N (add_literal cg s (start + (dst - start)))).
    destruct (copy_literals literals start start m1 (nul + 1)
                (add_literal cg s (start + (dst - start)))) as [[m' dst'] cg'].
    destruct IH as (Hdst & Hload & Hout & Hoff & Hrest); [lia|].
    unfold terminated_length in *. cbn [terminated]. rewrite length_append.
    cbn [String.length]. split; [lia|]. split.
    + replace (String.length s + S (String.length (terminated literals)))%nat
        with (S (String.length s) + String.length (terminated literals))%nat by lia.
      rewrite load_bytes_app.
      replace (s ++ String NUL (terminated literals))%string
        with ((s ++ String NUL "") ++ terminated literals)%string.
      2:{ apply append_terminator. }
      f_equal.
      * etrans; [|exact Hload1]. apply load_bytes_ext. intros a Ha. apply Hout. lia.
      * etrans; [|exact Hload]. f_equal. lia.
    + split; [|split].
      * intros a Ha. rewrite Hout by lia. apply Hout1. lia.
      * intros s' off Hin. apply elem_of_cons in Hin as [Heq|Hin].
        -- injection Heq as -> ->. rewrite Hrest by done.
           unfold add_literal. rewrite lookup_insert_eq. f_equal. lia.
        -- apply Hoff. replace (nul + 1)%N with (dst + N.of_nat (String.length s) + 1)%N by lia.
           done.
      * intros s' Hs'. apply not_elem_of_cons in Hs' as [Hne Hs'].
        rewrite Hrest by done. unfold add_literal. by rewrite lookup_insert_ne.
Qed.

Lemma Ceil_To_Next_Page_aligned n : Is_Page_Aligned (Ceil_To_Next_Page n) = true.
Proof.
  unfold Is_Page_Aligned, Ceil_To_Next_Page. apply N.eqb_eq.
  apply N.Div0.mod_mul.
Qed.

Lemma Ceil_To_Next_Page_ge n : (n ≤ Ceil_To_Next_Page n)%N.
Proof.
  unfold Ceil_To_Next_Page, pagesize.
  pose proof (N.div_mod (n + 4096 - 1) 4096 ltac:(lia)) as H.
  pose proof (N.mod_lt (n + 4096 - 1) 4096 ltac:(lia)). lia.
Qed.

Lemma Is_Page_Aligned_add a b :
  Is_Page_Aligned a = true → Is_Page_Aligned b = true → Is_Page_Aligned (a + b) = true.
Proof.
  unfold Is_Page_Aligned. rewrite !N.eqb_eq. intros Ha Hb.
  rewrite N.Div0.add_mod, Ha, Hb. reflexivity.
Qed.

Lemma pagesize_aligned : Is_Page_Aligned pagesize = true.
Proof. reflexivity. Qed.

Lemma install_guard_page_vm ctx : vm (install_guard_page ctx) = vm ctx.
Proof. unfold install_guard_page. by destruct (N.testbit (config ctx) 0). Qed.

Lemma install_guard_page_heap ctx :
  (heap ctx ≤ heap (install_guard_page ctx))%N
  ∧ (Is_Page_Aligned (heap ctx) = true → Is_Page_Aligned (heap (install_guard_page ctx)) = true).
Proof.
  unfold install_guard_page. destruct (N.testbit (config ctx) 0); simpl.
  - split; [lia|]. intros H. apply Is_Page_Aligned_add; [done|apply pagesize_aligned].
  - split; [lia|done].
Qed.

Lemma bytes_fold (literals : list string) (acc : N) :
  Forall no_nul literals →
  fold_left (fun bytes literal => bytes + (strlen literal + 1))%N literals acc
  = (acc + terminated_length literals)%N.
Proof.
  intros H. revert acc. induction H as [|s literals Hs _ IH]; intros acc.
  - unfold terminated_length. cbn. lia.
  - cbn [fold_left]. rewrite IH. unfold terminated_length. cbn [terminated].
    rewrite length_append. cbn [String.length]. rewrite strlen_no_nul by done. lia.
Qed.

Lemma offsets_from_elem (base : N) (literals : list string) s :
  s ∈ literals → ∃ off, (s, off) ∈ offsets_from base literals.
Proof.
  revert base. induction literals as [|x literals IH]; intros base Hs.
  - by apply elem_of_nil in Hs.
  - apply elem_of_cons in Hs as [->|Hs].
    + exists base. apply elem_of_cons. by left.
    + destruct (IH (base + N.of_nat (String.length x) + 1)%N Hs) as [off Hoff].
      exists off. apply elem_of_cons. by right.
Qed.

Lemma append_inj_length (a a' b b' : string) :
  String.length a = String.length a' →
  (a ++ b)%string = (a' ++ b')%string → a = a' ∧ b = b'.
Proof.
  revert a'. induction a as [|c a IH]; intros [|c' a'] Hl H; try discriminate.
  - done.
  - change (String c (a ++ b)%string = String c' (a' ++ b')%string) in H.
    injection H as -> H. cbn [String.length] in Hl.
    destruct (IH a' ltac:(lia) H) as [-> ->]. done.
Qed.

Lemma length_load_bytes (m : Memory) addr n : String.length (load_bytes m addr n) = n.
Proof.
  revert addr. induction n as [|n IH]; intros addr; cbn [load_bytes String.length]; [done|].
  by rewrite IH.
Qed.

Lemma terminated_at (m : Memory) (base : N) (literals : list string) s off :
  load_bytes m base (String.length (terminated literals)) = terminated literals →
  (s, off) ∈ offsets_from base literals →
  (base ≤ off)%N
  ∧ (off + N.of_nat (S (String.length s)) ≤ base + terminated_length literals)%N
  ∧ load_bytes m off (S (String.length s)) = (s ++ String NUL "")%string.
Proof.
  revert base. induction literals as [|x literals IH]; intros base Hload Hin.
  - by apply elem_of_nil in Hin.
  - cbn [terminated offsets_from] in *. unfold terminated_length. cbn [terminated].
    rewrite length_append in *. cbn [String.length] in *.
    replace (String.length x + S (String.length (terminated literals)))%nat
      with (S (String.length x) + String.length (terminated literals))%nat in Hload by lia.
    rewrite load_bytes_app in Hload. rewrite <- append_terminator in Hload.
    assert (Hlen : String.length (load_bytes m base (S (String.length x)))
                   = String.length (x ++ String NUL "")%string).
    { rewrite length_load_bytes, length_append. cbn [String.length]. lia. }
    assert (Hsplit : load_bytes m base (S (String.length x)) = (x ++ String NUL "")%string
                   ∧ load_bytes m (base + N.of_nat (S (String.length x)))
                       (String.length (terminated literals)) = terminated literals).
    { by apply append_inj_length. }
    destruct Hsplit as [Hx Hrest].
    apply elem_of_cons in Hin as [Heq|Hin].
    + injection Heq as -> ->. split; [lia|]. split; [lia|done].
    + replace (base + N.of_nat (S (String.length x)))%N
        with (base + N.of_nat (String.length x) + 1)%N in Hrest by lia.
      destruct (IH _ Hrest Hin) as (H1 & H2 & H3). unfold terminated_length in H2.
      split; [lia|]. split; [lia|done].
Qed.

Lemma Operator_induction (P : Operator → Prop) :
  (∀ k s cs, Forall P cs → P (Op k s cs)) → ∀ op, P op.
Proof.
  intros H. fix IH 1. intros [k s cs]. apply H.
  induction cs as [|c cs IHcs]; constructor; [apply IH|exact IHcs].
Qed.

Lemma emplace_NoDup (s : string) (acc : list string) : NoDup acc → NoDup (emplace s acc).
Proof.
  intros H. unfold emplace. case_bool_decide; [done|].
  apply NoDup_app. split; [done|]. split; [|apply NoDup_singleton].
  intros x Hx Hx'. apply list_elem_of_singleton in Hx'. by subst.
Qed.

Lemma collect_expr_NoDup e : keeps_NoDup (collect_expr e).
Proof.
  induction e as [| | c | | op e IH | op l IHl r IHr |]; intros acc acc' H Hnd;
    cbn [collect_expr] in H; try (injection H as <-; done); try discriminate.
  - destruct (is_string c); [|injection H as <-; done].
    destruct (as_p (Interpreter_eval c)); try discriminate.
    cbn in H. injection H as <-. by apply emplace_NoDup.
  - by eapply IH.
  - destruct (collect_expr l acc) as [acc1| |] eqn:Hl; try discriminate.
    cbn in H. eapply IHr; [exact H|]. by eapply IHl.
Qed.

Lemma collect_exprs_NoDup es : keeps_NoDup (collect_exprs es).
Proof.
  induction es as [|e es IH]; intros acc acc' H Hnd; cbn [collect_exprs] in H.
  - by injection H as <-.
  - destruct (collect_expr e acc) as [acc1| |] eqn:He; try discriminate.
    cbn in H. eapply IH; [exact H|]. by eapply collect_expr_NoDup.
Qed.

Lemma collect_operator_NoDup op : keeps_NoDup (collect_operator op).
Proof.
  induction op as [k s cs IH] using Operator_induction.
  assert (Hrec : keeps_NoDup
    ((fix recurse (cs : list Operator) (literals_ : list string) :=
        match cs with
        | [] => Ok literals_
        | c :: cs' => literals_ ← collect_operator c literals_; recurse cs' literals_
        end) cs)).
  { induction IH as [|c cs Hc _ IHcs]; intros acc acc' H Hnd.
    - by injection H as <-.
    - destruct (collect_operator c acc) as [acc1| |] eqn:Hc1; try discriminate.
      cbn in H. eapply IHcs; [exact H|]. by eapply Hc. }
  intros acc acc' H Hnd. cbn [collect_operator] in H.
  destruct k; try (by eapply Hrec); try (injection H as <-; done).
  all: unfold collect_cnf in H.
  all: match type of H with
       | (mbind _ (collect_exprs ?es ?a)) = _ =>
           destruct (collect_exprs es a) as [acc1| |] eqn:Hes; try discriminate;
           cbn in H; eapply Hrec; [exact H|]; by eapply collect_exprs_NoDup
       end.
Qed.

Lemma CollectStringLiterals_NoDup {RT : HostRuntime} (root : Operator)
    (literals : list string) :
  CollectStringLiterals root = Ok literals → NoDup literals.
Proof.
  unfold CollectStringLiterals. intros H.
  destruct (collect_operator root []) as [literals_| |] eqn:Hc; try discriminate.
  injection H as <-. rewrite iteration_order_perm.
  eapply collect_operator_NoDup; [exact Hc|constructor].
Qed.

Lemma map_literals_spec (literals : list string) (context : WasmContext)
    (cg : gmap string N) :
  Forall no_nul literals →
  NoDup literals →
  Is_Page_Aligned (heap context) = true →
  ∃ context' cg',
    map_literals literals context cg = Ok (context', cg')
    ∧ load_bytes (vm context') (heap context) (String.length (terminated literals))
      = terminated literals
    ∧ (∀ s off, (s, off) ∈ offsets_from (heap context) literals → cg' !! s = Some off)
    ∧ (heap context + terminated_length literals ≤ heap context')%N
    ∧ Is_Page_Aligned (heap context') = true
    ∧ (∀ a, (a < heap context)%N → mem_byte (vm context') a = mem_byte (vm context) a).
Proof.
  intros Hnn Hnd Hal. unfold map_literals. rewrite Hal. cbn [M_insist mbind result_bind].
  rewrite (bytes_fold literals 0 Hnn). rewrite N.add_0_l.
  pose proof (Ceil_To_Next_Page_ge (terminated_length literals)) as Hge.
  pose proof (Ceil_To_Next_Page_aligned (terminated_length literals)) as Hca.
  destruct (N.eqb_spec (Ceil_To_Next_Page (terminated_length literals)) 0) as [Hz|Hnz].
  - assert (Hlit : literals = []).
    { destruct literals as [|s l]; [done|]. exfalso. revert Hge. rewrite Hz.
      unfold terminated_length. cbn [terminated]. rewrite length_append.
      cbn [String.length]. lia. }
    subst literals. rewrite Hal. cbn. exists context, cg.
    split; [done|]. split; [done|]. split.
    + intros s off H. by apply elem_of_nil in H.
    + split; [unfold terminated_length; cbn; lia|]. split; done.
  - pose proof (copy_literals_spec literals (heap context) (heap context)
                  (mmap_anon (vm context) (heap context)
                     (Ceil_To_Next_Page (terminated_length literals)))
                  (heap context) cg Hnn Hnd ltac:(lia) eq_refl) as Hcopy.
    destruct (copy_literals literals (heap context) (heap context) _ (heap context) cg)
      as [[m' dst'] cg'].
    destruct Hcopy as (Hdst & Hload & Hout & Hoff & _).
    set (ctx1 := with_memory context m'
                   (heap context + Ceil_To_Next_Page (terminated_length literals))).
    destruct (install_guard_page_heap ctx1) as [Hh1 Hh2].
    rewrite Hh2 by (by apply Is_Page_Aligned_add).
    cbn [M_insist mbind result_bind]. eexists _, _. split; [reflexivity|].
    rewrite install_guard_page_vm. cbn [vm with_memory ctx1].
    split; [exact Hload|]. split; [exact Hoff|]. split.
    + etrans; [|exact Hh1]. cbn [heap with_memory ctx1]. lia.
    + split; [by apply Hh2, Is_Page_Aligned_add|].
      intros a Ha. rewrite Hout by lia. cbn [mmap_anon mem_byte].
      rewrite bool_decide_eq_false_2 by lia. reflexivity.
Qed.

Lemma map_table_aligned (ctx : WasmContext) (table : Table) :
  Is_Page_Aligned (heap ctx) = true →
  Is_Page_Aligned (heap (map_table ctx table).1) = true.
Proof.
  intros H. unfold map_table. cbn [fst].
  apply install_guard_page_heap. cbn [heap with_memory].
  apply Is_Page_Aligned_add; [done|apply Ceil_To_Next_Page_aligned].
Qed.

Lemma map_tables_aligned (tables : list Table) (ctx : WasmContext) (env : gmap string Z) :
  Is_Page_Aligned (heap ctx) = true →
  Is_Page_Aligned (heap (map_tables tables ctx env).1) = true.
Proof.
  revert ctx env. induction tables as [|t tables IH]; intros ctx env H; [done|].
  cbn [map_tables]. pose proof (map_table_aligned ctx t H) as Ht.
  destruct (map_table ctx t) as [ctx1 off]. by apply IH.
Qed.

(** C7. The string literals collected from the matched plan are distinct;
    [create_env] copies them, in the order of the collector's vector (the
    order in which its set is iterated, whichever that is), each followed by
    a NUL, back to back into one region starting at the context's heap,
    records the offset of each for the code generator, and for each literal
    [s] the arena holds, at the offset recorded for [s], the characters of
    [s] followed by a NUL. *)
Theorem create_env_literals {RT : HostRuntime} (W : World) (M : Module) (ctx : WasmContext)
    (cg : gmap string N) (p : MatchBase) (literals : list string) :
  the_module W = Some M →
  contexts W !! module_id M = Some ctx →
  the_codegen W = Some cg →
  Is_Page_Aligned (heap ctx) = true →
  CollectStringLiterals (get_matched_root p) = Ok literals →
  Forall no_nul literals →
  let base := heap (map_tables (CollectTables (get_matched_root p)) ctx ∅).1 in
  ∃ W' env ctx' cg',
    create_env p W = (W', [], Ok env)
    ∧ contexts W' !! module_id M = Some ctx'
    ∧ the_codegen W' = Some cg'
    ∧ NoDup literals
    ∧ load_bytes (vm ctx') base (String.length (terminated literals)) = terminated literals
    ∧ (base + terminated_length literals ≤ heap ctx')%N
    ∧ ∀ s, s ∈ literals →
        ∃ off, cg' !! s = Some off
               ∧ (base ≤ off)%N
               ∧ (off + N.of_nat (S (String.length s)) ≤ base + terminated_length literals)%N
               ∧ load_bytes (vm ctx') off (S (String.length s)) = (s ++ String NUL "")%string.
Proof.
  intros HM Hctx Hcg Hal Hlit Hnn base.
  pose proof (CollectStringLiterals_NoDup _ _ Hlit) as Hnd.
  pose proof (map_tables_aligned (CollectTables (get_matched_root p)) ctx ∅ Hal) as Hal1.
  unfold create_env, Module_ID, Module_Get, Get_Wasm_Context_By_ID.
  rewrite HM. cbn [mbind result_bind]. rewrite Hctx. cbn [mbind result_bind].
  subst base. destruct (map_tables (CollectTables (get_matched_root p)) ctx ∅) as [ctx1 env].
  cbn [fst] in *. rewrite Hlit, Hcg. cbn [mbind result_bind].
  destruct (map_literals_spec literals ctx1 cg Hnn Hnd Hal1)
    as (ctx' & cg' & Hmap & Hload & Hoff & Hheap & _ & _).
  rewrite Hmap. cbn [mbind result_bind].
  exists (set_codegen (Some cg') (set_contexts (<[module_id M := ctx']> (contexts W)) W)),
    env, ctx', cg'.
  split; [reflexivity|]. split; [cbn; apply lookup_insert_eq|]. split; [reflexivity|].
  split; [exact Hnd|]. split; [exact Hload|]. split; [exact Hheap|].
  intros s Hs. destruct (offsets_from_elem (heap ctx1) literals s Hs) as [off Hin].
  exists off. split; [by apply Hoff|]. by eapply terminated_at.
Qed.



Lemma Host_bind_Ok {A B : Type} (m : Host A) (k : A → Host B) W W' evs b :
  (m ≫= k) W = (W', evs, Ok b) →
  ∃ W1 evs1 a evs2,
    m W = (W1, evs1, Ok a) ∧ k a W1 = (W', evs2, Ok b) ∧ evs = evs1 ++ evs2.
Proof.
  unfold mbind, Host_bind. destruct (m W) as [[W1 evs1] [a|msg|what]]; try discriminate.
  destruct (k a W1) as [[W2 evs2] r] eqn:Hk. intros [= <- <- ->].
  exists W1, evs1, a, evs2. done.
Qed.

Lemma scoped_Ok {A : Type} (construct destroy : World → World) (body : Host A) W W' evs a :
  scoped construct destroy body W = (W', evs, Ok a) →
  ∃ W1, body (construct W) = (W1, evs, Ok a) ∧ W' = destroy W1.
Proof.
  unfold scoped. destruct (body (construct W)) as [[W1 evs1] [a'|msg|what]]; try discriminate.
  intros [= <- <- ->]. by exists W1.
Qed.

Section DriverFacts.
Context {RT : HostRuntime}.

Lemma host_call_world c W W' evs r : host_call c W = (W', evs, r) → W' = W.
Proof.
  destruct c; cbn [host_call].
  - destruct (read_result_set W info); by intros [= <- _ _].
  - by intros [= <- _ _].
  - by intros [= <- _ _].
  - by intros [= <- _ _].
Qed.

Lemma host_calls_world cs W W' evs r : host_calls cs W = (W', evs, r) → W' = W.
Proof.
  revert W W' evs r. induction cs as [|c cs IH]; intros W W' evs r; cbn [host_calls].
  - by intros [= <- _ _].
  - unfold mbind, Host_bind.
    destruct (host_call c W) as [[W1 evs1] [[]|msg|what]] eqn:Hc;
      apply host_call_world in Hc as ->; try by intros [= <- _ _].
    destruct (host_calls cs W) as [[W2 evs2] r2] eqn:Hcs. apply IH in Hcs as ->.
    by intros [= <- _ _].
Qed.

Lemma call_main_Ok G W W' evs n :
  call_main G W = (W', evs, Ok n) →
  W' = W ∧ n = g_main G ∧ ∃ evs_main, evs = evs_main ++ [EvReturn (g_main G)].
Proof.
  unfold call_main. intros H.
  apply Host_bind_Ok in H as (W1 & evs1 & [] & evs2 & H1 & H2 & ->).
  apply host_calls_world in H1 as ->.
  apply Host_bind_Ok in H2 as (W2 & evs3 & [] & evs4 & H3 & H4 & ->).
  unfold emit_events in H3. injection H3 as <- <-.
  unfold mret, Host_ret in H4. injection H4 as <- <- <-.
  split; [done|]. split; [done|]. exists evs1. by rewrite app_nil_r.
Qed.

End DriverFacts.

Lemma create_env_Ok {RT : HostRuntime} p W W' evs env :
  create_env p W = (W', evs, Ok env) →
  evs = [] ∧ ∃ M ctx' cg',
    the_module W = Some M
    ∧ W' = set_codegen (Some cg') (set_contexts (<[module_id M := ctx']> (contexts W)) W).
Proof.
  unfold create_env, Module_ID, Module_Get, Get_Wasm_Context_By_ID.
  destruct (the_module W) as [M|]; [|cbn; discriminate]. cbn [mbind result_bind].
  destruct (contexts W !! module_id M) as [ctx|]; [|cbn; discriminate]. cbn [mbind result_bind].
  destruct (map_tables _ ctx ∅) as [ctx1 env1].
  destruct (CollectStringLiterals _) as [literals| |]; try (cbn; discriminate).
  cbn [mbind result_bind].
  destruct (the_codegen W) as [cg|]; [|cbn; discriminate]. cbn [mbind result_bind].
  destruct (map_literals literals ctx1 cg) as [[ctx' cg']| |]; try (cbn; discriminate).
  cbn [mbind result_bind]. intros [= <- <- <-]. split; [done|]. by exists M, ctx', cg'.
Qed.

Lemma compile_Ok G W W' evs :
  compile G W = (W', evs, Ok tt) →
  evs = [] ∧ ∃ M ctx',
    the_module W = Some M
    ∧ W' = set_contexts (<[module_id M := ctx']> (contexts W))
             (set_module (Some {| module_id := module_id M; messages := g_messages G |})
                (next_module_id W) W).
Proof.
  unfold compile. destruct (the_module W) as [M|]; [|discriminate].
  destruct (contexts W !! module_id M) as [ctx|]; [|discriminate].
  destruct (g_valid G); [|discriminate]. intros [= <- <-]. split; [done|].
  eexists _, _. done.
Qed.

Ltac world_simpl H :=
  cbn [contexts the_module next_module_id the_codegen isolate_ isolate_depth inspector_
       set_contexts set_module set_codegen set_isolate_depth set_inspector
       Isolate_Enter Isolate_Exit module_id] in H.

Section DriverRuns.
Context {RT : HostRuntime}.

Lemma execute_completed (O : Options) (G : Guest) (p : MatchBase) (W W' : World)
    (evs : list event) :
  (cdt_port O < 1024)%N →
  inspector_ W = false →
  execute O G p W = (W', evs, Ok tt) →
  (∃ evs_main,
     evs = evs_main ++ EvReturn (g_main G) :: trailer O (get_matched_root p) (g_main G))
  ∧ contexts W' = contexts W
  ∧ the_module W' = None
  ∧ the_codegen W' = None
  ∧ isolate_depth W' = isolate_depth W.
Proof.
  intros Hport Hinsp H. unfold execute in H.
  apply Host_bind_Ok in H as (W1 & e1 & [] & e1' & HInit & H & ->).
  unfold Module_Init in HInit. destruct (the_module W) eqn:HM; [discriminate|].
  injection HInit as <- <-.
  apply Host_bind_Ok in H as (W2 & e2 & [] & e2' & HCG & H & ->).
  unfold CodeGenContext_Init in HCG. cbn [the_codegen set_module] in HCG.
  destruct (the_codegen W) eqn:HC; [discriminate|]. injection HCG as <- <-.
  apply Host_bind_Ok in H as (W3 & e3 & [] & e3' & HI & H & ->).
  unfold lift in HI. injection HI as <- <- HI.
  apply Host_bind_Ok in H as (W4 & e4 & [] & e4' & HE & H & ->).
  unfold modify in HE. injection HE as <- <-.
  apply Host_bind_Ok in H as (W5 & e5 & returned & e5' & HS & H & ->).
  apply scoped_Ok in HS as (W6 & HB & ->).
  (* the block *)
  apply Host_bind_Ok in HB as (V1 & f1 & module_ID & f1' & HID & HB & ->).
  unfold lift, Module_ID, Module_Get in HID. cbn in HID. injection HID as <- <- <-.
  apply Host_bind_Ok in HB as (V2 & f2 & wasm_context & f2' & HCr & HB & ->).
  unfold Create_Wasm_Context_For_ID in HCr. cbn in HCr.
  destruct (contexts W !! next_module_id W) eqn:Hfresh; [discriminate|].
  injection HCr as <- <- <-.
  apply Host_bind_Ok in HB as (V3 & f3 & env & f3' & HEnv & HB & ->).
  apply create_env_Ok in HEnv as (-> & M1 & ctx1 & cg1 & HM1 & ->).
  cbn in HM1. injection HM1 as <-. cbn [module_id] in *.
  apply Host_bind_Ok in HB as (V4 & f4 & [] & f4' & HAl & HB & ->).
  unfold lift in HAl. injection HAl as <- <- _.
  apply Host_bind_Ok in HB as (V5 & f5 & [] & f5' & HCo & HB & ->).
  apply compile_Ok in HCo as (-> & M2 & ctx2 & HM2 & ->).
  cbn in HM2. injection HM2 as <-. cbn [module_id] in *.
  apply Host_bind_Ok in HB as (V6 & f6 & [] & f6' & HIn & HB & ->).
  unfold instantiate, lift in HIn. injection HIn as <- <- _.
  apply Host_bind_Ok in HB as (V7 & f7 & [] & f7' & HMo & HB & ->).
  unfold modify in HMo. injection HMo as <- <-.
  apply Host_bind_Ok in HB as (V8 & f8 & inspector & f8' & HGet & HB & ->).
  unfold lift in HGet. injection HGet as <- <- <-.
  destruct (N.leb_spec 1024 (cdt_port O)) as [|_]; [lia|]. cbn in HB.
  rewrite Hinsp in HB.
  apply Host_bind_Ok in HB as (V9 & f9 & num_rows & f9' & HMain & HB & ->).
  apply call_main_Ok in HMain as (-> & -> & evs_main & ->).
  apply Host_bind_Ok in HB as (V10 & f10 & [] & f10' & HTr & HB & ->).
  apply Host_bind_Ok in HB as (V11 & f11 & [] & f11' & HDi & HB & ->).
  unfold mret, Host_ret in HB. injection HB as <- <- <-.
  match type of HTr with
  | _ ?V = _ => assert (HTr' : V10 = V ∧ f10 = trailer O (get_matched_root p) (g_main G))
  end.
  { unfold trailer. destruct (kind (get_matched_root p)); cbn in HTr;
      try (injection HTr as <- <-; done);
      destruct (quiet O); cbn in HTr; injection HTr as <- <-; done. }
  destruct HTr' as [-> ->].
  unfold Dispose_Wasm_Context in HDi. world_simpl HDi. rewrite lookup_insert_eq in HDi.
  injection HDi as <- <-.
  (* after the block *)
  apply Host_bind_Ok in H as (U1 & g1 & [] & g1' & HEx & H & ->).
  unfold modify in HEx. injection HEx as <- <-.
  apply Host_bind_Ok in H as (U2 & g2 & [] & g2' & HCD & H & ->).
  unfold CodeGenContext_Dispose in HCD. cbn in HCD. injection HCD as <- <-.
  unfold Module_Dispose in H. cbn in H. injection H as <- <-.
  split.
  - exists evs_main. cbn. rewrite !app_nil_r. by rewrite <- app_assoc.
  - cbn. split; [|done].
    rewrite !insert_insert_eq. by apply delete_insert_id.
Qed.

End DriverRuns.

Lemma append_assoc (a b c : string) : ((a ++ b) ++ c)%string = (a ++ (b ++ c))%string.
Proof.
  induction a as [|x a IH]; [done|].
  change (String x ((a ++ b) ++ c)%string = String x (a ++ (b ++ c))%string). by rewrite IH.
Qed.

Lemma append_empty_r (a : string) : (a ++ "")%string = a.
Proof.
  induction a as [|x a IH]; [done|]. change (String x (a ++ "")%string = String x a).
  by rewrite IH.
Qed.

Lemma written_app (os : ostream) (a b : list event) :
  written os (a ++ b) = (written os a ++ written os b)%string.
Proof.
  induction a as [|ev a IH]; [done|]. cbn [app written].
  destruct ev; try exact IH. case_bool_decide; [|exact IH].
  by rewrite IH, append_assoc.
Qed.

Lemma result_bind_Ok {A B : Type} (r : result A) (k : A → result B) (b : B) :
  r ≫= k = Ok b → ∃ a, r = Ok a ∧ k a = Ok b.
Proof. destruct r as [a| |]; [|done|done]. intros H. by exists a. Qed.

Ltac bind_inv H :=
  let a := fresh "a" in
  let Ha := fresh "Ha" in
  apply result_bind_Ok in H as (a & Ha & H).

Section DriverClaims.
Context {RT : HostRuntime}.

(** C4, as amended. For every query that the driver runs without the
    inspector and whose [main] returns, the Wasm context is disposed, the
    module and the code generation context are disposed and the isolate is
    exited: the registry of contexts, and with it its size, is back at what it
    was before the query. *)
Theorem execute_cleans_up (O : Options) (G : Guest) (p : MatchBase) (W W' : World)
    (evs : list event) :
  (cdt_port O < 1024)%N →
  inspector_ W = false →
  execute O G p W = (W', evs, Ok tt) →
  contexts W' = contexts W
  ∧ size (contexts W') = size (contexts W)
  ∧ the_module W' = None
  ∧ the_codegen W' = None
  ∧ isolate_depth W' = isolate_depth W.
Proof.
  intros Hport Hinsp H.
  destruct (execute_completed O G p W W' evs Hport Hinsp H) as (_ & Hc & HM & HC & Hd).
  rewrite Hc. done.
Qed.

(** C5, as amended. For every completed query that the driver runs without
    the inspector and whose matched root is a print sink, the exported [main]
    returns its row count [n] to the driver, and the driver then writes [n]
    followed by [" rows"] and a newline to the stream of the sink, unless the
    quiet option is set, in which case it writes nothing. *)
Theorem execute_print_trailer (O : Options) (G : Guest) (p : MatchBase) (W W' : World)
    (evs : list event) (out : ostream) :
  (cdt_port O < 1024)%N →
  inspector_ W = false →
  kind (get_matched_root p) = PrintOperator out →
  execute O G p W = (W', evs, Ok tt) →
  ∃ evs_main,
    evs = evs_main ++ EvReturn (g_main G)
            :: (if quiet O then []
                else [EvWrite out (digits (g_main G));
                      EvWrite out (" rows" ++ String "010" "")])
    ∧ written out evs
      = (written out evs_main
         ++ (if quiet O then "" else digits (g_main G) ++ " rows" ++ String "010" ""))%string.
Proof.
  intros Hport Hinsp Hk H.
  destruct (execute_completed O G p W W' evs Hport Hinsp H) as [(evs_main & ->) _].
  exists evs_main. unfold trailer. rewrite Hk. split; [done|].
  rewrite written_app. f_equal. destruct (quiet O); [done|].
  cbn [written]. rewrite !bool_decide_eq_true_2 by done.
  by rewrite append_assoc, append_empty_r.
Qed.

(** C10, as amended. When the matched root is a no-op sink, the quiet option
    is not set and the driver runs the query without the inspector, the
    driver writes, once [main] has returned [n] to it, the row count [n]
    followed by [" rows"] and a newline to the stream of the no-op operator:
    the trailer of a print sink. *)
Theorem execute_noop_trailer (O : Options) (G : Guest) (p : MatchBase) (W W' : World)
    (evs : list event) (out : ostream) :
  (cdt_port O < 1024)%N →
  inspector_ W = false →
  kind (get_matched_root p) = NoOpOperator out →
  quiet O = false →
  execute O G p W = (W', evs, Ok tt) →
  ∃ evs_main,
    evs = evs_main ++ [EvReturn (g_main G); EvWrite out (digits (g_main G));
                       EvWrite out (" rows" ++ String "010" "")]
    ∧ written out evs
      = (written out evs_main ++ digits (g_main G) ++ " rows" ++ String "010" "")%string.
Proof.
  intros Hport Hinsp Hk Hq H.
  destruct (execute_completed O G p W W' evs Hport Hinsp H) as [(evs_main & ->) _].
  exists evs_main. unfold trailer. rewrite Hk, Hq. split; [done|].
  rewrite written_app. f_equal.
  cbn [written]. rewrite !bool_decide_eq_true_2 by done.
  by rewrite append_assoc, append_empty_r.
Qed.

End DriverClaims.

Lemma for_rows_constant (n i : nat) (args : list Tuple) (evs : list event) :
  for_rows n i args (fun _ args => Ok (args, evs)) = Ok (concat (replicate n evs)).
Proof.
  revert i. induction n as [|n IH]; intros i; cbn [for_rows replicate concat]; [done|].
  cbn [mbind result_bind]. rewrite IH. reflexivity.
Qed.

Lemma constant_of_Some projections i c :
  constant_of projections i = Some c →
  ∃ alias, projection_at projections i = Ok (ConstantExpr c, alias).
Proof.
  unfold constant_of, projection_at.
  destruct (projections !! i) as [[e alias]|]; [|discriminate].
  destruct e; try discriminate. intros [= ->]. by exists alias.
Qed.

Lemma constant_tuple_spec (projections : Projections) (s : list Entry) (pre : Tuple) :
  (∀ e, e ∈ s → is_constant (e_id e) = true) →
  (∀ k e, s !! k = Some e → is_Some (constant_of projections (length pre + k))) →
  constant_tuple projections s (length pre) (pre ++ replicate (length s) None)
  = Ok (pre ++ slots_from projections s (length pre)).
Proof.
  revert pre. induction s as [|e s IH]; intros pre Hconst Hproj.
  - cbn. by rewrite app_nil_r.
  - cbn [constant_tuple slots_from length replicate].
    assert (Hs : ∀ e', e' ∈ s → is_constant (e_id e') = true).
    { intros e' He'. apply Hconst. by right. }
    assert (Hp : ∀ k e', s !! k = Some e' →
                 is_Some (constant_of projections (length (pre ++ [None]) + k))).
    { intros k e' Hk. rewrite length_app. cbn [length].
      replace (length pre + 1 + k)%nat with (length pre + S k)%nat by lia.
      by apply (Hproj (S k) e'). }
    destruct (is_none (e_type e)) eqn:Hnone.
    + specialize (IH (pre ++ [None]) Hs Hp).
      rewrite length_app in IH. cbn [length] in IH.
      replace (length pre + 1)%nat with (S (length pre)) in IH by lia.
      rewrite <- app_assoc in IH. cbn [app] in IH. rewrite IH.
      by rewrite <- app_assoc.
    + rewrite (Hconst e) by (by left). cbn [M_insist mbind result_bind].
      destruct (Hproj 0%nat e eq_refl) as [c Hc]. rewrite Nat.add_0_r in Hc.
      destruct (constant_of_Some _ _ _ Hc) as [alias Hat]. rewrite Hat.
      cbn [mbind result_bind fst as_Constant]. rewrite Hc. cbn [fmap option_fmap option_map].
      unfold Tuple_set.
      replace (<[length pre:=Some (Interpreter_eval c)]> (pre ++ None :: replicate (length s) None))
        with ((pre ++ [Some (Interpreter_eval c)]) ++ replicate (length s) None).
      2:{ rewrite <- app_assoc. cbn [app]. symmetry.
          rewrite insert_app_r_alt by lia. by rewrite Nat.sub_diag. }
      assert (Hp' : ∀ k e', s !! k = Some e' →
                 is_Some (constant_of projections
                            (length (pre ++ [Some (Interpreter_eval c)]) + k))).
      { intros k e' Hk. rewrite length_app. cbn [length].
        replace (length pre + 1 + k)%nat with (length pre + S k)%nat by lia.
        by apply (Hproj (S k) e'). }
      specialize (IH (pre ++ [Some (Interpreter_eval c)]) Hs Hp').
      rewrite length_app in IH. cbn [length] in IH.
      replace (length pre + 1)%nat with (S (length pre)) in IH by lia.
      rewrite IH. by rewrite <- app_assoc.
Qed.

Section ConstantRows.
Context {RT : HostRuntime}.

Lemma constant_field_Ok projections i e t :
  constant_field projections i e = Ok t →
  ∃ c alias, projection_at projections i = Ok (ConstantExpr c, alias)
             ∧ print_constant c (e_type e) = Ok t.
Proof.
  unfold constant_field. destruct (constant_of projections i) as [c|] eqn:Hc; [|discriminate].
  intros Hp. destruct (constant_of_Some _ _ _ Hc) as [alias Hat]. by exists c, alias.
Qed.

Lemma constant_line_spec (projections : Projections) (s : list Entry) (i : nat) (tup : string) :
  (∀ e, e ∈ s → is_constant (e_id e) = true) →
  (∀ k e, s !! k = Some e → ∃ t, constant_field projections (i + k) e = Ok t) →
  constant_line projections s i tup
  = Ok (match s with
        | [] => tup
        | _ => tup ++ (if (i =? 0)%nat then "" else ",")
                   ++ String.concat "," (fields_from projections s i)
        end)%string.
Proof.
  revert i tup. induction s as [|e s IH]; intros i tup Hconst Hfield; [done|].
  cbn [constant_line fields_from].
  rewrite (Hconst e) by (by left). cbn [M_insist mbind result_bind].
  destruct (Hfield 0%nat e eq_refl) as [t Ht]. rewrite Nat.add_0_r in Ht.
  destruct (constant_field_Ok _ _ _ _ Ht) as (c & alias & Hat & Hprint).
  rewrite Hat. cbn [mbind result_bind fst as_Constant]. rewrite Hprint.
  cbn [mbind result_bind]. rewrite Ht. cbn [text_of].
  rewrite IH.
  2:{ intros e' He'. apply Hconst. by right. }
  2:{ intros k e' Hk. replace (S i + k)%nat with (i + S k)%nat by lia.
      by apply (Hfield (S k) e'). }
  f_equal. destruct s as [|e' s].
  - cbn [fields_from String.concat]. destruct (i =? 0)%nat.
    + reflexivity.
    + by rewrite append_assoc.
  - cbn [Nat.eqb]. cbn [fields_from String.concat].
    destruct (i =? 0)%nat.
    + change ("" ++ ?x)%string with x. by rewrite !append_assoc.
    + by rewrite !append_assoc.
Qed.

End ConstantRows.

Lemma concat_replicate_nil {A : Type} (n : nat) : concat (replicate n (@nil A)) = [].
Proof. induction n as [|n IH]; [done|]. exact IH. Qed.

Lemma delivered_app (a b : list event) : delivered (a ++ b) = delivered a ++ delivered b.
Proof.
  induction a as [|ev a IH]; [done|]. cbn [app delivered]. destruct ev; try exact IH.
  cbn [app]. by rewrite IH.
Qed.

Section ConstantsOnly.
Context {RT : HostRuntime}.

(** C2. For an invocation of [read_result_set] whose root schema holds only
    constants (an empty payload schema), the reader reads nothing from the
    result buffer and emits exactly [count] identical rows: to a callback sink
    [count] times the tuple built once from the constants of the nearest
    projection, with NULL-typed entries unset, and to a print sink [count]
    times the line composed once from them. *)
Theorem constants_only_result (W : World) (M : Module) (ctx : WasmContext)
    (k : OperatorKind) (s : list Entry) (cs : list Operator) (projections : Projections)
    (offset count : N) :
  the_module W = Some M →
  contexts W !! module_id M = Some ctx →
  get_matched_root (plan ctx) = Op k s cs →
  payload_of s = [] →
  find_projection (Op k s cs) = Ok (Some projections) →
  (∀ i e, s !! i = Some e → is_Some (constant_of projections i)) →
  (∀ out, k = PrintOperator out →
     ∀ i e, s !! i = Some e → ∃ t, constant_field projections i e = Ok t) →
  (count = 0 ∨ offset = 0)%N →
  let rows := concat (replicate (N.to_nat count) (constant_row k s projections)) in
  read_result_set W [V8Uint32 offset; V8Uint32 count] = Ok rows
  ∧ Forall (fun ev => is_read ev = false) rows
  ∧ (∀ callback, k = CallbackOperator callback →
       delivered rows = replicate (N.to_nat count) (template_tuple projections s))
  ∧ (∀ out, k = PrintOperator out →
       written out rows
       = String.concat ""
           (replicate (N.to_nat count)
              (template_line projections s ++ String "010" "")%string)).
Proof.
  intros HM Hctx Hroot Hpayload Hproj Hconst Hprint Hoffset rows.
  assert (Hall : ∀ e, e ∈ s → is_constant (e_id e) = true).
  { intros e He. by eapply payload_empty_all_constant. }
  split; [|split; [|split]].
  - unfold read_result_set, Module_ID, Module_Get, Get_Wasm_Context_By_ID, arg_Uint32.
    rewrite HM. cbn [mbind result_bind]. rewrite Hctx. cbn [mbind result_bind].
    rewrite Hroot. cbn [schema kind list_lookup lookup].
    fold (payload_of s). rewrite Hpayload.
    cbn [mbind result_bind num_entries length Nat.eqb].
    destruct (N.eqb_spec count 0) as [Hc|Hc].
    { subst rows. rewrite Hc. reflexivity. }
    destruct Hoffset as [Hz|Hz]; [done|]. subst offset.
    cbn [N.eqb eqb M_insist mbind result_bind]. rewrite Hproj. cbn [mbind result_bind].
    subst rows. destruct k; cbn [constant_row]; try (by rewrite concat_replicate_nil).
    + pose proof (constant_tuple_spec projections s [] Hall) as Ht.
      cbn [length app Nat.add] in Ht. unfold Tuple_new, num_entries.
      rewrite Ht by (intros i e Hi; by eapply Hconst).
      cbn [mbind result_bind]. apply for_rows_constant.
    + rewrite (constant_line_spec projections s 0 "" Hall).
      2:{ intros i e Hi. by eapply Hprint. }
      cbn [mbind result_bind]. rewrite for_rows_constant. do 3 f_equal.
      unfold template_line. destruct s; reflexivity.
  - subst rows. induction (N.to_nat count) as [|n IH]; [constructor|].
    cbn [replicate concat]. apply Forall_app. split; [|exact IH].
    destruct k; cbn [constant_row]; repeat constructor.
  - intros callback ->. subst rows. induction (N.to_nat count) as [|n IH]; [done|].
    cbn [replicate concat]. rewrite delivered_app, IH. reflexivity.
  - intros out ->. subst rows. induction (N.to_nat count) as [|n IH]; [done|].
    cbn [replicate concat]. rewrite written_app, IH.
    cbn [constant_row written]. rewrite !bool_decide_eq_true_2 by done.
    rewrite append_empty_r.
    set (line := (template_line projections s ++ String "010" "")%string).
    destruct n as [|n].
    + cbn [replicate String.concat]. by rewrite append_empty_r.
    + cbn [replicate String.concat]. reflexivity.
Qed.

End ConstantsOnly.

Lemma constants_only_result_witness :
  @read_result_set reference_runtime (example_world print_constants)
     [V8Uint32 0; V8Uint32 3]
  = Ok (concat (replicate 3
          [EvWrite cout ("1," ++ String dquote ("x" ++ String dquote ",NULL"));
           EvWrite cout (String "010" "")])).
Proof.
  apply (@constants_only_result reference_runtime (example_world print_constants)
           example_module (example_context print_constants)
           (PrintOperator cout) constant_schema [select_constants]
           [(ConstantExpr (CInt 1), None); (ConstantExpr (CString "x"), None);
            (ConstantExpr CNull, None)] 0 3);
    try reflexivity.
  - intros [|[|[|i]]] e H; try discriminate; eexists; reflexivity.
  - intros out _ [|[|[|i]]] e H; try discriminate; injection H as <-; eexists; reflexivity.
  - by right.
Defined.










Lemma store_row_lookup (f : nat → option Value) (a n : nat) (dst : Tuple) (j : nat) :
  foldl (fun t i => <[i := f i]> t) dst (seq a n) !! j
  = if bool_decide (a ≤ j)%nat && bool_decide (j < a + n)%nat && bool_decide (j < length dst)%nat
    then Some (f j) else dst !! j.
Proof.
  revert a dst. induction n as [|n IH]; intros a dst.
  - cbn [seq foldl]. destruct (decide (a ≤ j)%nat).
    + rewrite (bool_decide_eq_false_2 (j < a + 0)%nat) by lia. by rewrite andb_false_r.
    + by rewrite (bool_decide_eq_false_2 (a ≤ j)%nat) by lia.
  - cbn [seq foldl]. rewrite IH, length_insert.
    destruct (decide (j = a)) as [->|Hne].
    + rewrite (bool_decide_eq_false_2 (S a ≤ a)%nat) by lia. cbn [andb].
      rewrite (bool_decide_eq_true_2 (a ≤ a)%nat) by lia.
      rewrite (bool_decide_eq_true_2 (a < a + S n)%nat) by lia. cbn [andb].
      case_bool_decide.
      * by rewrite list_lookup_insert_eq.
      * by rewrite list_insert_ge by lia.
    + rewrite list_lookup_insert_ne by done.
      destruct (decide (a < j)%nat).
      * rewrite !(bool_decide_eq_true_2 (_ ≤ j)%nat) by lia.
        by replace (S a + n)%nat with (a + S n)%nat by lia.
      * by rewrite !(bool_decide_eq_false_2 (_ ≤ j)%nat) by lia.
Qed.

Lemma store_row_spec (width : nat) (src dst : Tuple) :
  length dst = width →
  store_row width src dst = (fun i => default None (src !! i)) <$> seq 0 width.
Proof.
  intros Hlen. apply list_eq. intros j. unfold store_row.
  rewrite (store_row_lookup (fun i => default None (src !! i))).
  rewrite list_lookup_fmap. rewrite (bool_decide_eq_true_2 (0 ≤ j)%nat) by lia. cbn [andb].
  destruct (decide (j < width)%nat) as [Hlt|Hge].
  - rewrite !bool_decide_eq_true_2 by lia. cbn [andb].
    rewrite lookup_seq_lt by done. done.
  - rewrite (bool_decide_eq_false_2 (j < 0 + width)%nat) by lia. cbn [andb].
    rewrite lookup_seq_ge by lia. cbn. apply lookup_ge_None. lia.
Qed.

Section MachineFacts.
Context {RT : HostRuntime}.




End MachineFacts.




Section DedupFacts.
Context {RT : HostRuntime}.


End DedupFacts.



Section DedupRows.
Context {RT : HostRuntime}.


End DedupRows.



Section PrinterFacts.
Context {RT : HostRuntime}.







End PrinterFacts.

Section PrintedRows.
Context {RT : HostRuntime}.







End PrintedRows.

Lemma concat_empty_cons (x : string) (xs : list string) :
  String.concat "" (x :: xs) = (x ++ String.concat "" xs)%string.
Proof. destruct xs; cbn [String.concat]; [by rewrite append_empty_r|reflexivity]. Qed.

Section DedupClaim.
Context {RT : HostRuntime}.


End DedupClaim.


Lemma read_result_set_no_tuples_witness :
  @read_result_set reference_runtime (example_world callback_id_id)
     [V8Uint32 0; V8Uint32 0] = Ok [].
Proof.
  apply (@read_result_set_no_tuples reference_runtime (example_world callback_id_id)
           example_module (example_context callback_id_id)); reflexivity.
Defined.

Lemma offset_assertion_skipped_without_tuples :
  payload_of (schema (get_matched_root print_id_id)) = [id_column]
  ∧ @read_result_set reference_runtime (example_world print_id_id)
       [V8Uint32 0; V8Uint32 0] = Ok [].
Proof. split; reflexivity. Qed.

Lemma read_result_set_offset_assertion_witness :
  @read_result_set reference_runtime (example_world print_id_id)
     [V8Uint32 0; V8Uint32 1] = Fatal offset_assertion.
Proof.
  apply (@read_result_set_offset_assertion reference_runtime (example_world print_id_id)
           example_module (example_context print_id_id)); try reflexivity.
  - discriminate.
  - intros [H _]. specialize (H eq_refl). discriminate.
Defined.

Lemma execute_cleans_up_witness :
  contexts completed_run.1.1 = contexts idle_world
  ∧ size (contexts completed_run.1.1) = size (contexts idle_world)
  ∧ the_module completed_run.1.1 = None
  ∧ the_codegen completed_run.1.1 = None
  ∧ isolate_depth completed_run.1.1 = isolate_depth idle_world.
Proof.
  apply (@execute_cleans_up reference_runtime default_options one_row_guest print_id_id
           idle_world completed_run.1.1 completed_run.1.2).
  - reflexivity.
  - reflexivity.
  - vm_compute. reflexivity.
Defined.

Lemma execute_leaks_context_on_throw :
  invalid_run.2 = Raise "invalid module"
  ∧ size (contexts idle_world) = 0%nat
  ∧ size (contexts invalid_run.1.1) = 1%nat
  ∧ is_Some (the_module invalid_run.1.1)
  ∧ isolate_depth idle_world = 0%nat
  ∧ isolate_depth invalid_run.1.1 = 1%nat
  ∧ debugged_run.2 = Ok tt
  ∧ size (contexts debugged_run.1.1) = 1%nat
  ∧ is_Some (the_module debugged_run.1.1)
  ∧ isolate_depth debugged_run.1.1 = 1%nat
  ∧ (∃ what, failed_run.2 = Fatal what).
Proof. vm_compute. repeat split; eauto. Qed.

Lemma execute_print_trailer_witness :
  ∃ evs_main,
    completed_run.1.2
    = evs_main ++ [EvReturn 1; EvWrite cout "1"; EvWrite cout (" rows" ++ String "010" "")]
    ∧ written cout completed_run.1.2
      = (written cout evs_main ++ "1 rows" ++ String "010" "")%string.
Proof.
  apply (@execute_print_trailer reference_runtime default_options one_row_guest print_id_id
           idle_world completed_run.1.1 completed_run.1.2 cout).
  - reflexivity.
  - reflexivity.
  - reflexivity.
  - vm_compute. reflexivity.
Defined.

Lemma print_trailer_skipped_under_inspector :
  kind (get_matched_root print_id_id) = PrintOperator cout
  ∧ quiet debug_options = false
  ∧ debugged_run.2 = Ok tt
  ∧ debugged_run.1.2
    = [EvRead 8192 0; EvWrite cout "7"; EvWrite cout ","; EvWrite cout "7";
       EvWrite cout (String "010" "")]
  ∧ no_return debugged_run.1.2
  ∧ written cout debugged_run.1.2 = ("7,7" ++ String "010" "")%string.
Proof. vm_compute. repeat split; repeat constructor. Qed.

Lemma execute_noop_trailer_witness :
  ∃ evs_main,
    noop_run.1.2
    = evs_main ++ [EvReturn 1; EvWrite cout "1"; EvWrite cout (" rows" ++ String "010" "")]
    ∧ written cout noop_run.1.2
      = (written cout evs_main ++ "1 rows" ++ String "010" "")%string.
Proof.
  apply (@execute_noop_trailer reference_runtime default_options one_row_guest noop_id_id
           idle_world noop_run.1.1 noop_run.1.2 cout).
  - reflexivity.
  - reflexivity.
  - reflexivity.
  - reflexivity.
  - vm_compute. reflexivity.
Defined.

Lemma noop_trailer_skipped_under_inspector :
  kind (get_matched_root noop_id_id) = NoOpOperator cout
  ∧ quiet debug_options = false
  ∧ debugged_noop_run.2 = Ok tt
  ∧ debugged_noop_run.1.2 = []
  ∧ written cout debugged_noop_run.1.2 = "".
Proof. vm_compute. repeat split. Qed.

Lemma create_env_literals_witness :
  ∃ W' env ctx' cg',
    @create_env reference_runtime literal_plan (example_world literal_plan) = (W', [], Ok env)
    ∧ contexts W' !! 0%N = Some ctx'
    ∧ the_codegen W' = Some cg'
    ∧ NoDup ["xy"; "abc"]
    ∧ load_bytes (vm ctx') 4096 7 = ("xy" ++ String NUL ("abc" ++ String NUL ""))%string
    ∧ (4096 + 7 ≤ heap ctx')%N
    ∧ ∀ s, s ∈ ["xy"; "abc"] →
        ∃ off, cg' !! s = Some off
               ∧ (4096 ≤ off)%N
               ∧ (off + N.of_nat (S (String.length s)) ≤ 4096 + 7)%N
               ∧ load_bytes (vm ctx') off (S (String.length s)) = (s ++ String NUL "")%string.
Proof.
  apply (@create_env_literals reference_runtime (example_world literal_plan) example_module
           (example_context literal_plan) ∅ literal_plan ["xy"; "abc"]);
    try reflexivity.
  repeat constructor; discriminate.
Defined.

(** ** Further properties *)

(** *** The events of a result set *)

Tactic Notation "bind_split" hyp(H) "as" simple_intropattern(x) simple_intropattern(Hx) :=
  apply result_bind_Ok in H as (x & Hx & H).

Lemma for_rows_inv (I : list Tuple → Prop) (Q : nat → list event → Prop)
    (n i : nat) (args : list Tuple)
    (body : nat → list Tuple → result (list Tuple * list event)) (evs : list event) :
  I args →
  (∀ r a a' row, I a → body r a = Ok (a', row) → I a' ∧ Q r row) →
  for_rows n i args body = Ok evs →
  ∃ rows, evs = concat rows ∧ Forall2 Q (seq i n) rows.
Proof.
  intros HI Hbody. revert i args evs HI. induction n as [|n IH]; intros i args evs HI H.
  - injection H as <-. exists []. split; [done|constructor].
  - cbn [for_rows] in H. bind_inv H. destruct a as [args' row].
    bind_inv H. injection H as <-.
    destruct (Hbody i args args' row HI Ha) as [HI' HQ].
    destruct (IH (S i) args' a HI' Ha0) as (rows & -> & Hrows).
    exists (row :: rows). split; [done|]. cbn [seq]. by constructor.
Qed.

Lemma length_store_row (width : nat) (src dst : Tuple) :
  length (store_row width src dst) = length dst.
Proof.
  unfold store_row. generalize (seq 0 width). intros l. revert dst.
  induction l as [|i l IH]; intros dst; [done|]. cbn [foldl]. by rewrite IH, length_insert.
Qed.

Lemma fmap_length_insert (ts : list Tuple) (i : nat) (t t' : Tuple) :
  ts !! i = Some t → length t' = length t →
  length <$> <[i := t']> ts = length <$> ts.
Proof.
  intros Hi Hlen. rewrite list_fmap_insert, Hlen. apply list_insert_id.
  by rewrite list_lookup_fmap, Hi.
Qed.

Section MachineEvents.
Context {RT : HostRuntime}.

Lemma exec_events (M : StackMachine) (r : nat) (op : Instr) (st st' : MachineState) :
  exec M r op st = Ok st' →
  length <$> tuples st' = length <$> tuples st
  ∧ ∃ evs,
      trace st' = trace st ++ evs
      ∧ if is_load op then evs = [EvRead (sm_address M) r]
        else machine_writes (context M) evs.
Proof.
  intros H. destruct op; cbn [exec] in H; cbn [is_load].
  - destruct (tuples st !! 0%nat) as [t|] eqn:Ht; [|done]. injection H as <-. cbn [tuples trace].
    split; [|by eexists].
    apply (fmap_length_insert _ _ t); [exact Ht|apply length_store_row].
  - destruct (tuples st !! tuple_id ≫= (.!! index)); [|done]. injection H as <-.
    split; [done|]. exists []. split; [by rewrite app_nil_r|constructor].
  - destruct (tuples st !! tuple_id) as [t|] eqn:Ht; [|done]. destruct (is_none type).
    + injection H as <-. cbn [tuples trace]. split.
      * apply (fmap_length_insert _ _ t); [exact Ht|]. unfold Tuple_null. by rewrite length_insert.
      * exists []. split; [by rewrite app_nil_r|constructor].
    + destruct (stack st); [done|]. injection H as <-. cbn [tuples trace]. split.
      * apply (fmap_length_insert _ _ t); [exact Ht|]. by rewrite length_insert.
      * exists []. split; [by rewrite app_nil_r|constructor].
  - destruct (stack st); [done|]. injection H as <-.
    split; [done|]. exists []. split; [by rewrite app_nil_r|constructor].
  - injection H as <-. split; [done|]. exists []. split; [by rewrite app_nil_r|constructor].
  - injection H as <-. split; [done|]. exists []. split; [by rewrite app_nil_r|constructor].
  - destruct (context M !! index) as [os|] eqn:Hos; [|done]. injection H as <-.
    split; [done|]. eexists. split; [reflexivity|]. constructor; [|constructor].
    exists os, (String c ""). split; [done|]. by eapply list_elem_of_lookup_2.
  - destruct (context M !! index) as [os|] eqn:Hos; [|done].
    destruct (stack st) as [|top rest]; [done|]. bind_inv H. injection H as <-.
    split; [done|]. eexists. split; [reflexivity|]. constructor; [|constructor].
    exists os, a. split; [done|]. by eapply list_elem_of_lookup_2.
Qed.

Lemma exec_all_events (M : StackMachine) (r : nat) (code : list Instr)
    (st st' : MachineState) :
  Forall (fun op => is_load op = false) code →
  exec_all M r code st = Ok st' →
  length <$> tuples st' = length <$> tuples st
  ∧ ∃ evs, trace st' = trace st ++ evs ∧ machine_writes (context M) evs.
Proof.
  intros Hcode. revert st. induction Hcode as [|op code Hop Hcode IH]; intros st H.
  - injection H as <-. split; [done|]. exists []. split; [by rewrite app_nil_r|constructor].
  - cbn [exec_all] in H. bind_inv H.
    destruct (exec_events _ _ _ _ _ Ha) as (Hlen1 & evs1 & Htr1 & Hev1). rewrite Hop in Hev1.
    destruct (IH _ H) as (Hlen2 & evs2 & Htr2 & Hev2).
    split; [by rewrite Hlen2|]. exists (evs1 ++ evs2).
    split; [by rewrite Htr2, Htr1, app_assoc|]. by apply Forall_app.
Qed.

(** One invocation of a machine that loads a row and then runs code without
    further loads. *)
Lemma invoke_events (M : StackMachine) (code : list Instr) (r : nat)
    (args args' : list Tuple) (evs : list event) :
  ops M = Load_Row :: code →
  Forall (fun op => is_load op = false) code →
  invoke M r args = Ok (args', evs) →
  length <$> args' = length <$> args
  ∧ ∃ writes, evs = EvRead (sm_address M) r :: writes ∧ machine_writes (context M) writes.
Proof.
  intros Hops Hcode H. unfold invoke in H. rewrite Hops in H. bind_inv H.
  injection H as <- <-. cbn [exec_all] in Ha. bind_inv Ha.
  destruct (exec_events _ _ _ _ _ Ha0) as (Hlen1 & evs1 & Htr1 & Hev1).
  cbn [is_load trace tuples app] in *. subst evs1.
  destruct (exec_all_events _ _ _ _ _ Hcode Ha) as (Hlen2 & evs2 & Htr2 & Hev2).
  split; [by rewrite Hlen2|]. exists evs2. by rewrite Htr2, Hev1.
Qed.

Lemma exec_texts (M : StackMachine) (out : ostream) (r : nat) (op : Instr)
    (st st' : MachineState) :
  context M = [out] →
  is_load op = false →
  exec M r op st = Ok st' →
  ∃ texts, trace st' = trace st ++ (EvWrite out <$> texts)
           ∧ Forall2 fits (written_by op) texts.
Proof.
  intros HM Hop H. destruct op; cbn [exec] in H; cbn [written_by]; try done.
  - destruct (tuples st !! tuple_id ≫= (.!! index)); [|done]. injection H as <-.
    exists []. split; [by rewrite app_nil_r|constructor].
  - destruct (tuples st !! tuple_id) as [t|]; [|done]. destruct (is_none type).
    + injection H as <-. exists []. split; [by rewrite app_nil_r|constructor].
    + destruct (stack st); [done|]. injection H as <-.
      exists []. split; [by rewrite app_nil_r|constructor].
  - destruct (stack st); [done|]. injection H as <-.
    exists []. split; [by rewrite app_nil_r|constructor].
  - injection H as <-. exists []. split; [by rewrite app_nil_r|constructor].
  - injection H as <-. exists []. split; [by rewrite app_nil_r|constructor].
  - rewrite HM in H. destruct index as [|index]; [|done]. injection H as <-.
    exists [String c ""]. split; [done|]. by repeat constructor.
  - rewrite HM in H. destruct index as [|index]; [|done]. cbn [lookup list_lookup] in H.
    destruct (stack st) as [|top rest]; [done|]. bind_inv H. injection H as <-.
    exists [a]. split; [done|]. by repeat constructor.
Qed.

Lemma exec_all_texts (M : StackMachine) (out : ostream) (r : nat) (code : list Instr)
    (st st' : MachineState) :
  context M = [out] →
  Forall (fun op => is_load op = false) code →
  exec_all M r code st = Ok st' →
  ∃ texts, trace st' = trace st ++ (EvWrite out <$> texts)
           ∧ Forall2 fits (flat_map written_by code) texts.
Proof.
  intros HM Hcode. revert st. induction Hcode as [|op code Hop Hcode IH]; intros st H.
  - injection H as <-. exists []. split; [by rewrite app_nil_r|constructor].
  - cbn [exec_all] in H. bind_inv H.
    destruct (exec_texts _ _ _ _ _ _ HM Hop Ha) as (texts1 & Htr1 & Hf1).
    destruct (IH _ H) as (texts2 & Htr2 & Hf2).
    exists (texts1 ++ texts2). split.
    + by rewrite Htr2, Htr1, fmap_app, app_assoc.
    + cbn [flat_map]. by apply Forall2_app.
Qed.

(** One invocation of a machine with the one stream [out] that loads a row
    and then runs code without further loads: the texts written fit the
    instructions of the code. *)
Lemma invoke_texts (M : StackMachine) (out : ostream) (code : list Instr) (r : nat)
    (args args' : list Tuple) (evs : list event) :
  context M = [out] →
  ops M = Load_Row :: code →
  Forall (fun op => is_load op = false) code →
  invoke M r args = Ok (args', evs) →
  ∃ texts, evs = EvRead (sm_address M) r :: (EvWrite out <$> texts)
           ∧ Forall2 fits (flat_map written_by code) texts.
Proof.
  intros HM Hops Hcode H. unfold invoke in H. rewrite Hops in H. bind_inv H.
  injection H as <- <-. cbn [exec_all] in Ha. bind_inv Ha.
  destruct (exec_events _ _ _ _ _ Ha0) as (_ & evs1 & Htr1 & Hev1).
  cbn [is_load trace tuples app] in *. subst evs1.
  destruct (exec_all_texts _ _ _ _ _ _ HM Hcode Ha) as (texts & Htr2 & Hf).
  exists texts. by rewrite Htr2, Hev1.
Qed.

End MachineEvents.

Lemma separated_succ (i j : nat) (fields : list string) :
  separated (S i) fields = separated (S j) fields.
Proof.
  revert i j. induction fields as [|f fields IH]; intros i j; [done|].
  cbn [separated Nat.eqb]. by rewrite (IH (S i) (S j)).
Qed.

Lemma separated_concat (fields : list string) :
  separated 0 fields = String.concat "," fields.
Proof.
  assert (H : ∀ fs, fs ≠ [] → separated 1 fs = ("," ++ String.concat "," fs)%string).
  { induction fs as [|g gs IH]; intros Hne; [done|]. cbn [separated Nat.eqb].
    destruct gs as [|g' gs].
    - cbn [separated String.concat]. by rewrite append_empty_r.
    - rewrite (separated_succ 1 0), IH by done. reflexivity. }
  destruct fields as [|f fs]; [done|]. cbn [separated Nat.eqb].
  destruct fs as [|g gs].
  - cbn [separated String.concat]. by rewrite append_empty_r.
  - rewrite H by done. reflexivity.
Qed.

(** Texts that fit the writes of [n] columns from column [i] on are fields
    with their commas. *)
Lemma fits_fields (n i : nat) (texts : list string) :
  Forall2 fits (flat_map column_writes (seq i n)) texts →
  ∃ fields, length fields = n ∧ String.concat "" texts = separated i fields.
Proof.
  revert i texts. induction n as [|n IH]; intros i texts H.
  - apply Forall2_nil_inv_l in H as ->. by exists [].
  - cbn [seq flat_map] in H. unfold column_writes at 1 in H.
    destruct (i =? 0)%nat eqn:Hi; cbn [app] in H.
    + apply Forall2_cons_inv_l in H as (f & texts' & _ & H & ->).
      destruct (IH _ _ H) as (fields & Hlen & Hcat).
      exists (f :: fields). split; [by rewrite <- Hlen|].
      rewrite concat_empty_cons, Hcat. cbn [separated]. by rewrite Hi.
    + apply Forall2_cons_inv_l in H as (c & texts1 & Hc & H & ->).
      apply Forall2_cons_inv_l in H as (f & texts' & _ & H & ->).
      destruct (IH _ _ H) as (fields & Hlen & Hcat).
      exists (f :: fields). split; [by rewrite <- Hlen|].
      rewrite !concat_empty_cons, Hcat. cbn [separated]. rewrite Hi.
      cbn [fits] in Hc. by rewrite Hc.
Qed.

Lemma machine_writes_nil (evs : list event) : machine_writes [] evs → evs = [].
Proof.
  intros H. destruct evs as [|ev evs]; [done|]. apply Forall_cons in H as [(os & text & _ & Hin) _].
  by apply elem_of_nil in Hin.
Qed.

Lemma emit_stores_no_load (s : list Entry) (j : nat) (entry : Entry) (code : list Instr) :
  emit_stores s j entry = Ok code → Forall (fun op => is_load op = false) code.
Proof.
  revert j code. induction s as [|e s IH]; intros j code H.
  - injection H as <-. constructor.
  - cbn [emit_stores] in H. case_bool_decide.
    + bind_inv H. bind_inv H. injection H as <-. constructor; [done|]. by eapply IH.
    + by eapply IH.
Qed.

Lemma emit_copy_no_load (s payload : list Entry) (i : nat) (code : list Instr) :
  emit_copy s payload i = Ok code → Forall (fun op => is_load op = false) code.
Proof.
  revert i code. induction payload as [|entry payload IH]; intros i code H.
  - injection H as <-. constructor.
  - cbn [emit_copy] in H. bind_inv H. bind_inv H. injection H as <-.
    repeat apply Forall_app_2.
    + destruct (is_none _); by repeat constructor.
    + by eapply emit_stores_no_load.
    + destruct (is_none _); by repeat constructor.
    + by eapply IH.
Qed.

Section PrinterCode.
Context {RT : HostRuntime}.

Lemma emit_printer_no_load projection payload ostream_index (s : list Entry) i ce old_idx code :
  emit_printer projection payload ostream_index s i ce old_idx = Ok code →
  Forall (fun op => is_load op = false) code.
Proof.
  revert i ce old_idx code. induction s as [|e s IH]; intros i ce old_idx code H.
  - injection H as <-. destruct old_idx; by repeat constructor.
  - cbn [emit_printer] in H. bind_inv H. destruct a as [[load ce'] old'].
    bind_inv H. injection H as <-.
    assert (Hload : Forall (fun op => is_load op = false) load).
    { destruct (is_none (e_type e)).
      - injection Ha as <- _ _. constructor.
      - destruct (is_constant (e_id e)).
        + bind_inv Ha. injection Ha as <- _ _. by repeat constructor.
        + bind_split Ha as [idx entry] Hat. case_bool_decide.
          * injection Ha as <- _ _. constructor.
          * injection Ha as <- _ _. apply Forall_app_2; [|by repeat constructor].
            destruct old_idx; by repeat constructor. }
    repeat apply Forall_app_2.
    + destruct (i =? 0)%nat; by repeat constructor.
    + exact Hload.
    + unfold emit_Print. destruct (is_none _); by repeat constructor.
    + destruct (_ || _); by repeat constructor.
    + by eapply IH.
Qed.

Lemma emit_printer_writes projection payload ostream_index (s : list Entry) i ce old_idx
    code :
  emit_printer projection payload ostream_index s i ce old_idx = Ok code →
  flat_map written_by code = flat_map column_writes (seq i (length s)).
Proof.
  revert i ce old_idx code. induction s as [|e s IH]; intros i ce old_idx code H.
  - injection H as <-. by destruct old_idx.
  - cbn [emit_printer] in H. bind_inv H. destruct a as [[load ce'] old'].
    bind_inv H. injection H as <-.
    assert (Hload : flat_map written_by load = []).
    { destruct (is_none (e_type e)).
      - by injection Ha as <- _ _.
      - destruct (is_constant (e_id e)).
        + bind_inv Ha. by injection Ha as <- _ _.
        + bind_split Ha as [idx entry] Hat. case_bool_decide.
          * by injection Ha as <- _ _.
          * injection Ha as <- _ _. by destruct old_idx. }
    rewrite !flat_map_app, Hload, (IH _ _ _ _ Ha0). cbn [length seq flat_map].
    unfold column_writes at 2. rewrite <- !app_assoc. f_equal.
    + by destruct (i =? 0)%nat.
    + unfold emit_Print. by destruct (is_none (e_type e)), ce'.
Qed.

End PrinterCode.

Section ConstantLines.
Context {RT : HostRuntime}.

Lemma constant_line_fields projections (s : list Entry) (i : nat) (tup line : string) :
  constant_line projections s i tup = Ok line →
  ∃ fields, length fields = length s ∧ line = (tup ++ separated i fields)%string.
Proof.
  revert i tup. induction s as [|e s IH]; intros i tup H.
  - injection H as <-. exists []. by rewrite append_empty_r.
  - cbn [constant_line] in H. bind_split H as [] _. bind_split H as p _.
    bind_split H as c _. bind_split H as text _.
    destruct (IH _ _ H) as (fields & Hlen & ->).
    exists (text :: fields). split; [cbn [length]; by rewrite Hlen|].
    cbn [separated]. destruct (i =? 0)%nat; by rewrite !append_assoc.
Qed.

End ConstantLines.

Lemma constant_tuple_length projections (s : list Entry) i (tup t : Tuple) :
  constant_tuple projections s i tup = Ok t → length t = length tup.
Proof.
  revert i tup. induction s as [|e s IH]; intros i tup H.
  - by injection H as <-.
  - cbn [constant_tuple] in H. destruct (is_none (e_type e)); [by eapply IH|].
    bind_inv H. bind_inv H. bind_inv H. apply IH in H. rewrite H.
    unfold Tuple_set. by rewrite length_insert.
Qed.

Lemma plant_constants_length projection (s : list Entry) i (tup t : Tuple) :
  plant_constants projection s i tup = Ok t → length t = length tup.
Proof.
  revert i tup. induction s as [|e s IH]; intros i tup H.
  - by injection H as <-.
  - cbn [plant_constants] in H. destruct (is_none (e_type e)); [by eapply IH|].
    destruct (is_constant (e_id e)); [|by eapply IH].
    bind_inv H. apply IH in H. rewrite H. unfold Tuple_set. by rewrite length_insert.
Qed.

Section ReaderRows.
Context {RT : HostRuntime}.

(** The structure of what a successful invocation emits: one group of events
    per row, in row order. *)
Lemma read_result_set_rows (W : World) (M : Module) (ctx : WasmContext)
    (offset count : N) (evs : list event) :
  the_module W = Some M →
  contexts W !! module_id M = Some ctx →
  read_result_set W [V8Uint32 offset; V8Uint32 count] = Ok evs →
  let root_op := get_matched_root (plan ctx) in
  match kind root_op with
  | CallbackOperator _ | PrintOperator _ =>
      ∃ rows,
        evs = concat rows
        ∧ Forall2 (row_shape (kind root_op) (schema root_op) offset
                     (bool_decide (payload_of (schema root_op) ≠ [])))
            (seq 0 (N.to_nat count)) rows
  | _ => evs = []
  end.
Proof.
  intros HM Hctx H root_op.
  unfold read_result_set, Module_ID, Module_Get, Get_Wasm_Context_By_ID, arg_Uint32 in H.
  rewrite HM in H. cbn [mbind result_bind] in H. rewrite Hctx in H.
  cbn [mbind result_bind lookup list_lookup] in H. fold root_op in H.
  fold (payload_of (schema root_op)) in H.
  set (s := schema root_op) in *. set (payload := payload_of s) in *.
  destruct (N.eqb_spec count 0) as [->|Hcount].
  { injection H as <-. destruct (kind root_op); try done; exists []; split; try done; constructor. }
  bind_split H as [] _. bind_split H as [] Hassert. bind_split H as projection Hproj.
  unfold num_entries in H.
  destruct payload as [|entry0 payload0] eqn:Hpayload; cbn [length Nat.eqb] in H.
  - (* constants only *)
    rewrite bool_decide_eq_false_2 by (intros Hne; by apply Hne).
    destruct projection as [projections|]; [|done].
    destruct (kind root_op) as [| callback | out | | | | | | | | |]; try (by injection H as <-).
    + bind_split H as tup Htup. apply constant_tuple_length in Htup.
      eapply (for_rows_inv (fun _ => True)); [done| |exact H].
      intros r a a' row _ [= <- <-]. split; [done|]. exists [EvCallback callback s tup].
      split; [done|]. exists tup. split; [done|]. rewrite Htup. unfold Tuple_new, num_entries.
      by rewrite length_replicate.
    + bind_split H as tup Htup.
      apply constant_line_fields in Htup as (fields & Hlen & ->).
      eapply (for_rows_inv (fun _ => True)); [done| |exact H].
      intros r a a' row _ [= <- <-]. split; [done|]. eexists. split; [reflexivity|].
      eexists [_], fields. split; [reflexivity|]. split; [exact Hlen|].
      by rewrite <- separated_concat.
  - (* a payload *)
    rewrite bool_decide_eq_true_2 by done.
    destruct (result_set_factory ctx) as [factory|]; [|done].
    destruct (kind root_op) as [| callback | out | | | | | | | | |]; try (by injection H as <-).
    + destruct (length s =? length (deduplicate s))%nat.
      * bind_split H as [] _. bind_split H as tup Htup. apply plant_constants_length in Htup.
        eapply (for_rows_inv (fun args => ∃ t, args = [t] ∧ length t = length s));
          [| |exact H].
        { exists tup. split; [done|]. rewrite Htup. unfold Tuple_new, num_entries.
          by rewrite length_replicate. }
        intros r a a' row (t & -> & Hlen) Hb. bind_split Hb as [args1 evs1] Hinv.
        apply (invoke_events _ []) in Hinv as (Hlens & writes & -> & Hw);
          [|reflexivity|constructor].
        apply machine_writes_nil in Hw as ->.
        destruct args1 as [|t1 [|? ?]]; try discriminate Hlens.
        injection Hlens as Hlen1. injection Hb as <- <-. split.
        -- exists (Tuple_clear t1). split; [done|]. unfold Tuple_clear.
           rewrite length_replicate. congruence.
        -- exists [EvCallback callback s t1]. split; [done|]. exists t1. split; [done|]. congruence.
      * bind_split H as tup Htup. apply plant_constants_length in Htup.
        bind_split H as code Hcode. apply emit_copy_no_load in Hcode.
        eapply (for_rows_inv (fun args => ∃ t0 t1, args = [t0; t1] ∧ length t1 = length s));
          [| |exact H].
        { eexists _, tup. split; [done|]. rewrite Htup. unfold Tuple_new, num_entries.
          by rewrite length_replicate. }
        intros r a a' row (t0 & t1 & -> & Hlen) Hb. bind_split Hb as [args1 evs1] Hinv.
        apply (invoke_events _ code) in Hinv as (Hlens & writes & -> & Hw);
          [|reflexivity|exact Hcode].
        apply machine_writes_nil in Hw as ->.
        destruct args1 as [|t0' [|t1' [|? ?]]]; try discriminate Hlens.
        injection Hlens as Hlen0 Hlen1. cbn [lookup list_lookup] in Hb.
        injection Hb as <- <-. split.
        -- exists t0', t1'. split; [done|]. congruence.
        -- exists [EvCallback callback s t1']. split; [done|]. exists t1'. split; [done|].
           congruence.
    + unfold add in H. bind_split H as code Hcode.
      pose proof (emit_printer_writes _ _ _ _ _ _ _ _ Hcode) as Hwrites.
      apply emit_printer_no_load in Hcode.
      eapply (for_rows_inv (fun _ => True)); [done| |exact H].
      intros r a a' row _ Hb. bind_split Hb as [args1 evs1] Hinv.
      apply (invoke_texts _ out code) in Hinv as (texts & -> & Hfit);
        [|reflexivity|reflexivity|exact Hcode].
      rewrite Hwrites in Hfit. apply fits_fields in Hfit as (fields & Hlen & Hcat).
      injection Hb as <- <-. split; [done|]. eexists. split; [reflexivity|].
      exists texts, fields. split; [done|]. split; [done|].
      by rewrite Hcat, separated_concat.
Qed.

End ReaderRows.

Lemma filter_is_read_writes (out : ostream) (texts : list string) :
  List.filter is_read (EvWrite out <$> texts) = [].
Proof. induction texts as [|t texts IH]; [done|]. exact IH. Qed.

Lemma row_shape_reads k s offset hp r row :
  row_shape k s offset hp r row →
  List.filter is_read row = if hp then [EvRead offset r] else [].
Proof.
  intros (body & -> & Hbody). rewrite List.filter_app.
  assert (Hb : List.filter is_read body = []).
  { destruct k; try done.
    - by destruct Hbody as (t & -> & _).
    - destruct Hbody as (texts & fields & -> & _).
      rewrite List.filter_app, filter_is_read_writes. done. }
  rewrite Hb, app_nil_r. by destruct hp.
Qed.




Section ReaderDiscipline.
Context {RT : HostRuntime}.

(** X1. A successful call [read_result_set(offset, count)] reads the result
    set once per row, in row order and each time at the offset it was given,
    when the root is a callback or print sink whose payload schema is not
    empty; in every other case (a no-op root, a result of constants only) it
    reads nothing. *)
Theorem read_result_set_reads (W : World) (M : Module) (ctx : WasmContext)
    (offset count : N) (evs : list event) :
  the_module W = Some M →
  contexts W !! module_id M = Some ctx →
  read_result_set W [V8Uint32 offset; V8Uint32 count] = Ok evs →
  let root_op := get_matched_root (plan ctx) in
  List.filter is_read evs
  = if is_sink (kind root_op) && bool_decide (payload_of (schema root_op) ≠ [])
    then EvRead offset <$> seq 0 (N.to_nat count)
    else [].
Proof.
  intros HM Hctx H root_op.
  pose proof (read_result_set_rows W M ctx offset count evs HM Hctx H) as Hrows.
  cbv zeta in Hrows. fold root_op in Hrows.
  assert (Hall : ∀ k s hp l rows,
            Forall2 (row_shape k s offset hp) l rows →
            List.filter is_read (concat rows)
            = if hp then EvRead offset <$> l else []).
  { intros k s hp l rows HF. induction HF as [|r row l rows Hrow HF IH].
    - by destruct hp.
    - cbn [concat]. rewrite List.filter_app, IH, (row_shape_reads _ _ _ _ _ _ Hrow).
      by destruct hp. }
  destruct (kind root_op) eqn:Hk; cbn [is_sink andb]; try (by rewrite Hrows).
  - destruct Hrows as (rows & -> & HF). by eapply Hall.
  - destruct Hrows as (rows & -> & HF). by eapply Hall.
Qed.

(** X2. With a callback root, a successful call
    [read_result_set(offset, count)] hands over exactly [count] tuples, each
    as wide as the root's schema, every one to the root's callback and
    together with the root's schema, and writes to no stream. *)
Theorem read_result_set_deliveries (W : World) (M : Module) (ctx : WasmContext)
    (callback : nat) (offset count : N) (evs : list event) :
  the_module W = Some M →
  contexts W !! module_id M = Some ctx →
  kind (get_matched_root (plan ctx)) = CallbackOperator callback →
  read_result_set W [V8Uint32 offset; V8Uint32 count] = Ok evs →
  let s := schema (get_matched_root (plan ctx)) in
  length (delivered evs) = N.to_nat count
  ∧ Forall (fun t => length t = length s) (delivered evs)
  ∧ (∀ cb s' t, EvCallback cb s' t ∈ evs → cb = callback ∧ s' = s)
  ∧ (∀ os, written os evs = "").
Proof.
  intros HM Hctx Hk H s.
  pose proof (read_result_set_rows W M ctx offset count evs HM Hctx H) as Hrows.
  cbv zeta in Hrows. rewrite Hk in Hrows. fold s in Hrows.
  destruct Hrows as (rows & -> & HF).
  rewrite <- (length_seq (N.to_nat count) 0) at 1.
  generalize dependent (seq 0 (N.to_nat count)). intros l HF. clear H.
  induction HF as [|r row l rows Hrow HF IH].
  - split; [done|]. split; [constructor|]. split; [|done].
    intros cb s' t Hin. by apply elem_of_nil in Hin.
  - destruct IH as (IH1 & IH2 & IH3 & IH4).
    destruct Hrow as (body & -> & t & -> & Hlen).
    assert (Hd : delivered ((if bool_decide (payload_of s ≠ []) then [EvRead offset r] else [])
                            ++ [EvCallback callback s t]) = [t]).
    { by destruct (bool_decide _). }
    cbn [concat]. rewrite delivered_app, Hd. cbn [app length].
    split; [by rewrite IH1|]. split; [by constructor|]. split.
    + intros cb s' t' Hin. apply elem_of_app in Hin as [Hin|Hin]; [|by eapply IH3].
      apply elem_of_app in Hin as [Hin|Hin].
      * destruct (bool_decide _); [|by apply elem_of_nil in Hin].
        apply list_elem_of_singleton in Hin. discriminate.
      * apply list_elem_of_singleton in Hin. by injection Hin as -> -> ->.
    + intros os. rewrite written_app, IH4, append_empty_r.
      by destruct (bool_decide _).
Qed.



End ReaderDiscipline.

(** *** The nearest projection, and rows without duplicates or constants *)

Lemma zip_ids (s s' : list Entry) :
  length s = length s' →
  forallb (fun p => bool_decide (e_id p.1 = e_id p.2)) (zip s s') = true →
  e_id <$> s = e_id <$> s'.
Proof.
  revert s'. induction s as [|e s IH]; intros [|e' s'] Hlen H; try done.
  cbn in H. apply andb_true_iff in H as [He H]. apply bool_decide_eq_true in He.
  cbn. rewrite He. f_equal. apply IH; [|done]. by injection Hlen.
Qed.

(** X4. When [find_projection] returns without a failed assertion, it has
    descended from the operator through only children, past operators that
    are not projections and whose schemas carry, position by position, the
    identifiers of the schema of the operator it stops at; it stops at the
    first projection, whose projections it returns, or at an operator that is
    no consumer, where it returns none. *)
Theorem find_projection_nearest (op : Operator) (found : option Projections) :
  find_projection op = Ok found →
  ∃ op',
    way (fun o => is_projection o = false ∧ e_id <$> schema o = e_id <$> schema op') op op'
    ∧ match found with
      | Some projections => kind op' = ProjectionOperator projections
      | None => is_Consumer op' = false
      end.
Proof.
  revert found. induction op as [k s cs IH] using Operator_induction. intros found H.
  destruct k;
    try (match type of H with
         | find_projection (Op ?k _ _) = _ =>
             assert (Hnp : is_projection (Op k s cs) = false) by reflexivity
         end).
  1: { injection H as <-. exists (Op (ScanOperator table) s cs). split; [constructor|done]. }
  7: { injection H as <-. exists (Op (ProjectionOperator projections) s cs).
       split; [constructor|done]. }
  all: cbn [find_projection] in H;
    destruct cs as [|c [|c' cs]]; try discriminate H;
    bind_split H as [] Hlen; bind_split H as [] Hids;
    apply Forall_cons in IH as [IHc _];
    destruct (IHc found H) as (op' & Hway & Hfound);
    exists op'; (split; [|exact Hfound]);
    unfold M_insist in Hlen, Hids;
    destruct (num_entries s =? num_entries (schema c))%nat eqn:Hn; try discriminate Hlen;
    destruct (forallb _ _) eqn:Hz; try discriminate Hids;
    apply Nat.eqb_eq in Hn;
    pose proof (zip_ids s (schema c) Hn Hz) as Heq;
    assert (Hc : e_id <$> schema c = e_id <$> schema op')
      by (inversion Hway; subst; [done|]; by match goal with H : _ ∧ _ |- _ => destruct H end);
    (constructor; [split; [done|]; cbn [schema]; by rewrite Heq|exact Hway]).
Qed.

Lemma dedup_fold_NoDup (s acc : list Entry) :
  NoDup (e_id <$> acc ++ s) → fold_left dedup_step s acc = acc ++ s.
Proof.
  revert acc. induction s as [|e s IH]; intros acc Hnd; cbn [fold_left].
  - by rewrite app_nil_r.
  - unfold dedup_step at 2. destruct (has acc (e_id e)) eqn:Hhas.
    + exfalso. apply has_spec in Hhas as (e' & He' & Hid).
      rewrite fmap_app, fmap_cons in Hnd. apply NoDup_app in Hnd as (_ & Hdisj & _).
      apply (Hdisj (e_id e)); [|by left]. apply list_elem_of_fmap. eauto.
    + rewrite IH; [by rewrite <- app_assoc|]. by rewrite <- app_assoc.
Qed.

Lemma deduplicate_NoDup_id (s : list Entry) : NoDup (e_id <$> s) → deduplicate s = s.
Proof. intros H. rewrite deduplicate_fold. by rewrite dedup_fold_NoDup. Qed.

Lemma payload_of_plain (s : list Entry) :
  NoDup (e_id <$> s) → Forall nonconstant s → payload_of s = s.
Proof.
  intros Hnd Hnc. unfold payload_of. rewrite (deduplicate_NoDup_id s Hnd).
  rewrite drop_constants_filter. induction Hnc as [|e s He Hnc IH]; [done|].
  rewrite filter_cons_True by done. f_equal. apply IH.
  rewrite fmap_cons in Hnd. by apply NoDup_cons in Hnd as [_ ?].
Qed.

Lemma plant_constants_plain projection (s : list Entry) (i : nat) (tup : Tuple) :
  Forall nonconstant s → plant_constants projection s i tup = Ok tup.
Proof.
  intros Hnc. revert i. induction Hnc as [|e s He Hnc IH]; intros i; [done|].
  cbn [plant_constants]. unfold nonconstant in He. rewrite He.
  destruct (is_none (e_type e)); apply IH.
Qed.

Section PlainRows.
Context {RT : HostRuntime}.

Lemma invoke_load (s : list Entry) (memory : Memory) (offset : N) (layout : DataLayout)
    (r : nat) (t : Tuple) :
  length t = length s →
  invoke (compile_load s memory offset layout) r [t]
  = Ok ([loaded_row layout memory offset (length s) r], [EvRead offset r]).
Proof.
  intros Ht. unfold invoke, compile_load.
  cbn [ops exec_all exec tuples lookup list_lookup sm_layout sm_memory sm_address
       sm_width stack trace insert list_insert mbind result_bind app].
  unfold num_entries. by rewrite store_row_spec by done.
Qed.

Lemma for_rows_plain (s : list Entry) (memory : Memory) (offset : N) (layout : DataLayout)
    (callback : nat) (n r : nat) (t : Tuple) :
  length t = length s →
  for_rows n r [t]
    (fun i args =>
       '(args', evs) ← invoke (compile_load s memory offset layout) i args;
       match args' with
       | tup :: _ => Ok ([Tuple_clear tup], evs ++ [EvCallback callback s tup])
       | [] => Fatal "no such tuple"
       end)
  = Ok (flat_map
          (fun r => [EvRead offset r;
                     EvCallback callback s (loaded_row layout memory offset (length s) r)])
          (seq r n)).
Proof.
  revert r t. induction n as [|n IH]; intros r t Ht; [done|].
  cbn [for_rows seq flat_map]. rewrite (invoke_load s memory offset layout r t Ht).
  cbn [mbind result_bind]. rewrite IH.
  - reflexivity.
  - unfold Tuple_clear, loaded_row. by rewrite length_replicate, length_fmap, length_seq.
Qed.

(** X5. For a callback root whose schema is not empty, has pairwise distinct
    identifiers and no constants, [read_result_set(offset, count)] produces
    for each row, in order, the read of the row followed by one call of the
    callback with the root's schema and the row as the data layout decodes
    it. *)
Theorem plain_rows (W : World) (M : Module) (ctx : WasmContext) (callback : nat)
    (s : list Entry) (cs : list Operator) (projection : option Projections)
    (factory : DataLayoutFactory) (offset count : N) :
  the_module W = Some M →
  contexts W !! module_id M = Some ctx →
  get_matched_root (plan ctx) = Op (CallbackOperator callback) s cs →
  NoDup (e_id <$> s) →
  Forall nonconstant s →
  s ≠ [] →
  (count = 0 ∨ offset ≠ 0)%N →
  result_set_factory ctx = Some factory →
  find_projection (Op (CallbackOperator callback) s cs) = Ok projection →
  read_result_set W [V8Uint32 offset; V8Uint32 count]
  = Ok (flat_map
          (fun r => [EvRead offset r;
                     EvCallback callback s (loaded_row (factory s) (vm ctx) offset (length s) r)])
          (seq 0 (N.to_nat count))).
Proof.
  intros HM Hctx Hroot Hnd Hnc Hne Hoffset Hfactory Hproj.
  unfold read_result_set, Module_ID, Module_Get, Get_Wasm_Context_By_ID, arg_Uint32.
  rewrite HM. cbn [mbind result_bind]. rewrite Hctx. cbn [mbind result_bind].
  rewrite Hroot. cbn [schema kind list_lookup lookup].
  fold (payload_of s). rewrite (payload_of_plain s Hnd Hnc), (deduplicate_NoDup_id s Hnd).
  cbn [mbind result_bind].
  destruct (N.eqb_spec count 0) as [Hc|Hc].
  { rewrite Hc. reflexivity. }
  destruct Hoffset as [Hz|Hz]; [done|].
  cbn [length Nat.eqb mbind result_bind].
  destruct (N.eqb_spec offset 0) as [|_]; [done|].
  assert (Hlen : (num_entries s =? 0)%nat = false).
  { apply Nat.eqb_neq. unfold num_entries. destruct s; [done|]. cbn. lia. }
  rewrite Hlen. cbn [eqb M_insist mbind result_bind].
  rewrite Hproj. cbn [mbind result_bind]. rewrite Hfactory.
  rewrite Nat.eqb_refl. rewrite bool_decide_eq_true_2 by done. cbn [mbind result_bind].
  rewrite (plant_constants_plain projection s 0 _ Hnc). cbn [mbind result_bind].
  apply for_rows_plain. unfold Tuple_new, num_entries. by rewrite length_replicate.
Qed.

End PlainRows.

(** *** Index callbacks *)

Lemma mem_size_store_u32 m addr v : mem_size (store_u32 m addr v) = mem_size m.
Proof. reflexivity. Qed.

Lemma mem_byte_store_u32_other m addr v a :
  (a < addr ∨ addr + 4 ≤ a)%N → mem_byte (store_u32 m addr v) a = mem_byte m a.
Proof.
  intros Ha. unfold store_u32, store. cbn [mem_byte].
  rewrite !bool_decide_eq_false_2 by lia. done.
Qed.

Lemma load_u32_ext m m' addr :
  (∀ a, (addr ≤ a < addr + 4)%N → mem_byte m' a = mem_byte m a) →
  load_u32 m' addr = load_u32 m addr.
Proof. intros H. unfold load_u32. rewrite !H by lia. done. Qed.

Lemma load_store_u32 m addr v : load_u32 (store_u32 m addr v) addr = (v mod 2 ^ 32)%N.
Proof.
  unfold load_u32, store_u32, store. cbn [mem_byte].
  rewrite (bool_decide_eq_true_2 (addr + 3 = addr + 3)%N) by done.
  rewrite (bool_decide_eq_false_2 (addr + 2 = addr + 3)%N) by lia.
  rewrite (bool_decide_eq_true_2 (addr + 2 = addr + 2)%N) by done.
  rewrite (bool_decide_eq_false_2 (addr + 1 = addr + 3)%N) by lia.
  rewrite (bool_decide_eq_false_2 (addr + 1 = addr + 2)%N) by lia.
  rewrite (bool_decide_eq_true_2 (addr + 1 = addr + 1)%N) by done.
  rewrite (bool_decide_eq_false_2 (addr = addr + 3)%N) by lia.
  rewrite (bool_decide_eq_false_2 (addr = addr + 2)%N) by lia.
  rewrite (bool_decide_eq_false_2 (addr = addr + 1)%N) by lia.
  rewrite (bool_decide_eq_true_2 (addr = addr)%N) by done.
  rewrite !N_ascii_embedding by (apply N.mod_upper_bound; lia).
  change (2 ^ 32)%N with 4294967296%N.
  zify. Z.to_euclidean_division_equations. lia.
Qed.

Lemma scan_loop_spec (entries : list (Key * N)) (n : nat) :
  ∀ (it : nat) (m : Memory) (base i : N),
  (it + n ≤ length entries)%nat →
  (base + 4 * (i + N.of_nat n) ≤ mem_size m)%N →
  ∃ m',
    scan_loop entries it m base i n = Ok m'
    ∧ mem_size m' = mem_size m
    ∧ (∀ j, (j < n)%nat →
         ∃ key tuple_id,
           entries !! (it + j)%nat = Some (key, tuple_id)
           ∧ load_u32 m' (base + 4 * (i + N.of_nat j)) = (tuple_id mod 2 ^ 32)%N)
    ∧ (∀ a, (a < base + 4 * i ∨ base + 4 * (i + N.of_nat n) ≤ a)%N →
         mem_byte m' a = mem_byte m a).
Proof.
  induction n as [|n IH]; intros it m base i Hit Hmem.
  - exists m. split; [done|]. split; [done|]. split; [intros j Hj; lia|done].
  - cbn [scan_loop].
    destruct (lookup_lt_is_Some_2 entries it) as [[key tuple_id] Hentry]; [lia|].
    rewrite Hentry.
    destruct (N.leb_spec (base + 4 * i + 4) (mem_size m)) as [_|]; [|lia].
    set (m1 := store_u32 m (base + 4 * i) (tuple_id mod 2 ^ 32)).
    destruct (IH (S it) m1 base (i + 1)%N) as (m' & Hloop & Hsize & Hload & Hframe).
    { lia. }
    { subst m1. rewrite mem_size_store_u32. lia. }
    exists m'. split; [exact Hloop|]. split; [by rewrite Hsize|]. split.
    + intros [|j] Hj.
      * exists key, tuple_id. rewrite Nat.add_0_r. split; [done|].
        replace (base + 4 * (i + N.of_nat 0))%N with (base + 4 * i)%N by lia.
        rewrite (load_u32_ext m1 m').
        -- subst m1. rewrite load_store_u32. by rewrite N.Div0.mod_mod.
        -- intros a Ha. apply Hframe. lia.
      * destruct (Hload j) as (key' & tuple_id' & Hj' & Hl); [lia|].
        exists key', tuple_id'. split.
        -- by replace (it + S j)%nat with (S it + j)%nat by lia.
        -- by replace (base + 4 * (i + N.of_nat (S j)))%N
              with (base + 4 * (i + 1 + N.of_nat j))%N by lia.
    + intros a Ha. rewrite Hframe by lia. subst m1.
      apply mem_byte_store_u32_other. lia.
Qed.

Section IndexScan.
Context {RT : HostRuntime}.

(** X6. For an index id naming an index of the callback's class, a batch
    that lies within the index and a buffer of four bytes per entry that lies
    within the linear memory, [index_sequential_scan] succeeds, stores at
    word [j] of the buffer the tuple id of entry [entry_offset + j] as a
    little-endian [uint32_t], and leaves every byte outside the buffer, the
    module and the other contexts as they were. *)
Theorem index_sequential_scan_writes (W : World) (M : Module) (ctx : WasmContext)
    (idx_kind : IndexKind) (kt : KeyType) (index_id : Z)
    (entry_offset address_offset batch_size : N) (index : IndexBase) :
  the_module W = Some M →
  contexts W !! module_id M = Some ctx →
  (0 ≤ index_id < 2 ^ 64)%Z →
  indexes ctx !! Z.to_nat index_id = Some index →
  ib_kind index = idx_kind →
  ib_key_type index = kt →
  (entry_offset + batch_size ≤ N.of_nat (length (ib_entries index)))%N →
  (address_offset + 4 * batch_size ≤ mem_size (vm ctx))%N →
  ∃ W' m',
    index_sequential_scan idx_kind kt W
      [V8BigInt index_id; V8Uint32 entry_offset; V8Uint32 address_offset; V8Uint32 batch_size]
    = Ok W'
    ∧ contexts W' = <[module_id M := with_memory ctx m' (heap ctx)]> (contexts W)
    ∧ the_module W' = the_module W
    ∧ (∀ j, (j < batch_size)%N →
         ∃ key tuple_id,
           ib_entries index !! N.to_nat (entry_offset + j) = Some (key, tuple_id)
           ∧ load_u32 m' (address_offset + 4 * j) = (tuple_id mod 2 ^ 32)%N)
    ∧ (∀ a, (a < address_offset ∨ address_offset + 4 * batch_size ≤ a)%N →
         mem_byte m' a = mem_byte (vm ctx) a).
Proof.
  intros HM Hctx Hid Hidx Hkind Hkt Hentries Hmem.
  destruct (scan_loop_spec (ib_entries index) (N.to_nat batch_size)
              (N.to_nat entry_offset) (vm ctx) address_offset 0)
    as (m' & Hloop & Hsize & Hload & Hframe); [lia|lia|].
  exists (set_contexts (<[module_id M := with_memory ctx m' (heap ctx)]> (contexts W)) W), m'.
  split; [|split; [done|split; [done|split]]].
  - unfold index_sequential_scan, arg_Uint64, arg_Uint32, Module_ID, Module_Get,
      Get_Wasm_Context_By_ID, as_Index.
    cbn [lookup list_lookup mbind result_bind]. rewrite HM. cbn [mbind result_bind].
    rewrite Hctx. cbn [mbind result_bind].
    rewrite Z.mod_small by done.
    replace (N.to_nat (Z.to_N index_id)) with (Z.to_nat index_id) by lia.
    rewrite Hidx. rewrite !bool_decide_eq_true_2 by done. cbn [andb mbind result_bind].
    unfold begin. cbn [Nat.add]. rewrite Hloop. reflexivity.
  - intros j Hj. destruct (Hload (N.to_nat j)) as (key & tuple_id & Hentry & Hl); [lia|].
    exists key, tuple_id. split.
    + by replace (N.to_nat (entry_offset + j)) with (N.to_nat entry_offset + N.to_nat j)%nat
        by lia.
    + rewrite <- Hl. f_equal. lia.
  - intros a Ha. apply Hframe. lia.
Qed.

(** X7. Whenever [index_seek] returns an offset, a module is live and its
    context registered, [info[0]] is a BigInt that names, modulo 2^64, an
    index of the callback's class and key type in that context, [info[1]]
    unpacks to a key, and the offset is the distance from [begin()] to the
    bound of that key in that index, at most the number of its entries. *)
Theorem index_seek_in_range (W : World) (idx_kind : IndexKind) (kt : KeyType)
    (T : V8ValueT) (IsLower : bool) (info : FunctionCallbackInfo) (offset : N) :
  index_seek idx_kind kt T IsLower W info = Ok offset →
  ∃ M ctx index_id key index,
    the_module W = Some M
    ∧ contexts W !! module_id M = Some ctx
    ∧ info !! 0%nat = Some (V8BigInt index_id)
    ∧ unpack_key W kt T info = Ok key
    ∧ indexes ctx !! Z.to_nat (index_id mod 2 ^ 64) = Some index
    ∧ ib_kind index = idx_kind
    ∧ ib_key_type index = kt
    ∧ offset = distance (begin index)
                 (if IsLower then lower_bound index key else upper_bound index key)
    ∧ (offset ≤ N.of_nat (length (ib_entries index)))%N.
Proof.
  unfold index_seek. intros H.
  bind_split H as index_id Hid. bind_split H as key Hkey.
  bind_split H as module_ID HID. bind_split H as context Hctx.
  bind_split H as index Hidx. bind_split H as [] Hfit. injection H as <-.
  destruct (info !! 0%nat) as [v|] eqn:H0; [|done].
  destruct v as [| | | i |]; try done. injection Hid as <-.
  unfold Module_ID, Module_Get in HID. destruct (the_module W) as [M|] eqn:HM; [|done].
  injection HID as <-.
  unfold Get_Wasm_Context_By_ID in Hctx.
  destruct (contexts W !! module_id M) as [ctx|] eqn:Hc; [|done]. injection Hctx as <-.
  unfold as_Index in Hidx. rewrite Z_N_nat in Hidx.
  destruct (indexes ctx !! Z.to_nat (i mod 2 ^ 64)) as [index'|] eqn:Hi; [|done].
  destruct (bool_decide (ib_kind index' = idx_kind)) eqn:Hk; [|done].
  destruct (bool_decide (ib_key_type index' = kt)) eqn:Ht; [|done].
  injection Hidx as ->.
  apply bool_decide_eq_true in Hk, Ht.
  unfold M_insist in Hfit.
  destruct (N.ltb_spec
              (distance (begin index)
                 (if IsLower then lower_bound index key else upper_bound index key))
              (2 ^ 32)) as [Hlt|]; [|done].
  exists M, ctx, i, key, index. repeat (split; [done|]).
  rewrite N.mod_small by done. split; [done|]. unfold distance, begin.
  destruct IsLower.
  - pose proof (lower_bound_le index key). lia.
  - pose proof (upper_bound_le index key). lia.
Qed.

End IndexScan.

(** *** Collected literals and tables *)

Lemma collects_bind f g L1 L2 :
  collects f L1 → collects g L2 → collects (fun acc => f acc ≫= g) (L1 ++ L2).
Proof.
  intros Hf Hg acc acc' H s. bind_split H as acc1 H1.
  rewrite (Hg _ _ H s), (Hf _ _ H1 s), elem_of_app. tauto.
Qed.

Lemma collects_ret : collects Ok [].
Proof. intros acc acc' [= <-] s. rewrite elem_of_nil. tauto. Qed.

Lemma elem_of_emplace (s x : string) (acc : list string) :
  s ∈ emplace x acc ↔ s ∈ acc ∨ s = x.
Proof.
  unfold emplace. case_bool_decide as Hx.
  - split; [by left|]. intros [?| ->]; done.
  - rewrite elem_of_app, list_elem_of_singleton. done.
Qed.

Lemma collect_expr_collects e : collects (collect_expr e) (expr_strings e).
Proof.
  induction e as [| | c | | op e IH | op l IHl r IHr |];
    try (intros acc acc' H s; cbn [collect_expr expr_strings] in *;
         first [discriminate H | injection H as <-; rewrite elem_of_nil; tauto]).
  - intros acc acc' H s. cbn [collect_expr] in H.
    destruct c; cbn [is_string Interpreter_eval as_p mbind result_bind expr_strings] in *;
      try (injection H as <-; rewrite elem_of_nil; tauto).
    injection H as <-. rewrite elem_of_emplace, list_elem_of_singleton. done.
  - exact IH.
  - cbn [expr_strings]. exact (collects_bind _ _ _ _ IHl IHr).
Qed.

Lemma collect_exprs_collects es : collects (collect_exprs es) (flat_map expr_strings es).
Proof.
  induction es as [|e es IH].
  - exact collects_ret.
  - cbn [flat_map]. exact (collects_bind _ _ _ _ (collect_expr_collects e) IH).
Qed.

Lemma collect_operator_collects op : collects (collect_operator op) (plan_strings op).
Proof.
  induction op as [k s cs IH] using Operator_induction.
  assert (Hrec : collects
    ((fix recurse (cs : list Operator) (literals_ : list string) :=
        match cs with
        | [] => Ok literals_
        | c :: cs' => literals_ ← collect_operator c literals_; recurse cs' literals_
        end) cs) (flat_map plan_strings cs)).
  { induction IH as [|c cs Hc _ IHcs].
    - exact collects_ret.
    - cbn [flat_map]. exact (collects_bind _ _ _ _ Hc IHcs). }
  destruct k; cbn [collect_operator plan_strings visited_exprs flat_map app];
    try exact Hrec.
  - exact collects_ret.
  - exact (collects_bind _ _ _ _ (collect_exprs_collects _) Hrec).
  - exact (collects_bind _ _ _ _ (collect_exprs_collects _) Hrec).
  - exact (collects_bind _ _ _ _ (collect_exprs_collects _) Hrec).
  - exact (collects_bind _ _ _ _ (collect_exprs_collects _) Hrec).
  - exact (collects_bind _ _ _ _ (collect_exprs_collects _) Hrec).
Qed.

(** X8. The literals [CollectStringLiterals] returns are pairwise distinct,
    and they are exactly the string constants that occur, below unary and
    binary operators only, in the filter conditions, join predicates,
    projections and grouping keys of the plan. *)
Theorem CollectStringLiterals_exact {RT : HostRuntime} (plan : Operator)
    (literals : list string) :
  CollectStringLiterals plan = Ok literals →
  NoDup literals ∧ ∀ s, s ∈ literals ↔ s ∈ plan_strings plan.
Proof.
  intros H. split; [by eapply CollectStringLiterals_NoDup|].
  unfold CollectStringLiterals in H.
  destruct (collect_operator plan []) as [literals_| |] eqn:Hc; try discriminate.
  injection H as <-. intros s. rewrite iteration_order_perm.
  rewrite (collect_operator_collects plan [] literals_ Hc s), elem_of_nil. tauto.
Qed.

Lemma collects_tables_id : collects_tables (fun acc => acc) [].
Proof.
  intros acc. split; [done|]. split; [by left|]. split; [|done].
  intros t [Ht|Ht]; [|by apply elem_of_nil in Ht]. by apply list_elem_of_fmap_2.
Qed.

Lemma collects_tables_comp f g L1 L2 :
  collects_tables f L1 → collects_tables g L2 →
  collects_tables (fun acc => g (f acc)) (L1 ++ L2).
Proof.
  intros Hf Hg acc. destruct (Hf acc) as (F1 & F2 & F3 & F4).
  destruct (Hg (f acc)) as (G1 & G2 & G3 & G4).
  split; [auto|]. split; [|split].
  - intros t Ht. apply G2 in Ht as [Ht|Ht].
    + apply F2 in Ht as [Ht|Ht]; [by left|]. right. apply elem_of_app. by left.
    + right. apply elem_of_app. by right.
  - intros t [Ht|Ht].
    + apply G3. left. by apply F4.
    + apply elem_of_app in Ht as [Ht|Ht].
      * assert (Hn : t_name t ∈ t_name <$> f acc) by (apply F3; by right).
        apply list_elem_of_fmap in Hn as (t' & Hname & Ht'). rewrite Hname.
        apply G3. by left.
      * apply G3. by right.
  - intros t Ht. by apply G4, F4.
Qed.

Lemma collect_tables_collects op : collects_tables (collect_tables op) (scans op).
Proof.
  induction op as [k s cs IH] using Operator_induction.
  assert (Hrec : collects_tables
    ((fix recurse (cs : list Operator) (tables_ : list Table) :=
        match cs with
        | [] => tables_
        | c :: cs' => recurse cs' (collect_tables c tables_)
        end) cs) (flat_map scans cs)).
  { induction IH as [|c cs Hc _ IHcs].
    - exact collects_tables_id.
    - cbn [flat_map]. exact (collects_tables_comp _ _ _ _ Hc IHcs). }
  destruct k; cbn [collect_tables scans]; try exact Hrec.
  intros acc. case_bool_decide as Hin.
  - split; [done|]. split; [by left|]. split; [|done].
    intros t [Ht|Ht]; [by apply list_elem_of_fmap_2|].
    apply list_elem_of_singleton in Ht as ->. exact Hin.
  - split; [|split; [|split]].
    + intros Hnd. rewrite fmap_app. apply NoDup_app. split; [done|]. split.
      * intros x Hx Hx'. cbn in Hx'. apply list_elem_of_singleton in Hx' as ->.
        apply Hin. exact Hx.
      * apply NoDup_singleton.
    + intros t Ht. apply elem_of_app in Ht as [Ht|Ht]; [by left|by right].
    + intros t Ht. apply list_elem_of_fmap_2. apply elem_of_app. destruct Ht; [by left|by right].
    + intros t Ht. apply elem_of_app. by left.
Qed.

(** X9. The tables [CollectTables] returns have pairwise distinct names,
    each of them is the table of a scan of the plan, and every table the plan
    scans is among them by name. *)
Theorem CollectTables_exact {RT : HostRuntime} (plan : Operator) :
  NoDup (t_name <$> CollectTables plan)
  ∧ (∀ t, t ∈ CollectTables plan → t ∈ scans plan)
  ∧ (∀ t, t ∈ scans plan → t_name t ∈ t_name <$> CollectTables plan).
Proof.
  destruct (collect_tables_collects plan []) as (H1 & H2 & H3 & _).
  unfold CollectTables.
  split; [rewrite iteration_order_perm; apply H1; constructor|]. split.
  - intros t Ht. rewrite iteration_order_perm in Ht.
    destruct (H2 t Ht) as [Hn|]; [by apply elem_of_nil in Hn|done].
  - intros t Ht. rewrite iteration_order_perm. apply H3. by right.
Qed.

Lemma last_char_append (a s : string) : s ≠ "" → last_char (a ++ s) = last_char s.
Proof.
  intros Hs. induction a as [|c a IH]; [done|].
  change (last_char (String c (a ++ s)) = last_char s). cbn [last_char].
  destruct (a ++ s)%string eqn:Has; [|by rewrite <- IH].
  destruct a; [change (s = "") in Has; congruence|discriminate].
Qed.

Lemma append_suffix_inj (a b s : string) : (a ++ s)%string = (b ++ s)%string → a = b.
Proof.
  intros H. assert (Hlen : String.length a = String.length b).
  { apply (f_equal String.length) in H. rewrite !length_append in H. lia. }
  by destruct (append_inj_length a b s s Hlen H).
Qed.

Lemma mem_key_not_rows_key (a b : string) : (a ++ "_mem")%string ≠ (b ++ "_num_rows")%string.
Proof.
  intros H. apply (f_equal last_char) in H.
  rewrite !last_char_append in H by discriminate. discriminate.
Qed.

Lemma map_tables_env (tables : list Table) :
  ∀ (ctx : WasmContext) (env0 : Env),
  NoDup (t_name <$> tables) →
  (∀ t, t ∈ tables →
     env0 !! (t_name t ++ "_mem")%string = None
     ∧ env0 !! (t_name t ++ "_num_rows")%string = None) →
  let env := (map_tables tables ctx env0).2 in
  size env = (size env0 + 2 * length tables)%nat
  ∧ (∀ k v, env0 !! k = Some v → env !! k = Some v)
  ∧ (∀ t, t ∈ tables →
       env !! (t_name t ++ "_num_rows")%string = Some (to_signed 32 (Z.of_N (t_num_rows t)))
       ∧ is_Some (env !! (t_name t ++ "_mem")%string)).
Proof.
  induction tables as [|t tables IH]; intros ctx env0 Hnd Hfresh.
  - cbn. split; [lia|]. split; [done|]. intros t Ht. by apply elem_of_nil in Ht.
  - rewrite fmap_cons in Hnd. apply NoDup_cons in Hnd as [Hnotin Hnd].
    cbn [map_tables]. destruct (map_table ctx t) as [ctx1 off].
    set (env1 := <[(t_name t ++ "_num_rows")%string := _]> (<[(t_name t ++ "_mem")%string := _]> env0)).
    destruct (Hfresh t) as [Hm Hr]; [by left|].
    assert (Hfresh1 : ∀ t', t' ∈ tables →
              env1 !! (t_name t' ++ "_mem")%string = None
              ∧ env1 !! (t_name t' ++ "_num_rows")%string = None).
    { intros t' Ht'. destruct (Hfresh t') as [Hm' Hr']; [by right|].
      assert (Hne : t_name t' ≠ t_name t).
      { intros Heq. apply Hnotin. rewrite <- Heq. by apply list_elem_of_fmap_2. }
      subst env1. split.
      - rewrite lookup_insert_ne by (intros H; symmetry in H; by apply mem_key_not_rows_key in H).
        rewrite lookup_insert_ne by (intros H; apply append_suffix_inj in H; congruence). done.
      - rewrite lookup_insert_ne by (intros H; apply append_suffix_inj in H; congruence).
        rewrite lookup_insert_ne by (intros H; by apply mem_key_not_rows_key in H). done. }
    destruct (IH ctx1 env1 Hnd Hfresh1) as (Hsize & Hmono & Hall).
    split; [|split].
    + rewrite Hsize. subst env1. rewrite map_size_insert_None.
      * rewrite map_size_insert_None by done. cbn [length]. lia.
      * rewrite lookup_insert_ne by (intros H; by apply mem_key_not_rows_key in H). done.
    + intros k v Hk. apply Hmono. subst env1.
      rewrite lookup_insert_ne by (intros <-; congruence).
      rewrite lookup_insert_ne by (intros <-; congruence). done.
    + intros t' Ht'. apply elem_of_cons in Ht' as [->|Ht']; [|by apply Hall].
      split.
      * apply Hmono. subst env1. by rewrite lookup_insert_eq.
      * eexists. apply Hmono. subst env1.
        rewrite lookup_insert_ne by (intros H; symmetry in H; by apply mem_key_not_rows_key in H).
        by rewrite lookup_insert_eq.
Qed.

(** X10. When [create_env] succeeds, the numeric entries of the environment
    it returns are exactly two per table collected from the plan, none
    overwriting another: [<name>_num_rows], the number of rows of the table
    as a signed 32-bit integer, and [<name>_mem]. *)
Theorem create_env_tables {RT : HostRuntime} (p : MatchBase) (W W' : World)
    (evs : list event) (env : Env) :
  create_env p W = (W', evs, Ok env) →
  let tables := CollectTables (get_matched_root p) in
  size env = (2 * length tables)%nat
  ∧ ∀ t, t ∈ tables →
      env !! (t_name t ++ "_num_rows")%string = Some (to_signed 32 (Z.of_N (t_num_rows t)))
      ∧ is_Some (env !! (t_name t ++ "_mem")%string).
Proof.
  intros H tables. unfold create_env, Module_ID, Module_Get, Get_Wasm_Context_By_ID in H.
  destruct (the_module W) as [M|]; [|cbn in H; discriminate]. cbn [mbind result_bind] in H.
  destruct (contexts W !! module_id M) as [ctx|]; [|cbn in H; discriminate].
  cbn [mbind result_bind] in H. fold tables in H.
  assert (Hnd : NoDup (t_name <$> tables)).
  { subst tables. unfold CollectTables. rewrite iteration_order_perm.
    apply (collect_tables_collects (get_matched_root p) []). constructor. }
  pose proof (map_tables_env tables ctx ∅ Hnd) as Henv.
  destruct (map_tables tables ctx ∅) as [ctx1 env1].
  destruct (CollectStringLiterals _) as [literals| |]; try (cbn in H; discriminate).
  cbn [mbind result_bind] in H.
  destruct (the_codegen W) as [cg|]; [|cbn in H; discriminate]. cbn [mbind result_bind] in H.
  destruct (map_literals literals ctx1 cg) as [[ctx' cg']| |]; try (cbn in H; discriminate).
  cbn [mbind result_bind] in H. injection H as <- <- <-.
  destruct Henv as (Hsize & _ & Hall); [by intros t _; rewrite !lookup_empty|].
  cbn [snd] in *. rewrite map_size_empty in Hsize. done.
Qed.

(** *** The driver: runs that complete and runs that do not *)

Lemma same_query_refl ctx : same_query ctx ctx.
Proof. by repeat split. Qed.

Lemma same_query_trans c1 c2 c3 : same_query c1 c2 → same_query c2 c3 → same_query c1 c3.
Proof. intros (?&?&?&?&?) (?&?&?&?&?). repeat split; congruence. Qed.

Lemma same_query_install_guard_page ctx : same_query ctx (install_guard_page ctx).
Proof. unfold install_guard_page. destruct (N.testbit _ _); by repeat split. Qed.

Lemma same_query_map_table ctx table : same_query ctx (map_table ctx table).1.
Proof.
  unfold map_table. cbn [fst].
  eapply same_query_trans; [|apply same_query_install_guard_page]. by repeat split.
Qed.

Lemma same_query_map_tables tables ctx env : same_query ctx (map_tables tables ctx env).1.
Proof.
  revert ctx env. induction tables as [|t tables IH]; intros ctx env.
  - apply same_query_refl.
  - cbn [map_tables]. pose proof (same_query_map_table ctx t) as Ht.
    destruct (map_table ctx t) as [ctx1 off]. eapply same_query_trans; [exact Ht|]. apply IH.
Qed.

Lemma same_query_map_literals literals ctx cg ctx' cg' :
  map_literals literals ctx cg = Ok (ctx', cg') → same_query ctx ctx'.
Proof.
  unfold map_literals. intros H. bind_split H as [] _.
  destruct (_ =? 0)%N.
  - bind_split H as [] _. injection H as <- _. apply same_query_refl.
  - destruct (copy_literals _ _ _ _ _ _) as [[m dst] cg1].
    bind_split H as [] _. injection H as <- _.
    eapply same_query_trans; [|apply same_query_install_guard_page]. by repeat split.
Qed.

Lemma create_env_context {RT : HostRuntime} p W W' evs env :
  create_env p W = (W', evs, Ok env) →
  ∃ M ctx ctx' cg',
    the_module W = Some M
    ∧ contexts W !! module_id M = Some ctx
    ∧ same_query ctx ctx'
    ∧ evs = []
    ∧ W' = set_codegen (Some cg') (set_contexts (<[module_id M := ctx']> (contexts W)) W).
Proof.
  unfold create_env, Module_ID, Module_Get, Get_Wasm_Context_By_ID.
  destruct (the_module W) as [M|] eqn:HM; [|cbn; discriminate]. cbn [mbind result_bind].
  destruct (contexts W !! module_id M) as [ctx|] eqn:Hctx; [|cbn; discriminate].
  cbn [mbind result_bind].
  pose proof (same_query_map_tables (CollectTables (get_matched_root p)) ctx ∅) as Ht.
  destruct (map_tables _ ctx ∅) as [ctx1 env1].
  destruct (CollectStringLiterals _) as [literals| |]; try (cbn; discriminate).
  cbn [mbind result_bind].
  destruct (the_codegen W) as [cg|]; [|cbn; discriminate]. cbn [mbind result_bind].
  destruct (map_literals literals ctx1 cg) as [[ctx' cg']| |] eqn:Hlit; try (cbn; discriminate).
  cbn [mbind result_bind]. intros [= <- <- <-].
  exists M, ctx, ctx', cg'. split; [done|]. split; [done|]. split; [|done].
  eapply same_query_trans; [exact Ht|]. by eapply same_query_map_literals.
Qed.

Section DriverRun.
Context {RT : HostRuntime}.

(** A completed query that the driver ran itself: the state [V] in which the
    guest ran, what the guest's callbacks emitted, and the state left
    behind. *)
Lemma execute_run (O : Options) (G : Guest) (p : MatchBase) (W W' : World)
    (evs : list event) :
  (cdt_port O < 1024)%N →
  inspector_ W = false →
  execute O G p W = (W', evs, Ok tt) →
  ∃ V ctx evs_main,
    the_module W = None
    ∧ the_codegen W = None
    ∧ contexts W !! next_module_id W = None
    ∧ the_module V = Some {| module_id := next_module_id W; messages := g_messages G |}
    ∧ contexts V !! next_module_id W = Some ctx
    ∧ plan ctx = p
    ∧ indexes ctx = g_indexes G
    ∧ result_set_factory ctx = g_result_set_factory G
    ∧ host_calls (g_calls G) V = (V, evs_main, Ok tt)
    ∧ evs = evs_main ++ EvReturn (g_main G) :: trailer O (get_matched_root p) (g_main G)
    ∧ W' = set_module None (next_module_id W + 1) W.
Proof.
  intros Hport Hinsp H. unfold execute in H.
  apply Host_bind_Ok in H as (W1 & e1 & [] & e1' & HInit & H & ->).
  unfold Module_Init in HInit. destruct (the_module W) eqn:HM; [discriminate|].
  injection HInit as <- <-.
  apply Host_bind_Ok in H as (W2 & e2 & [] & e2' & HCG & H & ->).
  unfold CodeGenContext_Init in HCG. cbn [the_codegen set_module] in HCG.
  destruct (the_codegen W) eqn:HC; [discriminate|]. injection HCG as <- <-.
  apply Host_bind_Ok in H as (W3 & e3 & [] & e3' & HI & H & ->).
  unfold lift in HI. injection HI as <- <- HI.
  apply Host_bind_Ok in H as (W4 & e4 & [] & e4' & HE & H & ->).
  unfold modify in HE. injection HE as <- <-.
  apply Host_bind_Ok in H as (W5 & e5 & returned & e5' & HS & H & ->).
  apply scoped_Ok in HS as (W6 & HB & ->).
  (* the block *)
  apply Host_bind_Ok in HB as (V1 & f1 & module_ID & f1' & HID & HB & ->).
  unfold lift, Module_ID, Module_Get in HID. cbn in HID. injection HID as <- <- <-.
  apply Host_bind_Ok in HB as (V2 & f2 & wasm_context & f2' & HCr & HB & ->).
  unfold Create_Wasm_Context_For_ID in HCr. cbn in HCr.
  destruct (contexts W !! next_module_id W) eqn:Hfresh; [discriminate|].
  injection HCr as <- <- <-.
  apply Host_bind_Ok in HB as (V3 & f3 & env & f3' & HEnv & HB & ->).
  apply create_env_context in HEnv as (M1 & ctx0 & ctx1 & cg1 & HM1 & Hctx0 & Hsame & -> & ->).
  cbn in HM1. injection HM1 as <-. cbn [module_id] in *.
  world_simpl Hctx0. rewrite lookup_insert_eq in Hctx0. injection Hctx0 as <-.
  destruct Hsame as (Hid & Hplan & Hconfig & Hindexes & Hfactory). cbn in Hplan.
  apply Host_bind_Ok in HB as (V4 & f4 & [] & f4' & HAl & HB & ->).
  unfold lift in HAl. injection HAl as <- <- _.
  apply Host_bind_Ok in HB as (V5 & f5 & [] & f5' & HCo & HB & ->).
  unfold compile in HCo. world_simpl HCo. rewrite lookup_insert_eq in HCo.
  destruct (g_valid G); [|discriminate]. injection HCo as <- <-.
  apply Host_bind_Ok in HB as (V6 & f6 & [] & f6' & HIn & HB & ->).
  unfold instantiate, lift in HIn. injection HIn as <- <- _.
  apply Host_bind_Ok in HB as (V7 & f7 & [] & f7' & HMo & HB & ->).
  unfold modify in HMo. injection HMo as <- <-.
  apply Host_bind_Ok in HB as (V8 & f8 & inspector & f8' & HGet & HB & ->).
  unfold lift in HGet. injection HGet as <- <- <-.
  destruct (N.leb_spec 1024 (cdt_port O)) as [|_]; [lia|]. cbn in HB.
  rewrite Hinsp in HB.
  apply Host_bind_Ok in HB as (V9 & f9 & num_rows & f9' & HMain & HB & ->).
  unfold call_main in HMain.
  apply Host_bind_Ok in HMain as (X1 & evs_main & [] & x1' & HCalls & HMain & ->).
  pose proof (host_calls_world _ _ _ _ _ HCalls) as ->.
  apply Host_bind_Ok in HMain as (X2 & x2 & [] & x2' & HEv & HMain & ->).
  unfold emit_events in HEv. injection HEv as <- <-.
  unfold mret, Host_ret in HMain. injection HMain as <- <- <-.
  apply Host_bind_Ok in HB as (V10 & f10 & [] & f10' & HTr & HB & ->).
  apply Host_bind_Ok in HB as (V11 & f11 & [] & f11' & HDi & HB & ->).
  unfold mret, Host_ret in HB. injection HB as <- <- <-.
  match type of HTr with
  | _ ?V = _ => assert (HTr' : V10 = V ∧ f10 = trailer O (get_matched_root p) (g_main G))
  end.
  { unfold trailer. destruct (kind (get_matched_root p)); cbn in HTr;
      try (injection HTr as <- <-; done);
      destruct (quiet O); cbn in HTr; injection HTr as <- <-; done. }
  destruct HTr' as [-> ->].
  unfold Dispose_Wasm_Context in HDi. world_simpl HDi. rewrite lookup_insert_eq in HDi.
  injection HDi as <- <-.
  (* after the block *)
  apply Host_bind_Ok in H as (U1 & g1 & [] & g1' & HEx & H & ->).
  unfold modify in HEx. injection HEx as <- <-.
  apply Host_bind_Ok in H as (U2 & g2 & [] & g2' & HCD & H & ->).
  unfold CodeGenContext_Dispose in HCD. cbn in HCD. injection HCD as <- <-.
  unfold Module_Dispose in H. cbn in H. injection H as <- <-.
  match type of HCalls with host_calls _ ?V = _ => exists V end.
  eexists _, evs_main.
  split; [done|]. split; [done|]. split; [done|].
  split; [reflexivity|]. split; [cbn; apply lookup_insert_eq|].
  split; [exact Hplan|]. split; [reflexivity|]. split; [reflexivity|].
  split; [exact HCalls|]. split.
  - cbn. rewrite !app_nil_r. by rewrite <- app_assoc.
  - unfold set_module. cbn. rewrite !insert_insert_eq.
    rewrite delete_insert_id by done. destruct W; cbn in *. by subst.
Qed.

End DriverRun.

Lemma Host_bind_Raise {A B : Type} (m : Host A) (k : A → Host B) W W' evs what :
  (m ≫= k) W = (W', evs, Raise what) →
  m W = (W', evs, Raise what)
  ∨ ∃ W1 evs1 a evs2,
      m W = (W1, evs1, Ok a) ∧ k a W1 = (W', evs2, Raise what) ∧ evs = evs1 ++ evs2.
Proof.
  unfold mbind, Host_bind. destruct (m W) as [[W1 evs1] [a|msg|what1]]; try discriminate.
  - destruct (k a W1) as [[W2 evs2] r] eqn:Hk. intros [= <- <- ->].
    right. exists W1, evs1, a, evs2. done.
  - intros [= <- <- <-]. by left.
Qed.

Lemma scoped_Raise {A : Type} (construct destroy : World → World) (body : Host A)
    W W' evs what :
  scoped construct destroy body W = (W', evs, Raise what) →
  ∃ W1, body (construct W) = (W1, evs, Raise what) ∧ W' = destroy W1.
Proof.
  unfold scoped. destruct (body (construct W)) as [[W1 evs1] [a'|msg|what1]]; try discriminate.
  intros [= <- <- <-]. by exists W1.
Qed.

Lemma collect_expr_no_raise e acc what : collect_expr e acc ≠ Raise what.
Proof.
  revert acc what. induction e as [| | c | | op e IH | op l IHl r IHr |]; intros acc what;
    cbn [collect_expr]; try discriminate.
  - destruct (is_string c); [|discriminate]. by destruct (Interpreter_eval c).
  - apply IH.
  - destruct (collect_expr l acc) as [acc1| |] eqn:Hl; cbn [mbind result_bind].
    + apply IHr.
    + discriminate.
    + by apply IHl in Hl.
Qed.

Lemma collect_exprs_no_raise es acc what : collect_exprs es acc ≠ Raise what.
Proof.
  revert acc what. induction es as [|e es IH]; intros acc what; cbn [collect_exprs];
    [discriminate|].
  destruct (collect_expr e acc) as [acc1| |] eqn:He; cbn [mbind result_bind].
  - apply IH.
  - discriminate.
  - by apply collect_expr_no_raise in He.
Qed.

Lemma collect_operator_no_raise op acc what : collect_operator op acc ≠ Raise what.
Proof.
  revert acc what. induction op as [k s cs IH] using Operator_induction. intros acc what.
  assert (Hrec : ∀ acc what,
    (fix recurse (cs : list Operator) (literals_ : list string) :=
        match cs with
        | [] => Ok literals_
        | c :: cs' => literals_ ← collect_operator c literals_; recurse cs' literals_
        end) cs acc ≠ Raise what).
  { induction IH as [|c cs Hc _ IHcs]; intros acc0 what0; [discriminate|].
    destruct (collect_operator c acc0) as [acc1| |] eqn:Hc1; cbn [mbind result_bind].
    - apply IHcs.
    - discriminate.
    - by apply Hc in Hc1. }
  cbn [collect_operator]. destruct k; try apply Hrec; try discriminate.
  all: unfold collect_cnf.
  all: match goal with
       | |- (mbind _ (collect_exprs ?es ?a)) ≠ _ =>
           destruct (collect_exprs es a) as [acc1| |] eqn:Hes; cbn [mbind result_bind];
           [apply Hrec|discriminate|by apply collect_exprs_no_raise in Hes]
       end.
Qed.

Lemma create_env_no_raise {RT : HostRuntime} p W W' evs what :
  create_env p W ≠ (W', evs, Raise what).
Proof.
  unfold create_env, Module_ID, Module_Get, Get_Wasm_Context_By_ID.
  destruct (the_module W) as [M|]; [|cbn; discriminate]. cbn [mbind result_bind].
  destruct (contexts W !! module_id M) as [ctx|]; [|cbn; discriminate]. cbn [mbind result_bind].
  destruct (map_tables _ ctx ∅) as [ctx1 env1].
  destruct (CollectStringLiterals _) as [literals| |] eqn:Hlit; cbn [mbind result_bind].
  - destruct (the_codegen W) as [cg|]; [|cbn; discriminate]. cbn [mbind result_bind].
    unfold map_literals. destruct (Is_Page_Aligned (heap ctx1)); [|cbn; discriminate].
    cbn [M_insist mbind result_bind]. destruct (_ =? 0)%N.
    + destruct (Is_Page_Aligned (heap ctx1)); cbn; discriminate.
    + destruct (copy_literals _ _ _ _ _ _) as [[m dst] cg1].
      destruct (Is_Page_Aligned _); cbn; discriminate.
  - discriminate.
  - unfold CollectStringLiterals in Hlit.
    destruct (collect_operator _ []) as [literals_| |] eqn:Hc; try discriminate.
    by apply collect_operator_no_raise in Hc.
Qed.

Section DriverRaise.
Context {RT : HostRuntime}.

(** X11. When [execute] ends with an exception (one thrown by [compile]:
    an exception of a callback ends the process instead), no query was
    running before the call and nothing the call set up is undone: the
    module is still live under the id it took, the code generation context
    is live, the context created for the plan is still registered, the
    registry holding one entry more than before, and the isolate is entered
    once more than before. *)
Theorem execute_raised (O : Options) (G : Guest) (p : MatchBase) (W W' : World)
    (evs : list event) (what : string) :
  execute O G p W = (W', evs, Raise what) →
  the_module W = None
  ∧ contexts W !! next_module_id W = None
  ∧ (∃ M', the_module W' = Some M' ∧ module_id M' = next_module_id W)
  ∧ is_Some (the_codegen W')
  ∧ (∃ ctx, contexts W' !! next_module_id W = Some ctx ∧ plan ctx = p)
  ∧ size (contexts W') = S (size (contexts W))
  ∧ isolate_depth W' = S (isolate_depth W).
Proof.
  intros H. unfold execute in H.
  apply Host_bind_Raise in H as [H|(W1 & e1 & [] & e1' & HInit & H & ->)].
  { unfold Module_Init in H. by destruct (the_module W). }
  unfold Module_Init in HInit. destruct (the_module W) eqn:HM; [discriminate|].
  injection HInit as <- <-.
  apply Host_bind_Raise in H as [H|(W2 & e2 & [] & e2' & HCG & H & ->)].
  { unfold CodeGenContext_Init in H. cbn in H. by destruct (the_codegen W). }
  unfold CodeGenContext_Init in HCG. cbn [the_codegen set_module] in HCG.
  destruct (the_codegen W) eqn:HC; [discriminate|]. injection HCG as <- <-.
  apply Host_bind_Raise in H as [H|(W3 & e3 & [] & e3' & HI & H & ->)].
  { unfold lift in H. cbn in H. by destruct (isolate_ W). }
  unfold lift in HI. injection HI as <- <- HI.
  apply Host_bind_Raise in H as [H|(W4 & e4 & [] & e4' & HE & H & ->)]; [discriminate|].
  unfold modify in HE. injection HE as <- <-.
  apply Host_bind_Raise in H as [H|(W5 & e5 & returned & e5' & HS & H & ->)].
  2: { apply scoped_Ok in HS as (W6 & HB & ->). destruct returned.
       - discriminate.
       - exfalso.
         apply Host_bind_Raise in H as [H|(U1 & g1 & [] & g1' & HEx & H & ->)]; [discriminate|].
         apply Host_bind_Raise in H as [H|(U2 & g2 & [] & g2' & HCD & H & ->)].
         + unfold CodeGenContext_Dispose in H. by destruct (the_codegen U1).
         + unfold Module_Dispose in H. by destruct (the_module U2). }
  apply scoped_Raise in H as (W6 & HB & ->).
  apply Host_bind_Raise in HB as [HB|(V1 & f1 & module_ID & f1' & HID & HB & ->)];
    [discriminate|].
  unfold lift, Module_ID, Module_Get in HID. cbn in HID. injection HID as <- <- <-.
  apply Host_bind_Raise in HB as [HB|(V2 & f2 & wasm_context & f2' & HCr & HB & ->)].
  { unfold Create_Wasm_Context_For_ID in HB. cbn in HB.
    by destruct (contexts W !! next_module_id W). }
  unfold Create_Wasm_Context_For_ID in HCr. cbn in HCr.
  destruct (contexts W !! next_module_id W) eqn:Hfresh; [discriminate|].
  injection HCr as <- <- <-.
  apply Host_bind_Raise in HB as [HB|(V3 & f3 & env & f3' & HEnv & HB & ->)].
  { by apply create_env_no_raise in HB. }
  apply create_env_context in HEnv as (M1 & ctx0 & ctx1 & cg1 & HM1 & Hctx0 & Hsame & -> & ->).
  cbn in HM1. injection HM1 as <-. cbn [module_id] in *.
  world_simpl Hctx0. rewrite lookup_insert_eq in Hctx0. injection Hctx0 as <-.
  destruct Hsame as (_ & Hplan & _). cbn in Hplan.
  apply Host_bind_Raise in HB as [HB|(V4 & f4 & [] & f4' & HAl & HB & ->)].
  { unfold lift in HB. injection HB as _ _ HB. world_simpl HB.
    unfold Get_Wasm_Context_By_ID in HB. world_simpl HB. rewrite lookup_insert_eq in HB.
    cbn in HB. by destruct (Is_Page_Aligned _). }
  unfold lift in HAl. injection HAl as <- <- _.
  (* every state from here on has the context registered *)
  set (registered := fun V : World =>
         (∃ M', the_module V = Some M' ∧ module_id M' = next_module_id W)
         ∧ is_Some (the_codegen V)
         ∧ (∃ ctx, contexts V !! next_module_id W = Some ctx ∧ plan ctx = p)
         ∧ size (contexts V) = S (size (contexts W))
         ∧ isolate_depth V = S (S (isolate_depth W))).
  assert (Hfinish : ∀ V, registered V →
            @None Module = None
            ∧ @None WasmContext = None
            ∧ (∃ M', the_module (Isolate_Exit V) = Some M' ∧ module_id M' = next_module_id W)
            ∧ is_Some (the_codegen (Isolate_Exit V))
            ∧ (∃ ctx, contexts (Isolate_Exit V) !! next_module_id W = Some ctx ∧ plan ctx = p)
            ∧ size (contexts (Isolate_Exit V)) = S (size (contexts W))
            ∧ isolate_depth (Isolate_Exit V) = S (isolate_depth W)).
  { intros V (H1 & H2 & H3 & H4 & H5). split; [done|]. split; [done|].
    unfold Isolate_Exit. cbn. rewrite H5. done. }
  apply Host_bind_Raise in HB as [HB|(V5 & f5 & [] & f5' & HCo & HB & ->)].
  { apply Hfinish. unfold compile in HB. world_simpl HB. rewrite lookup_insert_eq in HB.
    destruct (g_valid G); [discriminate|]. injection HB as <- _ _.
    subst registered. cbn. split; [by eexists|]. split; [by eexists|].
    split; [eexists; split; [apply lookup_insert_eq|exact Hplan]|].
    split; [|done]. rewrite !insert_insert_eq. by rewrite map_size_insert_None. }
  unfold compile in HCo. world_simpl HCo. rewrite lookup_insert_eq in HCo.
  destruct (g_valid G); [|discriminate]. injection HCo as <- <-.
  match type of HB with
  | _ ?V = _ => assert (HV : registered V)
  end.
  { subst registered. cbn. split; [by eexists|]. split; [by eexists|].
    split; [eexists; split; [apply lookup_insert_eq|exact Hplan]|].
    split; [|done]. rewrite !insert_insert_eq. by rewrite map_size_insert_None. }
  apply Host_bind_Raise in HB as [HB|(V6 & f6 & [] & f6' & HIn & HB & ->)].
  { unfold instantiate, lift in HB. cbn in HB. by destruct (g_instantiates G). }
  unfold instantiate, lift in HIn. injection HIn as <- <- _.
  apply Host_bind_Raise in HB as [HB|(V7 & f7 & [] & f7' & HMo & HB & ->)]; [discriminate|].
  unfold modify in HMo. injection HMo as <- <-.
  match type of HB with
  | _ ?V = _ => assert (HV' : registered V)
  end.
  { destruct (_ && _); [|exact HV]. exact HV. }
  clear HV.
  apply Host_bind_Raise in HB as [HB|(V8 & f8 & inspector & f8' & HGet & HB & ->)];
    [discriminate|].
  unfold lift in HGet. injection HGet as <- <- _.
  destruct inspector.
  - apply Host_bind_Raise in HB as [HB|(V9 & f9 & [] & f9' & HRun & HB & ->)];
      [|discriminate].
    unfold run_inspector in HB. apply host_calls_world in HB as ->. by apply Hfinish.
  - apply Host_bind_Raise in HB as [HB|(V9 & f9 & num_rows & f9' & HMain & HB & ->)].
    + unfold call_main in HB.
      apply Host_bind_Raise in HB as [HB|(X1 & x1 & [] & x1' & HCalls & HB & ->)].
      * apply host_calls_world in HB as ->. by apply Hfinish.
      * apply Host_bind_Raise in HB as [HB|(X2 & x2 & [] & x2' & HEv & HB & ->)];
          discriminate.
    + exfalso. apply call_main_Ok in HMain as (-> & -> & _).
      apply Host_bind_Raise in HB as [HB|(V10 & f10 & [] & f10' & HTr & HB & ->)].
      { destruct (kind (get_matched_root p)); try discriminate;
          destruct (quiet O); discriminate. }
      apply Host_bind_Raise in HB as [HB|(V11 & f11 & [] & f11' & HDi & HB & ->)];
        [|discriminate].
      unfold Dispose_Wasm_Context in HB. by destruct (contexts V10 !! next_module_id W).
Qed.

End DriverRaise.

Lemma insist_aborts (W : World) (info : FunctionCallbackInfo) (u : unit) :
  insist W info ≠ Ok u.
Proof.
  unfold insist. intros H. bind_split H as [] _. bind_split H as idx _.
  bind_split H as M _. bind_split H as [[filename line] msg] _. discriminate.
Qed.

Lemma throw_never_returns (W : World) (info : FunctionCallbackInfo) (u : unit) :
  _throw W info ≠ Ok u.
Proof.
  unfold _throw. intros H. bind_split H as [] _. bind_split H as type _.
  bind_split H as idx _. bind_split H as M _. bind_split H as [[filename line] msg] _.
  bind_split H as name _. bind_split H as msg' _. discriminate.
Qed.

Lemma below_wasm_Ok {A : Type} (r : result A) (a : A) : below_wasm r = Ok a → r = Ok a.
Proof. by destruct r. Qed.

Section DriverGuest.
Context {RT : HostRuntime}.

Lemma host_calls_each (calls : list GuestCall) (W W' : World) (evs : list event) :
  host_calls calls W = (W', evs, Ok tt) →
  ∀ c, c ∈ calls → ∃ evs_c, host_call c W = (W, evs_c, Ok tt).
Proof.
  revert evs. induction calls as [|c calls IH]; intros evs H c' Hc'.
  - by apply elem_of_nil in Hc'.
  - cbn [host_calls] in H.
    apply Host_bind_Ok in H as (W1 & evs1 & [] & evs2 & Hc & H & ->).
    pose proof (host_call_world _ _ _ _ _ Hc) as ->.
    apply elem_of_cons in Hc' as [->|Hc']; [by eexists|]. by eapply IH.
Qed.

(** X12. Without the inspector, a query whose guest calls [insist] or
    [throw] never completes: the run does not return to the caller of
    [execute] normally. *)
Theorem execute_guest_aborts (O : Options) (G : Guest) (p : MatchBase) (W W' : World)
    (evs : list event) (r : result unit) (info : FunctionCallbackInfo) :
  (cdt_port O < 1024)%N →
  inspector_ W = false →
  call_insist info ∈ g_calls G ∨ call_throw info ∈ g_calls G →
  execute O G p W = (W', evs, r) →
  r ≠ Ok tt.
Proof.
  intros Hport Hinsp Hcall H ->.
  destruct (execute_run O G p W W' evs Hport Hinsp H)
    as (V & ctx & evs_main & _ & _ & _ & _ & _ & _ & _ & _ & Hcalls & _).
  destruct Hcall as [Hc|Hc];
    destruct (host_calls_each _ _ _ _ Hcalls _ Hc) as [evs_c Hcall];
    cbn [host_call] in Hcall; injection Hcall as _ Hcall.
  - apply below_wasm_Ok in Hcall. by apply insist_aborts in Hcall.
  - apply below_wasm_Ok in Hcall. by apply throw_never_returns in Hcall.
Qed.


End DriverGuest.

(** *** The flags of the engine *)

(** X14. The flags [V8Engine::initialize] composes switch the bounds and
    stack checks of WebAssembly on exactly when the debugging port is at
    least 1024 and off otherwise, enable Liftoff exactly when adaptive
    execution is set, disable the compilation cache exactly when that option
    is cleared, and always set the stack size. *)
Theorem initialize_flags_checks (o : options.t) :
  let flags := initialize_flags o in
  let debugging := (1024 <=? options.cdt_port o)%N in
  mentions "--wasm-bounds-checks " flags = debugging
  ∧ mentions "--wasm-stack-checks " flags = debugging
  ∧ mentions "--no-wasm-bounds-checks " flags = negb debugging
  ∧ mentions "--no-wasm-stack-checks " flags = negb debugging
  ∧ mentions "--liftoff " flags = options.wasm_adaptive o
  ∧ mentions "--no-liftoff " flags = negb (options.wasm_adaptive o)
  ∧ mentions "--no-compilation-cache " flags = negb (options.wasm_compilation_cache o)
  ∧ mentions "--stack_size 1000000 " flags = true.
Proof.
  destruct o as [level adaptive cache dump asm port]. unfold initialize_flags.
  cbn [options.wasm_adaptive options.wasm_compilation_cache options.asm_dump options.cdt_port].
  destruct (1024 <=? port)%N, adaptive, cache, asm; vm_compute; repeat split.
Qed.

(** *** List options *)

Lemma substring_clip (s : string) (pos m : nat) :
  (String.length s ≤ pos + m)%nat → String.substring pos m s = string_drop pos s.
Proof.
  revert pos m. induction s as [|x s IH]; intros [|pos] [|m] Hm; cbn in *; try done; try lia.
  - f_equal. apply (IH 0). lia.
  - apply IH. lia.
  - apply IH. lia.
Qed.

Lemma sv_find_None (c : ascii) (sv : string) (pos : nat) :
  sv_find c sv pos = None → has_char c (string_drop pos sv) = false.
Proof.
  revert pos. induction sv as [|x sv IH]; intros [|pos] H; cbn in *; try done.
  - case_bool_decide; [done|]. cbn. apply (IH 0).
    by destruct (sv_find c sv 0).
  - apply IH. by destruct (sv_find c sv pos).
Qed.

Lemma sv_find_Some (c : ascii) (sv : string) (pos e : nat) :
  sv_find c sv pos = Some e →
  (pos ≤ e < String.length sv)%nat
  ∧ string_drop pos sv
    = (String.substring pos (e - pos) sv ++ String c (string_drop (S e) sv))%string
  ∧ has_char c (String.substring pos (e - pos) sv) = false.
Proof.
  revert pos e. induction sv as [|x sv IH]; intros [|pos] e H; cbn in *; try done.
  - case_bool_decide as Hx.
    + inversion H; subst. cbn. split; [lia|]. split; [|done]. by destruct sv.
    + destruct (sv_find c sv 0) as [e'|] eqn:He; [|done]. inversion H; subst.
      apply IH in He as (Hle & Hd & Hn). cbn in *. rewrite Nat.sub_0_r in *.
      split; [lia|]. split.
      * change (String x sv = String x (String.substring 0 e' sv ++ String c (string_drop (S e') sv))%string).
        f_equal. exact Hd.
      * cbn. rewrite Hn. by case_bool_decide.
  - destruct (sv_find c sv pos) as [e'|] eqn:He; [|done]. inversion H; subst.
    apply IH in He as (Hle & Hd & Hn). cbn in *.
    split; [lia|]. by split.
Qed.

Lemma concat_cons_ne (sep x : string) (l : list string) :
  l ≠ [] → String.concat sep (x :: l) = (x ++ sep ++ String.concat sep l)%string.
Proof. by destruct l. Qed.

Lemma count_char_app (c : ascii) (a b : string) :
  count_char c (a ++ b) = count_char c a + count_char c b.
Proof.
  induction a as [|x a IH]; [done|].
  change (String x a ++ b)%string with (String x (a ++ b)). cbn. rewrite IH. lia.
Qed.

Lemma count_char_absent (c : ascii) (s : string) :
  has_char c s = false → count_char c s = 0.
Proof.
  induction s as [|x s IH]; cbn; [done|]. case_bool_decide; cbn; [done|]. exact IH.
Qed.

Lemma split_loop_spec (sv : string) (fuel begin : nat) (args : list string) :
  (String.length sv - begin < fuel)%nat →
  ∃ pieces,
    split_loop fuel sv begin args = args ++ pieces
    ∧ String.concat "," pieces = string_drop begin sv
    ∧ Forall (λ p, has_char "," p = false) pieces
    ∧ length pieces = S (count_char "," (string_drop begin sv)).
Proof.
  revert begin args. induction fuel as [|fuel IH]; intros begin args Hf; [lia|].
  cbn [split_loop]. destruct (sv_find "," sv begin) as [e|] eqn:He.
  - apply sv_find_Some in He as (Hle & Hd & Hn).
    destruct (IH (e + 1) (args ++ [sv_substr sv begin (Some e)])) as (ps & Hps & Hcat & Hall & Hlen);
      [lia|].
    exists (sv_substr sv begin (Some e) :: ps). rewrite Hps, <- app_assoc. split; [done|].
    rewrite Nat.add_1_r in *. split; [|split].
    + rewrite concat_cons_ne by (intros ->; done). rewrite Hcat, Hd. done.
    + constructor; [exact Hn|exact Hall].
    + cbn [length]. rewrite Hlen, Hd, count_char_app, (count_char_absent _ _ Hn).
      cbn. by case_bool_decide.
  - apply sv_find_None in He. exists [sv_substr sv begin None]. split; [done|].
    cbn. rewrite substring_clip by lia. split; [done|]. split; [by constructor|].
    by rewrite count_char_absent.
Qed.

(** X15. The pieces a list option hands to its callback, joined by commas,
    give back the argument; no piece contains a comma; the empty argument
    yields no piece, every other argument one piece more than it has
    commas. *)
Theorem split_list_join (sv : string) :
  String.concat "," (split_list sv) = sv
  ∧ Forall (λ piece, has_char "," piece = false) (split_list sv)
  ∧ length (split_list sv) = if bool_decide (sv = "") then 0 else S (count_char "," sv).
Proof.
  unfold split_list. case_bool_decide as Hsv; [by subst|].
  destruct (split_loop_spec sv (S (String.length sv)) 0 []) as (ps & -> & Hcat & Hall & Hlen);
    [lia|].
  done.
Qed.

Lemma concat_no_char_inj (ps qs : list string) :
  Forall (λ p, has_char "," p = false) ps →
  Forall (λ p, has_char "," p = false) qs →
  ps ≠ [] → qs ≠ [] →
  String.concat "," ps = String.concat "," qs → ps = qs.
Proof.
  intros Hps. revert qs. induction Hps as [|p ps Hp Hps IH]; intros qs Hqs Hne1 Hne2 Heq; [done|].
  destruct Hqs as [|q qs Hq Hqs]; [done|]. clear Hne1 Hne2.
  assert (Hsplit : ∀ a b (ra rb : string),
    has_char "," a = false → has_char "," b = false →
    (a ++ "," ++ ra = b ++ "," ++ rb)%string → a = b ∧ ra = rb).
  { clear. induction a as [|x a IH]; intros [|y b] ra rb Ha Hb H; cbn in *.
    - by inversion H.
    - inversion H; subst. cbn in Hb. by rewrite bool_decide_eq_true_2 in Hb.
    - inversion H; subst. cbn in Ha. by rewrite bool_decide_eq_true_2 in Ha.
    - inversion H; subst. apply orb_false_elim in Ha as [_ Ha], Hb as [_ Hb].
      destruct (IH b ra rb Ha Hb) as [-> ->]; done. }
  assert (Hone : ∀ a b (rb : string),
    has_char "," a = false → a ≠ (b ++ "," ++ rb)%string).
  { clear. induction a as [|x a IH]; intros [|y b] rb Ha H; cbn in *; try done.
    - inversion H; subst. by rewrite bool_decide_eq_true_2 in Ha.
    - inversion H; subst. apply orb_false_elim in Ha as [_ Ha]. by apply (IH b rb). }
  destruct ps as [|p' ps], qs as [|q' qs].
  - cbn in Heq. by subst.
  - rewrite (concat_cons_ne _ q) in Heq by done. cbn in Heq. by apply Hone in Heq.
  - rewrite (concat_cons_ne _ p) in Heq by done. cbn in Heq. symmetry in Heq. by apply Hone in Heq.
  - rewrite (concat_cons_ne _ p), (concat_cons_ne _ q) in Heq by done.
    apply Hsplit in Heq as [-> Heq]; [|done..]. f_equal. by apply IH.
Qed.

(** X16. Conversely: pieces that contain no comma, joined by commas and
    passed to a list option, come back as they were, unless they are the
    single empty piece (which makes the empty argument, hence no piece). *)
Theorem split_list_of_join (pieces : list string) :
  Forall (λ piece, has_char "," piece = false) pieces →
  pieces ≠ [""] →
  split_list (String.concat "," pieces) = pieces.
Proof.
  intros Hall Hne.
  destruct (split_list_join (String.concat "," pieces)) as (Hcat & Hno & Hlen).
  case_bool_decide as Hempty.
  - rewrite Hempty in *. apply nil_length_inv in Hlen. rewrite Hlen.
    destruct pieces as [|p [|p' ps]]; [done| |].
    + cbn in Hempty. by subst.
    + rewrite concat_cons_ne in Hempty by done. by destruct p.
  - destruct pieces as [|p ps]; [done|].
    apply concat_no_char_inj; [done|done| |done|done].
    intros Hnil. by rewrite Hnil in Hlen.
Qed.

Lemma split_list_of_join_witness :
  split_list (String.concat "," ["a"; ""; "bc"]) = ["a"; ""; "bc"].
Proof.
  apply split_list_of_join; [|done].
  repeat constructor.
Defined.

(** *** The command line *)

Section ParserFacts.
Context {SS : StdString} {G : Type}.
Implicit Types (st : ArgParser.State G) (opt : ArgParser.OptionImpl G).

Lemma parse_frame opt value st st' :
  ArgParser.parse opt value st = ArgParser.Returns st' →
  ArgParser.key_map_ st' = ArgParser.key_map_ st
  ∧ ArgParser.args_ st' = ArgParser.args_ st
  ∧ ArgParser.cerr st' = ArgParser.cerr st.
Proof.
  destruct opt as [cb|T cb|T cb|cb|cb]; cbn; unfold ArgParser.help_parse.
  - by intros [= <-].
  - destruct (ArgParser.convert_integral T value); cbn; [by intros [= <-]|done..].
  - destruct (ArgParser.convert_floating_point T value); cbn; [by intros [= <-]|done..].
  - by intros [= <-].
  - by intros [= <-].
Qed.

Lemma positional_spec argv st :
  ArgParser.positional argv st
  = {| ArgParser.key_map_ := ArgParser.key_map_ st;
       ArgParser.args_ := ArgParser.args_ st ++ argv;
       ArgParser.cerr := ArgParser.cerr st;
       ArgParser.globals := ArgParser.globals st |}.
Proof.
  unfold ArgParser.positional. revert st.
  induction argv as [|a argv IH]; intros st; cbn.
  - rewrite app_nil_r. by destruct st.
  - rewrite IH. cbn. by rewrite <- app_assoc.
Qed.

(** One round of the loop, by cases. *)
Lemma options_loop_ind (P : list string → ArgParser.State G → Prop) :
  (∀ st, P [] st) →
  (∀ argv st, P ("--" :: argv) st) →
  (∀ arg argv st callback, arg ≠ "--" →
     ArgParser.key_map_ st !! arg = Some (ArgParser.Option_bool callback) →
     P argv (ArgParser.call (callback true) st) → P (arg :: argv) st) →
  (∀ arg st opt, arg ≠ "--" → ArgParser.key_map_ st !! arg = Some opt →
     takes_argument opt = true → P [arg] st) →
  (∀ arg value argv st opt, arg ≠ "--" → ArgParser.key_map_ st !! arg = Some opt →
     takes_argument opt = true →
     (∀ st', ArgParser.parse opt value st = ArgParser.Returns st' → P argv st') →
     P (arg :: value :: argv) st) →
  (∀ arg argv st, arg ≠ "--" → ArgParser.key_map_ st !! arg = None →
     String.prefix "--" arg = true →
     P argv (ArgParser.warn ("warning: ignore unknown option " ++ arg) st) →
     P (arg :: argv) st) →
  (∀ arg argv st, arg ≠ "--" → ArgParser.key_map_ st !! arg = None →
     String.prefix "--" arg = false →
     P argv (ArgParser.emplace_back arg st) → P (arg :: argv) st) →
  ∀ argv st, P argv st.
Proof.
  intros Hnil Hdash Hbool Hmiss Hval Hwarn Hpos argv.
  assert (H : ∀ n argv, (length argv ≤ n)%nat → ∀ st, P argv st).
  { clear argv. induction n as [|n IH]; intros [|arg argv] Hn st; cbn in Hn; try done; try lia.
    destruct (decide (arg = "--")) as [->|Harg]; [done|].
    destruct (ArgParser.key_map_ st !! arg) as [opt|] eqn:Hopt.
    - destruct (takes_argument opt) eqn:Ht.
      + destruct argv as [|value argv]; [by eapply Hmiss|].
        eapply Hval; [done..|]. intros st' _. apply IH. cbn in Hn. lia.
      + destruct opt; try done. eapply Hbool; [done..|]. apply IH. lia.
    - destruct (String.prefix "--" arg) eqn:Hp.
      + apply Hwarn; [done..|]. apply IH. lia.
      + apply Hpos; [done..|]. apply IH. lia. }
  by apply (H (length argv)).
Qed.

Lemma options_loop_bool arg argv st callback :
  arg ≠ "--" → ArgParser.key_map_ st !! arg = Some (ArgParser.Option_bool callback) →
  ArgParser.options_loop (arg :: argv) st
  = ArgParser.options_loop argv (ArgParser.call (callback true) st).
Proof. intros Harg Hopt. cbn. rewrite bool_decide_eq_false_2 by done. by rewrite Hopt. Qed.

Lemma options_loop_missing arg st opt :
  arg ≠ "--" → ArgParser.key_map_ st !! arg = Some opt → takes_argument opt = true →
  ArgParser.options_loop [arg] st = ArgParser.exit "missing argument" st.
Proof.
  intros Harg Hopt Ht. cbn. rewrite bool_decide_eq_false_2 by done. rewrite Hopt.
  by destruct opt.
Qed.

Lemma options_loop_value arg value argv st opt :
  arg ≠ "--" → ArgParser.key_map_ st !! arg = Some opt → takes_argument opt = true →
  ArgParser.options_loop (arg :: value :: argv) st
  = match ArgParser.parse opt value st with
    | ArgParser.Returns st' => ArgParser.options_loop argv st'
    | ArgParser.Exits status e => ArgParser.Exits status e
    end.
Proof.
  intros Harg Hopt Ht. cbn [ArgParser.options_loop].
  rewrite bool_decide_eq_false_2 by done. rewrite Hopt. by destruct opt.
Qed.

Lemma options_loop_unknown arg argv st :
  arg ≠ "--" → ArgParser.key_map_ st !! arg = None →
  ArgParser.options_loop (arg :: argv) st
  = ArgParser.options_loop argv
      (if String.prefix "--" arg
       then ArgParser.warn ("warning: ignore unknown option " ++ arg) st
       else ArgParser.emplace_back arg st).
Proof.
  intros Harg Hopt. cbn. rewrite bool_decide_eq_false_2 by done. rewrite Hopt.
  by destruct (String.prefix "--" arg).
Qed.

Lemma options_loop_app pre post st st1 :
  "--" ∉ pre →
  ArgParser.options_loop pre st = ArgParser.Returns st1 →
  ArgParser.options_loop (pre ++ post) st = ArgParser.options_loop post st1
  ∧ ArgParser.key_map_ st1 = ArgParser.key_map_ st.
Proof.
  revert st1. pattern pre, st. apply options_loop_ind; clear pre st.
  - intros st st1 _ [= <-]. done.
  - intros argv st st1 Hin. exfalso. apply Hin. left.
  - intros arg argv st cb Harg Hopt IH st1 Hin. rewrite (options_loop_bool _ _ _ cb) by done.
    intros H. apply IH in H as [H1 H2]; [|by intros ?; apply Hin; right].
    change ((arg :: argv) ++ post) with (arg :: (argv ++ post)).
    by rewrite (options_loop_bool _ _ _ cb).
  - intros arg st opt Harg Hopt Ht st1 _. by rewrite (options_loop_missing _ _ opt).
  - intros arg value argv st opt Harg Hopt Ht IH st1 Hin.
    rewrite (options_loop_value _ _ _ _ opt) by done.
    change ((arg :: value :: argv) ++ post) with (arg :: value :: (argv ++ post)).
    rewrite (options_loop_value _ _ _ _ opt) by done.
    destruct (ArgParser.parse opt value st) as [st'|] eqn:Hp; [|done].
    intros H. apply IH in H as [H1 H2]; [|done|].
    + split; [done|]. rewrite H2. by apply parse_frame in Hp as (? & _).
    + intros ?. apply Hin. by do 2 right.
  - intros arg argv st Harg Hopt Hp IH st1 Hin. rewrite options_loop_unknown by done.
    change ((arg :: argv) ++ post) with (arg :: (argv ++ post)).
    rewrite options_loop_unknown by done. rewrite Hp.
    intros H. apply IH in H as [H1 H2]; [done|by intros ?; apply Hin; right].
  - intros arg argv st Harg Hopt Hp IH st1 Hin. rewrite options_loop_unknown by done.
    change ((arg :: argv) ++ post) with (arg :: (argv ++ post)).
    rewrite options_loop_unknown by done. rewrite Hp.
    intros H. apply IH in H as [H1 H2]; [done|by intros ?; apply Hin; right].
Qed.

(** X17. If the arguments before a [--] hold no [--] themselves and
    [parse_args] returns on them alone, then on the command line continued by
    [--] and further arguments it returns the same state with all arguments
    after the [--] appended to the positional ones, verbatim and in order,
    names of options included. *)
Theorem parse_args_positional (program : string) (pre post : list string) st st1 :
  "--" ∉ pre →
  ArgParser.parse_args (program :: pre) st = ArgParser.Returns st1 →
  ArgParser.parse_args (program :: pre ++ "--" :: post) st
  = ArgParser.Returns
      {| ArgParser.key_map_ := ArgParser.key_map_ st1;
         ArgParser.args_ := ArgParser.args_ st1 ++ post;
         ArgParser.cerr := ArgParser.cerr st1;
         ArgParser.globals := ArgParser.globals st1 |}.
Proof.
  unfold ArgParser.parse_args. cbn [tail]. intros Hin H.
  destruct (options_loop_app pre ("--" :: post) st st1 Hin H) as [-> _].
  cbn. by rewrite positional_spec.
Qed.

(** X18. If the arguments before it hold no [--] and [parse_args] returns
    on them alone, a last argument naming an option that takes a value ends
    the process with [EXIT_FAILURE], [missing argument] being the last line
    on [std::cerr]. *)
Theorem parse_args_missing_argument (program name : string) (pre : list string) opt st st1 :
  "--" ∉ pre →
  ArgParser.parse_args (program :: pre) st = ArgParser.Returns st1 →
  ArgParser.key_map_ st !! name = Some opt →
  takes_argument opt = true →
  name ≠ "--" →
  ArgParser.parse_args (program :: pre ++ [name]) st
  = ArgParser.Exits ArgParser.EXIT_FAILURE (ArgParser.cerr st1 ++ ["missing argument"]).
Proof.
  unfold ArgParser.parse_args. cbn [tail]. intros Hin H Hopt Ht Hname.
  destruct (options_loop_app pre [name] st st1 Hin H) as [-> Hkm].
  rewrite (options_loop_missing _ _ opt); [done|done| |done]. by rewrite Hkm.
Qed.

Lemma options_loop_sublist argv st st' :
  ArgParser.options_loop argv st = ArgParser.Returns st' →
  ArgParser.key_map_ st' = ArgParser.key_map_ st
  ∧ ∃ taken, ArgParser.args_ st' = ArgParser.args_ st ++ taken ∧ sublist taken argv
      ∧ ("--" ∉ argv →
         Forall (λ arg, ArgParser.key_map_ st !! arg = None
                        ∧ String.prefix "--" arg = false) taken).
Proof.
  revert st'. pattern argv, st. apply options_loop_ind; clear argv st.
  - intros st st' [= <-]. split; [done|]. exists []. by rewrite app_nil_r.
  - intros argv st st'. cbn. intros [= <-]. rewrite positional_spec. cbn.
    split; [done|]. exists argv. split; [done|]. split; [by apply sublist_cons|].
    intros Hin. exfalso. apply Hin. left.
  - intros arg argv st cb Harg Hopt IH st'. rewrite (options_loop_bool _ _ _ cb) by done.
    intros H. apply IH in H as (Hk & taken & Ha & Hs & Hf). split; [done|].
    exists taken. split; [done|]. split; [by apply sublist_cons|].
    intros Hin. apply Hf. intros ?. apply Hin. by right.
  - intros arg st opt Harg Hopt Ht st'. by rewrite (options_loop_missing _ _ opt).
  - intros arg value argv st opt Harg Hopt Ht IH st'.
    rewrite (options_loop_value _ _ _ _ opt) by done.
    destruct (ArgParser.parse opt value st) as [st1|] eqn:Hp; [|done].
    intros H. apply IH in H as (Hk & taken & Ha & Hs & Hf); [|done].
    apply parse_frame in Hp as (Hk1 & Ha1 & _). split; [congruence|].
    exists taken. split; [congruence|]. split; [by do 2 apply sublist_cons|].
    intros Hin. rewrite <- Hk1. apply Hf. intros ?. apply Hin. by do 2 right.
  - intros arg argv st Harg Hopt Hp IH st'. rewrite options_loop_unknown, Hp by done.
    intros H. apply IH in H as (Hk & taken & Ha & Hs & Hf). split; [done|].
    exists taken. split; [done|]. split; [by apply sublist_cons|].
    intros Hin. apply Hf. intros ?. apply Hin. by right.
  - intros arg argv st Harg Hopt Hp IH st'. rewrite options_loop_unknown, Hp by done.
    intros H. apply IH in H as (Hk & taken & Ha & Hs & Hf). split; [done|].
    exists (arg :: taken). cbn in Ha. rewrite <- app_assoc in Ha. split; [done|].
    split; [by apply sublist_skip|].
    intros Hin. constructor; [done|]. apply Hf. intros ?. apply Hin. by right.
Qed.

(** X19. When [parse_args] returns, the options known to the parser are
    the same, and the positional arguments are those from before followed by
    a subsequence of the command line after the program name, in its order;
    on a command line without [--] none of the new ones names an option or
    begins with [--]. *)
Theorem parse_args_keeps_order (argv : list string) st st' :
  ArgParser.parse_args argv st = ArgParser.Returns st' →
  ArgParser.key_map_ st' = ArgParser.key_map_ st
  ∧ ∃ taken, ArgParser.args_ st' = ArgParser.args_ st ++ taken
      ∧ sublist taken (tail argv)
      ∧ ("--" ∉ tail argv →
         Forall (λ arg, ArgParser.key_map_ st !! arg = None
                        ∧ String.prefix "--" arg = false) taken).
Proof. apply options_loop_sublist. Qed.

End ParserFacts.

Section BackendOptions.
Context {SS : StdString}.

(** X20. With the options of [register_WasmV8] known to the parser, a
    command line that ends in [--CDT] and a value sets the port to the
    converted integer reduced modulo 2^16 (an [int] assigned to a
    [uint16_t]) and leaves everything else as the arguments before left
    it. *)
Theorem parse_args_CDT (program value : string) (pre : list string) (i : Z)
    (st st1 : ArgParser.State options.t) :
  added register_WasmV8 st →
  "--" ∉ pre →
  ArgParser.parse_args (program :: pre) st = ArgParser.Returns st1 →
  stoi value = converted i →
  ArgParser.parse_args (program :: pre ++ ["--CDT"; value]) st
  = ArgParser.Returns
      (ArgParser.call (λ o,
         {| options.wasm_optimization_level := options.wasm_optimization_level o;
            options.wasm_adaptive := options.wasm_adaptive o;
            options.wasm_compilation_cache := options.wasm_compilation_cache o;
            options.wasm_dump := options.wasm_dump o;
            options.asm_dump := options.asm_dump o;
            options.cdt_port := Z.to_N (i mod 2 ^ 16) |}) st1).
Proof.
  unfold ArgParser.parse_args. cbn [tail]. intros Hadd Hin H Hi.
  destruct (options_loop_app pre ["--CDT"; value] st st1 Hin H) as [-> Hkm].
  eassert (Hopt : ArgParser.key_map_ st1 !! "--CDT" = Some _).
  { rewrite Hkm. apply Hadd. unfold register_WasmV8. do 5 apply list_elem_of_further.
    apply list_elem_of_here. }
  rewrite (options_loop_value "--CDT" value [] st1 _ ltac:(done) Hopt) by done.
  cbn. by rewrite Hi.
Qed.

End BackendOptions.

Lemma parse_args_positional_witness :
  ArgParser.args_ <$>
    (match @ArgParser.parse_args example_strings _
             ("mutable" :: ["--wasm-dump"; "a.sql"] ++ "--" :: ["--CDT"; "b.sql"])
             example_parser with
     | ArgParser.Returns st => Some st
     | ArgParser.Exits _ _ => None
     end) = Some ["a.sql"; "--CDT"; "b.sql"].
Proof.
  rewrite (@parse_args_positional example_strings _ "mutable" ["--wasm-dump"; "a.sql"]
             ["--CDT"; "b.sql"] example_parser
             (ArgParser.emplace_back "a.sql"
                (ArgParser.call (λ o,
                   {| options.wasm_optimization_level := options.wasm_optimization_level o;
                      options.wasm_adaptive := options.wasm_adaptive o;
                      options.wasm_compilation_cache := options.wasm_compilation_cache o;
                      options.wasm_dump := true;
                      options.asm_dump := options.asm_dump o;
                      options.cdt_port := options.cdt_port o |}) example_parser))).
  - reflexivity.
  - apply (bool_decide_unpack _). vm_compute. exact I.
  - vm_compute. reflexivity.
Defined.

(** *** Examples *)

Lemma read_result_set_reads_witness :
  List.filter is_read
    [EvRead 8192 0; EvWrite cout "7"; EvWrite cout ","; EvWrite cout "7";
     EvWrite cout (String "010" "")]
  = EvRead 8192 <$> seq 0 1.
Proof.
  apply (@read_result_set_reads reference_runtime (example_world print_id_id)
           example_module (example_context print_id_id) 8192 1); reflexivity.
Defined.

Lemma read_result_set_deliveries_witness :
  let evs := [EvRead 8192 0; EvCallback 0 [id_column; id_column] [Some (Vi 7); Some (Vi 7)]] in
  length (delivered evs) = 1%nat
  ∧ Forall (fun t => length t = 2%nat) (delivered evs)
  ∧ (∀ cb s' t, EvCallback cb s' t ∈ evs → cb = 0%nat ∧ s' = [id_column; id_column])
  ∧ (∀ os, written os evs = "").
Proof.
  apply (@read_result_set_deliveries reference_runtime (example_world callback_id_id)
           example_module (example_context callback_id_id) 0 8192 1); reflexivity.
Defined.


Lemma find_projection_nearest_witness :
  ∃ op',
    way (fun o => is_projection o = false ∧ e_id <$> schema o = e_id <$> schema op')
        (get_matched_root print_id_id) op'
    ∧ kind op' = ProjectionOperator [(Designator "t" "id", None); (Designator "t" "id", None)].
Proof.
  apply (find_projection_nearest (get_matched_root print_id_id)
           (Some [(Designator "t" "id", None); (Designator "t" "id", None)])).
  reflexivity.
Defined.

Lemma plain_rows_witness :
  @read_result_set reference_runtime (example_world callback_id) [V8Uint32 8192; V8Uint32 1]
  = Ok [EvRead 8192 0; EvCallback 0 [id_column] [Some (Vi 7)]].
Proof.
  apply (@plain_rows reference_runtime (example_world callback_id) example_module
           (example_context callback_id) 0 [id_column] [scan_t] None one_row_layout 8192 1);
    try reflexivity.
  - repeat constructor. apply not_elem_of_nil.
  - repeat constructor.
  - discriminate.
  - right. discriminate.
Defined.

Lemma index_seek_in_range_witness :
  ∃ M ctx index_id key index,
    the_module (example_world print_id_id) = Some M
    ∧ contexts (example_world print_id_id) !! module_id M = Some ctx
    ∧ [V8BigInt 0; V8Int32 3] !! 0%nat = Some (V8BigInt index_id)
    ∧ @unpack_key reference_runtime (example_world print_id_id) K_i4 T_Int32
        [V8BigInt 0; V8Int32 3] = Ok key
    ∧ indexes ctx !! Z.to_nat (index_id mod 2 ^ 64) = Some index
    ∧ ib_kind index = Array
    ∧ ib_key_type index = K_i4
    ∧ 1%N = distance (begin index) (@lower_bound reference_runtime index key)
    ∧ (1 ≤ N.of_nat (length (ib_entries index)))%N.
Proof.
  apply (@index_seek_in_range reference_runtime (example_world print_id_id) Array K_i4
           T_Int32 true [V8BigInt 0; V8Int32 3] 1).
  reflexivity.
Defined.

Lemma index_sequential_scan_writes_witness :
  let W := example_world print_id_id in
  let ctx := example_context print_id_id in
  ∃ W' m',
    index_sequential_scan Array K_i4 W [V8BigInt 0; V8Uint32 1; V8Uint32 64; V8Uint32 2]
    = Ok W'
    ∧ contexts W' = <[module_id example_module := with_memory ctx m' (heap ctx)]> (contexts W)
    ∧ the_module W' = the_module W
    ∧ (∀ j, (j < 2)%N →
         ∃ key tuple_id,
           ib_entries example_index !! N.to_nat (1 + j) = Some (key, tuple_id)
           ∧ load_u32 m' (64 + 4 * j) = (tuple_id mod 2 ^ 32)%N)
    ∧ (∀ a, (a < 64 ∨ 64 + 4 * 2 ≤ a)%N → mem_byte m' a = mem_byte (vm ctx) a).
Proof.
  apply (index_sequential_scan_writes (example_world print_id_id)
           example_module (example_context print_id_id) Array K_i4 0 1 64 2 example_index);
    first [reflexivity | lia | (vm_compute; lia) | (vm_compute; discriminate)].
Defined.

Lemma CollectStringLiterals_exact_witness :
  NoDup ["xy"; "abc"]
  ∧ ∀ s, s ∈ ["xy"; "abc"] ↔ s ∈ plan_strings (get_matched_root literal_plan).
Proof.
  apply (@CollectStringLiterals_exact reference_runtime (get_matched_root literal_plan)
           ["xy"; "abc"]).
  reflexivity.
Defined.

Lemma create_env_tables_witness :
  ∃ env,
    (@create_env reference_runtime print_id_id (example_world print_id_id)).2 = Ok env
    ∧ size env = 2%nat
    ∧ ∀ t, t ∈ @CollectTables reference_runtime (get_matched_root print_id_id) →
        env !! (t_name t ++ "_num_rows")%string = Some (to_signed 32 (Z.of_N (t_num_rows t)))
        ∧ is_Some (env !! (t_name t ++ "_mem")%string).
Proof.
  destruct (@create_env reference_runtime print_id_id (example_world print_id_id))
    as [[W' evs] r] eqn:Hrun.
  destruct r as [env| |]; try (vm_compute in Hrun; discriminate).
  exists env. split; [reflexivity|].
  apply (@create_env_tables reference_runtime print_id_id (example_world print_id_id)
           W' evs env Hrun).
Defined.

Lemma execute_raised_witness :
  the_module idle_world = None
  ∧ contexts idle_world !! next_module_id idle_world = None
  ∧ (∃ M', the_module invalid_run.1.1 = Some M' ∧ module_id M' = next_module_id idle_world)
  ∧ is_Some (the_codegen invalid_run.1.1)
  ∧ (∃ ctx, contexts invalid_run.1.1 !! next_module_id idle_world = Some ctx
            ∧ plan ctx = print_id_id)
  ∧ size (contexts invalid_run.1.1) = S (size (contexts idle_world))
  ∧ isolate_depth invalid_run.1.1 = S (isolate_depth idle_world).
Proof.
  apply (@execute_raised reference_runtime default_options invalid_guest print_id_id
           idle_world invalid_run.1.1 invalid_run.1.2 "invalid module").
  vm_compute. reflexivity.
Defined.

Lemma execute_guest_aborts_witness : failed_run.2 ≠ Ok tt.
Proof.
  apply (@execute_guest_aborts reference_runtime default_options throwing_guest print_id_id
           idle_world failed_run.1.1 failed_run.1.2 failed_run.2 [V8BigInt 1; V8BigInt 0]).
  - reflexivity.
  - reflexivity.
  - right. apply list_elem_of_here.
  - vm_compute. reflexivity.
Defined.


Lemma parse_args_missing_argument_witness :
  @ArgParser.parse_args example_strings _ ("mutable" :: ["--wasm-dump"; "a.sql"] ++ ["--CDT"])
    example_parser
  = ArgParser.Exits 1 ["missing argument"].
Proof.
  apply (@parse_args_missing_argument example_strings _ "mutable" "--CDT"
           ["--wasm-dump"; "a.sql"]
           (ArgParser.Option_integral ArgParser.t_int (λ i o,
              {| options.wasm_optimization_level := options.wasm_optimization_level o;
                 options.wasm_adaptive := options.wasm_adaptive o;
                 options.wasm_compilation_cache := options.wasm_compilation_cache o;
                 options.wasm_dump := options.wasm_dump o;
                 options.asm_dump := options.asm_dump o;
                 options.cdt_port := Z.to_N (i mod 2 ^ 16) |}))
           example_parser
           (ArgParser.emplace_back "a.sql"
              (ArgParser.call (λ o,
                 {| options.wasm_optimization_level := options.wasm_optimization_level o;
                    options.wasm_adaptive := options.wasm_adaptive o;
                    options.wasm_compilation_cache := options.wasm_compilation_cache o;
                    options.wasm_dump := true;
                    options.asm_dump := options.asm_dump o;
                    options.cdt_port := options.cdt_port o |}) example_parser))).
  - apply (bool_decide_unpack _). vm_compute. exact I.
  - vm_compute. reflexivity.
  - vm_compute. reflexivity.
  - reflexivity.
  - discriminate.
Defined.

Lemma parse_args_CDT_witness :
  ArgParser.globals <$>
    (match @ArgParser.parse_args example_strings _
             ("mutable" :: ["--wasm-dump"; "a.sql"] ++ ["--CDT"; "70000"]) example_parser with
     | ArgParser.Returns st => Some st
     | ArgParser.Exits _ _ => None
     end)
  = Some {| options.wasm_optimization_level := 0; options.wasm_adaptive := false;
            options.wasm_compilation_cache := true; options.wasm_dump := true;
            options.asm_dump := false; options.cdt_port := 4464 |}.
Proof.
  rewrite (@parse_args_CDT example_strings "mutable" "70000" ["--wasm-dump"; "a.sql"] 70000
             example_parser
             (ArgParser.emplace_back "a.sql"
                (ArgParser.call (λ o,
                   {| options.wasm_optimization_level := options.wasm_optimization_level o;
                      options.wasm_adaptive := options.wasm_adaptive o;
                      options.wasm_compilation_cache := options.wasm_compilation_cache o;
                      options.wasm_dump := true;
                      options.asm_dump := options.asm_dump o;
                      options.cdt_port := options.cdt_port o |}) example_parser))).
  - reflexivity.
  - intros name opt Hin. unfold example_parser. cbn [ArgParser.key_map_].
    apply elem_of_list_to_map_1; [|exact Hin].
    apply (bool_decide_unpack _). vm_compute. exact I.
  - apply (bool_decide_unpack _). vm_compute. exact I.
  - vm_compute. reflexivity.
  - reflexivity.
Defined.

Lemma parse_args_keeps_order_witness :
  ∃ taken,
    ["a.sql"; "b.sql"] = [] ++ taken
    ∧ sublist taken ["--wasm-dump"; "a.sql"; "--unknown"; "b.sql"]
    ∧ ("--" ∉ ["--wasm-dump"; "a.sql"; "--unknown"; "b.sql"] →
       Forall (λ arg, ArgParser.key_map_ example_parser !! arg = None
                      ∧ String.prefix "--" arg = false) taken).
Proof.
  apply (@parse_args_keeps_order example_strings _
           ["mutable"; "--wasm-dump"; "a.sql"; "--unknown"; "b.sql"] example_parser
           {| ArgParser.key_map_ := ArgParser.key_map_ example_parser;
              ArgParser.args_ := ["a.sql"; "b.sql"];
              ArgParser.cerr := ["warning: ignore unknown option --unknown"];
              ArgParser.globals :=
                {| options.wasm_optimization_level := 0; options.wasm_adaptive := false;
                   options.wasm_compilation_cache := true; options.wasm_dump := true;
                   options.asm_dump := false; options.cdt_port := 0 |} |}).
  vm_compute. reflexivity.
Defined.
